(** * manga-support-ai: the cut-and-label workflow ([llm_workflow.py])

    A shallow embedding of the chunking / reconciliation pipeline of
    [Streamlit/manga_support_ai/llm_workflow.py] and the properties of it
    that its specification states.

    Layout: the model of the Python runtime the module relies on (strings
    as sequences of code points, slicing, [strip], [rfind], exceptions,
    decoded JSON values, the regular expressions, binary64 arithmetic);
    the functions of the module in source order, followed by its other
    functions and by [panels_to_entries] of [models.py], which the pages
    apply to the cuts of a run; the statements of the specification; a
    reference runtime and sample inputs on which the model runs; the
    predicates of the proofs; the lemmas and theorems; further properties
    of the module and of its callers. *)

From stdpp Require Import gmap list strings.
From Stdlib Require Import ZArith Lia DecimalString DecimalPos.
From Stdlib Require QArith SpecFloat.

Local Open Scope Z_scope.

(* ===================================================================== *)
(** * Part I. Python runtime model                                        *)
(* ===================================================================== *)

Module Py.

(** A Python [str] is a sequence of Unicode code points; lengths and
    offsets count code points, as [len] and slicing do. *)
Abbreviation str := (list N).

Definition len {A} (s : list A) : Z := Z.of_nat (length s).

(** Code points the module names. *)
Definition LF : N := 10.
Definition CR : N := 13.
Definition BACKTICK : N := 96.
Definition LBRACKET : N := 91.
Definition RBRACKET : N := 93.
Definition LBRACE : N := 123.
Definition RBRACE : N := 125.
Definition IDEOGRAPHIC_FULL_STOP : N := 12290.   (* U+3002 *)
Definition IDEOGRAPHIC_COMMA : N := 12289.       (* U+3001 *)

(** ASCII literals. *)
Definition lit (s : String.string) : str :=
  map (fun a => N.of_nat (Ascii.nat_of_ascii a)) (String.list_ascii_of_string s).
Arguments lit s%_string.

(** [str.isspace] on one code point, which is also what [strip] with no
    argument and the [\s] class of [re] remove. *)
Definition isspace (c : N) : bool :=
  ((9 <=? c) && (c <=? 13) || (28 <=? c) && (c <=? 32)
   || (c =? 133) || (c =? 160) || (c =? 5760)
   || (8192 <=? c) && (c <=? 8202)
   || (c =? 8232) || (c =? 8233) || (c =? 8239) || (c =? 8287)
   || (c =? 12288))%N.

(** [a-zA-Z] *)
Definition isalpha_ascii (c : N) : bool :=
  ((65 <=? c) && (c <=? 90) || (97 <=? c) && (c <=? 122))%N.

(** Slice bound normalisation: a negative index counts from the end, and
    both ends are clamped to the sequence. *)
Definition clamp_index (n i : Z) : Z :=
  if i <? 0 then Z.max (i + n) 0 else Z.min i n.

(** [s[a:b]] *)
Definition slice {A} (s : list A) (a b : Z) : list A :=
  let n := len s in
  let a' := clamp_index n a in
  let b' := clamp_index n b in
  take (Z.to_nat (b' - a')) (drop (Z.to_nat a') s).

Fixpoint startswith (p s : str) : bool :=
  match p, s with
  | [], _ => true
  | _ :: _, [] => false
  | a :: p', b :: s' => (a =? b)%N && startswith p' s'
  end.

(** [s.rfind(sub)] scanning from offset [i] of the original string: the
    highest index at which [sub] occurs, [-1] when there is none. *)
Fixpoint rfind_from (sub s : str) (i : Z) : Z :=
  match s with
  | [] => if startswith sub [] then i else -1
  | _ :: s' =>
      let r := rfind_from sub s' (i + 1) in
      if 0 <=? r then r else if startswith sub s then i else -1
  end.

Definition rfind (s sub : str) : Z := rfind_from sub s 0.

Fixpoint lstrip (s : str) : str :=
  match s with
  | [] => []
  | c :: s' => if isspace c then lstrip s' else s
  end.

Definition rstrip (s : str) : str := rev (lstrip (rev s)).

Definition strip (s : str) : str := lstrip (rstrip s).

(** [s.replace(old, new)] for a non-empty [old]: occurrences are replaced
    left to right without overlap; [skip] counts the characters of an
    occurrence still to be passed over. *)
Fixpoint replace_go (old new : str) (skip : nat) (s : str) : str :=
  match s with
  | [] => []
  | c :: s' =>
      match skip with
      | S k => replace_go old new k s'
      | O => if startswith old s
             then new ++ replace_go old new (Nat.pred (length old)) s'
             else c :: replace_go old new O s'
      end
  end.

Definition replace (s old new : str) : str := replace_go old new O s.

(** [text.replace("\r\n", "\n").replace("\r", "\n")] *)
Definition normalize_newlines (text : str) : str :=
  replace (replace text [CR; LF] [LF]) [CR] [LF].

(** [max] of the non-empty list [d :: l]. *)
Definition list_max (l : list Z) (d : Z) : Z := foldr Z.max d l.

(** ** Exceptions

    The classes that matter to the module's handlers.  Everything but
    [KeyboardInterrupt] and [SystemExit] derives from [Exception]. *)
Inductive exn : Type :=
  | AuthenticationError      (* openai.AuthenticationError *)
  | APIError                 (* any other error of the openai client *)
  | ValueError
  | TypeError
  | AttributeError
  | OverflowError
  | JSONDecodeError
  | UnicodeEncodeError
  | RecursionError
  | KeyboardInterrupt
  | SystemExit.

Definition is_Exception (e : exn) : bool :=
  match e with
  | KeyboardInterrupt | SystemExit => false
  | _ => true
  end.

Definition is_AuthenticationError (e : exn) : bool :=
  match e with AuthenticationError => true | _ => false end.

(** The result of running a piece of Python: a value, a raised exception,
    or [Diverges] when a loop of the model used up its iteration budget. *)
Inductive outcome (A : Type) : Type :=
  | Ok (a : A)
  | Raise (e : exn)
  | Diverges.
Arguments Ok {A} a.
Arguments Raise {A} e.
Arguments Diverges {A}.

Definition obind {A B} (m : outcome A) (k : A -> outcome B) : outcome B :=
  match m with
  | Ok a => k a
  | Raise e => Raise e
  | Diverges => Diverges
  end.

#[global] Instance outcome_ret : MRet outcome := @Ok.
#[global] Instance outcome_bind : MBind outcome := fun A B k m => obind m k.

(** [try: body  except Exception as ex: handler(ex)]: only exceptions that
    derive from [Exception] are caught. *)
Definition try_except {A} (body : outcome A) (handler : exn -> outcome A)
    : outcome A :=
  match body with
  | Raise e => if is_Exception e then handler e else Raise e
  | r => r
  end.

(** ** Decoded JSON values

    What [json.loads] returns: [None], [bool], [int], [float], [str],
    [list] and [dict] (a [dict] as its items in insertion order, keys
    unique).  A finite [float] is kept as the exact rational its literal
    denotes (the rounding to a double is not modelled); [NaN] and the
    infinities are [JNonFinite]. *)
#[local] Unset Elimination Schemes.
Inductive json : Type :=
  | JNull
  | JBool (b : bool)
  | JInt (z : Z)
  | JFloat (q : QArith_base.Q)
  | JNonFinite
  | JStr (s : str)
  | JArr (items : list json)
  | JObj (members : list (str * json)).
#[local] Set Elimination Schemes.

(** Truth value of a decoded value ([bool(v)]). *)
Definition truthy (v : json) : bool :=
  match v with
  | JNull => false
  | JBool b => b
  | JInt z => negb (z =? 0)
  | JFloat q => negb (QArith_base.Qnum q =? 0)
  | JNonFinite => true
  | JStr s => negb (bool_decide (s = []))
  | JArr l => match l with [] => false | _ => true end
  | JObj m => match m with [] => false | _ => true end
  end.

(** [a or b] *)
Definition py_or (a b : json) : json := if truthy a then a else b.

Fixpoint assoc (k : str) (m : list (str * json)) : option json :=
  match m with
  | [] => None
  | (k', v) :: m' => if bool_decide (k = k') then Some v else assoc k m'
  end.

(** [d.get(key)] and [d.get(key, default)]; a value that is not a [dict]
    has no attribute [get]. *)
Definition get (d : json) (key : str) (default : json) : outcome json :=
  match d with
  | JObj m => Ok (match assoc key m with Some v => v | None => default end)
  | _ => Raise AttributeError
  end.

(** [v.strip()]; only a [str] has the method. *)
Definition strip_method (v : json) : outcome str :=
  match v with
  | JStr s => Ok (strip s)
  | _ => Raise AttributeError
  end.

(** The library functions the module calls and this development does not
    look into: [json.loads], [int] on a [str], [str] on a decoded value
    that is not a [str], the SHA-1 hex digest of a string's UTF-8
    encoding, and [str.lower]. *)
Class Runtime : Type := {
  json_loads : str -> outcome json;
  int_of_str : str -> option Z;
  repr : json -> str;
  sha1_hexdigest : str -> str;
  lower : str -> str;
}.

(** [json.loads] returns or raises an exception deriving from [Exception]
    ([JSONDecodeError], [RecursionError]). *)
Definition loads_well_behaved `{Runtime} : Prop :=
  forall s, match json_loads s with
            | Ok _ => True
            | Raise e => is_Exception e = true
            | Diverges => False
            end.

(** [int(v)] *)
Definition int `{Runtime} (v : json) : outcome Z :=
  match v with
  | JInt z => Ok z
  | JBool b => Ok (if b then 1 else 0)
  | JFloat q => Ok (Z.quot (QArith_base.Qnum q) (Z.pos (QArith_base.Qden q)))
  | JNonFinite => Raise OverflowError
  | JStr s => match int_of_str s with Some z => Ok z | None => Raise ValueError end
  | JNull | JArr _ | JObj _ => Raise TypeError
  end.

(** [str(v)] *)
Definition to_str `{Runtime} (v : json) : str :=
  match v with
  | JStr s => s
  | _ => repr v
  end.

Definition endswith (suffix s : str) : bool := startswith (rev suffix) (rev s).

(** ** The three regular expressions of the module *)

(** [re.sub(r"^```[a-zA-Z]*\n", "", txt)] *)
Fixpoint skip_letters (s : str) : str :=
  match s with
  | [] => []
  | c :: s' => if isalpha_ascii c then skip_letters s' else s
  end.

Definition sub_fence_open (txt : str) : str :=
  if startswith [BACKTICK; BACKTICK; BACKTICK] txt then
    match skip_letters (drop 3 txt) with
    | c :: rest => if (c =? LF)%N then rest else txt
    | [] => txt
    end
  else txt.

(** [re.sub(r"\n```$", "", txt)]: [$] matches at the end of the string and
    before a newline that ends it. *)
Definition sub_fence_close (txt : str) : str :=
  let fence := [LF; BACKTICK; BACKTICK; BACKTICK] in
  if endswith fence txt then take (length txt - 4) txt
  else if endswith (fence ++ [LF]) txt then take (length txt - 5) txt ++ [LF]
  else txt.

(** [}\s*\]] at the head of [s]: the length of the match. *)
Definition close_here (s : str) : option nat :=
  match s with
  | c :: r =>
      if (c =? RBRACE)%N then
        match lstrip r with
        | d :: _ =>
            if (d =? RBRACKET)%N
            then Some (2 + (length r - length (lstrip r)))%nat
            else None
        | [] => None
        end
      else None
  | [] => None
  end.

(** The end of the match of [.*}\s*\]] at the head of [s]: the greedy
    [.*] (with DOTALL) gives way only as far as the last place where the
    rest of the pattern matches. *)
Fixpoint greedy_close (s : str) : option nat :=
  match s with
  | [] => None
  | _ :: r =>
      match greedy_close r with
      | Some e => Some (S e)
      | None => close_here s
      end
  end.

(** [\[\s*{.*}\s*\]] at the head of [s]: the length of the match. *)
Definition array_match_here (s : str) : option nat :=
  match s with
  | c :: r =>
      if (c =? LBRACKET)%N then
        match lstrip r with
        | d :: body =>
            if (d =? LBRACE)%N then
              match greedy_close body with
              | Some e => Some (2 + (length r - length (lstrip r)) + e)%nat
              | None => None
              end
            else None
        | [] => None
        end
      else None
  | [] => None
  end.

(** [JSON_ARRAY_EXTRACT.search(txt)]: the match at the leftmost position
    that has one, as [match.group(0)]. *)
Fixpoint JSON_ARRAY_EXTRACT_search (txt : str) : option str :=
  match txt with
  | [] => None
  | _ :: r =>
      match array_match_here txt with
      | Some n => Some (take n txt)
      | None => JSON_ARRAY_EXTRACT_search r
      end
  end.

(** [str(n)] for an integer. *)
Definition str_of_Z (z : Z) : str :=
  lit (DecimalString.NilZero.string_of_int (Z.to_int z)).

(** [s.zfill(width)]: zeros are inserted after a leading sign. *)
Definition zfill (s : str) (width : Z) : str :=
  let zeros := List.repeat 48%N (Z.to_nat (width - len s)) in
  match s with
  | c :: r => if ((c =? 43) || (c =? 45))%N then c :: zeros ++ r else zeros ++ s
  | [] => zeros
  end.

(** [s.encode("utf-8")] raises on a lone surrogate; the digest itself is
    the runtime's. *)
Definition sha1_of_utf8 `{Runtime} (s : str) : outcome str :=
  if forallb (fun c => negb ((55296 <=? c) && (c <=? 57343))%N) s
  then Ok (sha1_hexdigest s)
  else Raise UnicodeEncodeError.

(** The elements a [for] loop or a comprehension draws from a decoded
    value. *)
Definition iterate (v : json) : outcome (list json) :=
  match v with
  | JArr l => Ok l
  | JObj m => Ok (map (fun kv => JStr kv.1) m)
  | JStr s => Ok (map (fun c => JStr [c]) s)
  | _ => Raise TypeError
  end.

(** ** Binary64 arithmetic

    Three functions of the module multiply an [int] by a float literal
    and either truncate the product with [int] or compare it with an
    [int].  A double is a dyadic number [m * 2^e], an infinity, or
    not-a-number;
    the sign of a zero is not kept, no operation below telling [-0.0] from
    [0.0]. *)
Inductive float : Type :=
  | Finite (m e : Z)
  | Inf (negative : bool)
  | NaN.

(** [n / 2^sh] rounded to the nearest integer, a tie going to the even
    one ([0 <= n], [0 < sh]). *)
Definition round_half_even (n sh : Z) : Z :=
  let q := n / 2 ^ sh in
  let r := n mod 2 ^ sh in
  let half := 2 ^ (sh - 1) in
  if r <? half then q
  else if half <? r then q + 1
  else if Z.even q then q else q + 1.

(** The double nearest to [n * 2^s] for [0 <= n], ties to even: the
    significand keeps 53 bits, the exponent is not below that of the
    subnormal numbers ([-1074]), and a result of [2^1024] or more is
    [+inf]. *)
Definition round_pos (n s : Z) : float :=
  let sh := Z.max (Z.log2 n - 52) (-1074 - s) in
  let '(m, e) := if 0 <? sh then (round_half_even n sh, s + sh) else (n, s) in
  if (0 <? m) && (1024 <=? Z.log2 m + e) then Inf false else Finite m e.

Definition fneg (f : float) : float :=
  match f with
  | Finite m e => Finite (- m) e
  | Inf negative => Inf (negb negative)
  | NaN => NaN
  end.

(** The double nearest to [n * 2^s]. *)
Definition round_dyadic (n s : Z) : float :=
  if n <? 0 then fneg (round_pos (- n) s) else round_pos n s.

(** [x * y] on floats: the exact product, rounded; an overflow gives an
    infinity and raises nothing. *)
Definition fmul (x y : float) : float :=
  match x, y with
  | Finite m1 e1, Finite m2 e2 => round_dyadic (m1 * m2) (e1 + e2)
  | Inf a, Inf b => Inf (xorb a b)
  | Inf a, Finite m _ | Finite m _, Inf a =>
      if m =? 0 then NaN else Inf (xorb a (m <? 0))
  | NaN, _ | _, NaN => NaN
  end.

(** The conversion of an [int] operand to a float: the nearest double, or
    [OverflowError] (int too large to convert to float). *)
Definition float_of_int (z : Z) : outcome float :=
  match round_dyadic z 0 with
  | Finite m e => Ok (Finite m e)
  | _ => Raise OverflowError
  end.

(** [z * c] for an [int] [z] and a float [c]. *)
Definition mul_int_float (z : Z) (c : float) : outcome float :=
  f ← float_of_int z; Ok (fmul f c).

(** [int(f)]: truncation toward zero. *)
Definition int_of_float (f : float) : outcome Z :=
  match f with
  | Finite m e => Ok (if 0 <=? e then m * 2 ^ e else Z.quot m (2 ^ (- e)))
  | Inf _ => Raise OverflowError
  | NaN => Raise ValueError
  end.

(** [int(z * c)] *)
Definition int_of_product (z : Z) (c : float) : outcome Z :=
  f ← mul_int_float z c; int_of_float f.

(** [z > f] for an [int] [z] and a float [f]: Python compares the two
    numbers exactly, without converting the [int]. *)
Definition int_gt_float (z : Z) (f : float) : bool :=
  match f with
  | Finite m e => if 0 <=? e then m * 2 ^ e <? z else m <? z * 2 ^ (- e)
  | Inf negative => negative
  | NaN => false
  end.

(** The float literals of the module.  0.5, 0.75, 1.25 and 1.5 are dyadic;
    0.6 and 1.6 are the doubles [0x3FE3333333333333] and
    [0x3FF999999999999A], the first just below and the second just above
    the decimal. *)
Definition float_0_5 : float := Finite 1 (-1).
Definition float_0_6 : float := Finite 5404319552844595 (-53).
Definition float_0_75 : float := Finite 3 (-2).
Definition float_1_25 : float := Finite 5 (-2).
Definition float_1_5 : float := Finite 3 (-1).
Definition float_1_6 : float := Finite 7205759403792794 (-52).

End Py.

Import Py.

(* ===================================================================== *)
(** * Part II. The module, in source order                                *)
(* ===================================================================== *)

Definition CUT_MIN : Z := 100.
Definition CUT_MAX : Z := 220.
Definition TARGET_MIN : Z := 150.
Definition TARGET_MAX : Z := 220.
Definition WINDOW : Z := 2000.
Definition OVERLAP : Z := 150.

(** ** [derive_cut_parameters]

    Each [int(target * r)] converts [target] to a double, multiplies in
    double precision and truncates; it raises [OverflowError] when
    [target] has no finite double or the product is infinite. *)
Definition derive_cut_parameters (target : Z) : outcome (Z * Z * Z * Z) :=
  let target := Z.max 80 target in
  scaled ← int_of_product target float_0_75;
  let target_min := Z.max 50 scaled in
  scaled ← int_of_product target float_1_25;
  let target_max := Z.max (target_min + 30) scaled in
  scaled ← int_of_product target float_0_6;
  let cut_min := Z.max 40 scaled in
  scaled ← int_of_product target float_1_6;
  let cut_max := Z.max (cut_min + 50) scaled in
  Ok (cut_min, cut_max, target_min, target_max).

(** ** [_detect_global_span]

    [local_value > chunk_size * 1.5] rounds the product to a double (and
    raises [OverflowError] when [chunk_size] has no finite double), then
    compares the int with it. *)
Definition _detect_global_span
    (local_value chunk_start chunk_end chunk_size : Z) : outcome Z :=
  if local_value <? 0 then Ok chunk_start
  else
    threshold ← mul_int_float chunk_size float_1_5;
    if int_gt_float local_value threshold then Ok local_value
    else Ok (chunk_start + local_value).

(** The span arithmetic of the assembler's oracle path (the statements
    from [gs = _detect_global_span(...)] to the last clamp), as a function
    of the two reported offsets, the window and the length of the cut's
    text. *)
Definition reconcile_span
    (ls le start_idx end_idx chunk_size text_len : Z) : outcome (Z * Z) :=
  gs ← _detect_global_span ls start_idx end_idx chunk_size;
  ge ← _detect_global_span le start_idx end_idx chunk_size;
  let ge := if ge <=? gs then gs + text_len else ge in
  let gs := if gs <? start_idx then start_idx else gs in
  let ge := if ge <? gs then gs else ge in
  let ge := if start_idx + chunk_size <? ge then start_idx + chunk_size else ge in
  Ok (gs, ge).

(** ** [_split_fallback_chunk]

    One emitted span: [(start_offset, end_offset, segment)]. *)
Definition span3 : Type := Z * Z * str.

(** The body of the [while cursor < length] loop: the next cursor and the
    span list after one iteration. *)
Definition fallback_body (normalized : str) (cut_min cut_max : Z)
    (cursor : Z) (spans : list span3) : Z * list span3 :=
  let length := len normalized in
  let tentative_end := Z.min (cursor + cut_max) length in
  let split_point :=
    if tentative_end <? length then
      let window := slice normalized cursor tentative_end in
      let candidates :=
        [ rfind window [LF; LF];
          rfind window [IDEOGRAPHIC_FULL_STOP];
          rfind window [IDEOGRAPHIC_COMMA] ] in
      let valid_candidates := filter (fun c => cut_min - 1 <= c) candidates in
      match valid_candidates with
      | [] => tentative_end
      | c :: cs => cursor + list_max cs c + 1
      end
    else tentative_end in
  let segment_raw := slice normalized cursor split_point in
  let segment := strip segment_raw in
  let spans :=
    match segment with
    | [] => spans
    | _ :: _ =>
        let leading := len segment_raw - len (lstrip segment_raw) in
        let trailing_end := len (rstrip segment_raw) in
        let start_offset := cursor + leading in
        let end_offset := cursor + trailing_end in
        spans ++ [(start_offset, end_offset, segment)]
    end in
  let cursor := if cursor <? split_point then split_point else tentative_end in
  (cursor, spans).
Arguments fallback_body : simpl never.

(** The loop itself, with an iteration budget: [Diverges] when the budget
    is used up with [cursor < length] still true. *)
Fixpoint fallback_loop (fuel : nat) (normalized : str) (cut_min cut_max : Z)
    (cursor : Z) (spans : list span3) : outcome (list span3) :=
  if cursor <? len normalized then
    match fuel with
    | O => Diverges
    | S fuel' =>
        let '(cursor', spans') :=
          fallback_body normalized cut_min cut_max cursor spans in
        fallback_loop fuel' normalized cut_min cut_max cursor' spans'
    end
  else Ok spans.

(** The budget is the length of the normalised text: a run in which every
    iteration advances the cursor needs no more. *)
Definition _split_fallback_chunk (text : str) (cut_min cut_max : Z)
    : outcome (list span3) :=
  let normalized := normalize_newlines text in
  fallback_loop (length normalized) normalized cut_min cut_max 0 [].

(** ** [chunk_for_llm]

    A window is the dict [{"start": i, "end": end}]. *)
Record chunk : Type := Chunk { chunk_start : Z; chunk_end : Z }.

(** The body of the [while i < n] loop: the list after the append and the
    next [i], or [None] at the [break].  [int(window * 0.5)] is evaluated
    in every iteration, and raises [OverflowError] when [window] has no
    finite double. *)
Definition chunk_body (t : str) (window overlap : Z) (i : Z)
    (cuts : list chunk) : outcome (list chunk * option Z) :=
  let n := len t in
  let end_ := Z.min (i + window) n in
  let brk := rfind (slice t i end_) [LF; LF] in
  threshold ← int_of_product window float_0_5;
  let end_ := if threshold <=? brk then i + brk else end_ in
  let cuts := cuts ++ [Chunk i end_] in
  if n <=? end_ then Ok (cuts, None)
  else
    let next_i := Z.max (i + 1) (end_ - overlap) in
    Ok (cuts, Some next_i).
Arguments chunk_body : simpl never.

Fixpoint chunk_loop (fuel : nat) (t : str) (window overlap : Z) (i : Z)
    (cuts : list chunk) : outcome (list chunk) :=
  if i <? len t then
    match fuel with
    | O => Diverges
    | S fuel' =>
        step ← chunk_body t window overlap i cuts;
        match step with
        | (cuts', None) => Ok cuts'
        | (cuts', Some next_i) => chunk_loop fuel' t window overlap next_i cuts'
        end
    end
  else Ok cuts.

Definition chunk_for_llm (text : str) (window overlap : Z)
    : outcome (list chunk) :=
  let t := normalize_newlines text in
  chunk_loop (length t) t window overlap 0 [].

(** ** [_safe_json_loads] and [_safe_json_object]

    [raw] is a [str] at both call sites, so [raw or ""] is [raw]. *)
Definition strip_fence (txt : str) : str :=
  if startswith [BACKTICK; BACKTICK; BACKTICK] txt
  then sub_fence_close (sub_fence_open txt)
  else txt.

Definition _safe_json_loads `{Runtime} (raw : str)
    : outcome (option (list json)) :=
  let txt := strip raw in
  let txt := strip_fence txt in
  let txt := match JSON_ARRAY_EXTRACT_search txt with
             | Some m => m
             | None => txt
             end in
  try_except
    (data ← json_loads txt;
     Ok (match data with JArr l => Some l | _ => None end))
    (fun _ => Ok None).

Definition _safe_json_object `{Runtime} (raw : str)
    : outcome (option (list (str * json))) :=
  let txt := strip raw in
  let txt := strip_fence txt in
  try_except
    (data ← json_loads txt;
     Ok (match data with JObj m => Some m | _ => None end))
    (fun _ => Ok None).

(** ** The cut assembler

    Logging and the progress widgets of the page are left out: they read
    and write neither [panels] nor [cut_counter]. *)

(** [Panel], with the label fields as the decoded values the oracle gave
    (the dataclass does not check them). *)
Record Panel : Type := {
  panel_id : str;
  panel_text : str;
  panel_type : json;
  panel_speaker : json;
  panel_speakers : option (list str);
  panel_time : json;
  panel_location : json;
  panel_scene : json;
  panel_tone : json;
  panel_emotion : json;
  panel_action : json;
  panel_entities : json;
  panel_source_span : Z * Z;
  panel_checksum : str;
}.

(** What the loop of [llm_cut_and_label_with_params] mutates: the list
    [panels] and the counter [cut_counter].  A statement maps the state to
    an outcome and the state it leaves, which an exception does not roll
    back. *)
Record state : Type := State { panels : list Panel; cut_counter : Z }.

Definition M (A : Type) : Type := state -> outcome A * state.

Definition ret {A} (a : A) : M A := fun s => (Ok a, s).
Definition bind {A B} (m : M A) (k : A -> M B) : M B :=
  fun s => match m s with
           | (Ok a, s') => k a s'
           | (Raise e, s') => (Raise e, s')
           | (Diverges, s') => (Diverges, s')
           end.
Definition lift {A} (o : outcome A) : M A := fun s => (o, s).
Definition raise {A} (e : exn) : M A := lift (Raise e).

Notation "x <- m ;; k" := (bind m (fun x => k))
  (at level 63, m at next level, right associativity,
   format "'[v' x  <-  m  ;;  '/' k ']'").
Notation "m ;;; k" := (bind m (fun _ => k))
  (at level 63, right associativity, format "'[v' m  ;;;  '/' k ']'").

(** [try: body  except Exception as ex: handler(ex)] on statements. *)
Definition try_except_stmt {A} (body : M A) (handler : exn -> M A) : M A :=
  fun s => match body s with
           | (Raise e, s') =>
               if is_Exception e then handler e s' else (Raise e, s')
           | r => r
           end.

(** [for x in l: body(x)]; [continue] is the body returning early. *)
Fixpoint for_each {A} (l : list A) (body : A -> M unit) : M unit :=
  match l with
  | [] => ret tt
  | x :: l' => body x ;;; for_each l' body
  end.

(** [panels.append(p); cut_counter += 1] *)
Definition emit (p : Panel) : M unit :=
  fun s => (Ok tt, State (panels s ++ [p]) (cut_counter s + 1)).

Definition read_counter : M Z := fun s => (Ok (cut_counter s), s).

(** [f"c{str(cut_counter).zfill(4)}"] *)
Definition pid (cut_counter : Z) : str :=
  lit "c" ++ zfill (str_of_Z cut_counter) 4.

(** The chat-completions endpoint as one run sees it: the [idx]-th
    request, sent with the text of a window, is answered by a message
    content (possibly [None]) or by an exception.  The prompts are part of
    the request only and are not modelled. *)
Definition Client : Type := Z -> str -> outcome (option str).

(** [(resp.choices[0].message.content or "").strip()] *)
Definition _call_llm_chunk (client : Client) (idx : Z) (chunk_text : str)
    : outcome str :=
  content ← client idx chunk_text;
  Ok (strip (default [] content)).

(** The speaker fields of one item: [speakers_clean] and
    [primary_speaker]. *)
Definition item_speakers `{Runtime} (item : json)
    : outcome (list str * json) :=
  raw_speakers ← get item (lit "speakers") JNull;
  let raw_speakers := match raw_speakers with
                      | JStr _ => JArr [raw_speakers]
                      | _ => raw_speakers
                      end in
  raw_speakers ←
    (if truthy raw_speakers then Ok raw_speakers
     else
       fallback_speaker ← get item (lit "speaker") (JStr []);
       Ok (JArr (if truthy fallback_speaker then [fallback_speaker] else [])));
  elems ← iterate (py_or raw_speakers (JArr []));
  let speakers_clean :=
    filter (fun s => s <> []) (map (fun v => strip (to_str v)) elems) in
  match speakers_clean with
  | first :: _ => Ok (speakers_clean, JStr first)
  | [] =>
      sp ← get item (lit "speaker") (JStr (lit "unknown"));
      Ok (speakers_clean, py_or sp (JStr (lit "unknown")))
  end.

(** The [Panel] one item gives when the counter stands at
    [cut_counter]: [None] at the [continue], an exception where a
    statement of the loop body raises.  Nothing before
    [panels.append] touches the state. *)
Definition item_panel `{Runtime}
    (start_idx end_idx chunk_size cut_max cut_counter : Z) (item : json)
    : outcome (option Panel) :=
  t ← get item (lit "text") JNull;
  text_local ← strip_method (py_or t (JStr []));
  match text_local with
  | [] => Ok None
  | _ :: _ =>
      let text_local := if cut_max <? len text_local
                        then slice text_local 0 cut_max else text_local in
      loc ← get item (lit "source_local_span") (JObj []);
      ls ← (v ← get loc (lit "start") (JInt 0); int v);
      le ← (v ← get loc (lit "end") (JInt (ls + len text_local)); int v);
      span ←
        reconcile_span ls le start_idx end_idx chunk_size (len text_local);
      let '(gs, ge) := span in
      sp ← item_speakers item;
      let '(speakers_clean, primary_speaker) := sp in
      type_ ← get item (lit "type") (JStr (lit "unknown"));
      time ← get item (lit "time") (JStr (lit "unknown"));
      scene0 ← get item (lit "scene") (JStr []);
      location ← get item (lit "location") scene0;
      location0 ← get item (lit "location") (JStr []);
      scene ← get item (lit "scene") location0;
      tone ← get item (lit "tone") (JStr (lit "neutral"));
      emotion ← get item (lit "emotion") (JStr (lit "neutral"));
      action ← get item (lit "action") (JStr []);
      entities ← get item (lit "entities") (JArr []);
      digest ← sha1_of_utf8 text_local;
      Ok (Some {| panel_id := pid cut_counter;
                  panel_text := text_local;
                  panel_type := type_;
                  panel_speaker := primary_speaker;
                  panel_speakers := match speakers_clean with
                                    | [] => None
                                    | _ :: _ => Some speakers_clean
                                    end;
                  panel_time := time;
                  panel_location := location;
                  panel_scene := scene;
                  panel_tone := tone;
                  panel_emotion := emotion;
                  panel_action := action;
                  panel_entities := py_or entities (JArr []);
                  panel_source_span := (gs, ge);
                  panel_checksum := lit "sha1:" ++ digest |})
  end.

(** [panels.append(Panel(...)); cut_counter += 1], or nothing at a
    [continue]. *)
Definition emit_if (p : option Panel) : M unit :=
  match p with
  | None => ret tt
  | Some p => emit p
  end.

(** The body of [for item in data]. *)
Definition process_item `{Runtime} (start_idx end_idx chunk_size cut_max : Z)
    (item : json) : M unit :=
  cut_counter <- read_counter ;;
  p <- lift (item_panel start_idx end_idx chunk_size cut_max cut_counter item) ;;
  emit_if p.

(** The [Panel] of one fallback segment. *)
Definition fallback_panel `{Runtime} (start_idx chunk_size cut_counter : Z)
    (seg : span3) : outcome (option Panel) :=
  let '(local_start, _, segment_text) := seg in
  let segment_text := strip segment_text in
  match segment_text with
  | [] => Ok None
  | _ :: _ =>
      let global_start := start_idx + local_start in
      let global_end := Z.min (global_start + len segment_text)
                              (start_idx + chunk_size) in
      digest ← sha1_of_utf8 segment_text;
      Ok (Some {| panel_id := pid cut_counter;
                  panel_text := segment_text;
                  panel_type := JStr (lit "narration");
                  panel_speaker := JStr (lit "unknown");
                  panel_speakers := None;
                  panel_time := JStr (lit "unknown");
                  panel_location := JStr [];
                  panel_scene := JStr [];
                  panel_tone := JStr (lit "neutral");
                  panel_emotion := JStr (lit "neutral");
                  panel_action := JStr [];
                  panel_entities := JArr [];
                  panel_source_span := (global_start, global_end);
                  panel_checksum := lit "sha1:" ++ digest |})
  end.

(** The body of [for local_start, _, segment_text in fallback_segments]. *)
Definition emit_fallback `{Runtime} (start_idx chunk_size : Z)
    (seg : span3) : M unit :=
  cut_counter <- read_counter ;;
  p <- lift (fallback_panel start_idx chunk_size cut_counter seg) ;;
  emit_if p.

(** The [try] block of one window. *)
Definition oracle_path `{Runtime} (client : Client) (idx : Z)
    (chunk_text : str) (start_idx end_idx chunk_size cut_max : Z) : M unit :=
  raw <- lift (_call_llm_chunk client idx chunk_text) ;;
  data <- lift (_safe_json_loads raw) ;;
  match data with
  | None | Some [] => raise ValueError
  | Some ((_ :: _) as items) =>
      for_each items (process_item start_idx end_idx chunk_size cut_max)
  end.

(** The [except Exception as ex] block of one window.  The inner [try]
    re-raises [ex] when it is an [openai.AuthenticationError], inside a
    [try] whose own handler is [except Exception: pass]. *)
Definition fallback_path `{Runtime} (chunk_text : str)
    (start_idx chunk_size cut_min cut_max : Z) (ex : exn) : M unit :=
  try_except_stmt
    (if is_AuthenticationError ex then raise ex else ret tt)
    (fun _ => ret tt) ;;;
  fallback_segments <- lift (_split_fallback_chunk chunk_text cut_min cut_max) ;;
  let fallback_segments :=
    match fallback_segments with
    | [] =>
        let stripped := strip chunk_text in
        match stripped with
        | _ :: _ =>
            let leading := len chunk_text - len (lstrip chunk_text) in
            let trailing_end := len (rstrip chunk_text) in
            [(leading, trailing_end, stripped)]
        | [] => []
        end
    | _ :: _ => fallback_segments
    end in
  for_each fallback_segments (emit_fallback start_idx chunk_size).

(** The body of [for idx, ch in enumerate(chunks, start=1)]. *)
Definition process_chunk `{Runtime} (client : Client) (full_text : str)
    (cut_min cut_max : Z) (ich : Z * chunk) : M unit :=
  let '(idx, ch) := ich in
  let start_idx := chunk_start ch in
  let end_idx := chunk_end ch in
  let chunk_text := slice full_text start_idx end_idx in
  let chunk_size := end_idx - start_idx in
  try_except_stmt
    (oracle_path client idx chunk_text start_idx end_idx chunk_size cut_max)
    (fallback_path chunk_text start_idx chunk_size cut_min cut_max).

Definition enumerate {A} (start : Z) (l : list A) : list (Z * A) :=
  imap (fun i x => (start + Z.of_nat i, x)) l.

Definition llm_cut_and_label_with_params `{Runtime} (client : Client)
    (full_text : str) (chunk_target window overlap : Z)
    : outcome (list Panel) :=
  params ← derive_cut_parameters chunk_target;
  let '(cut_min, cut_max, target_min, target_max) := params in
  chunks ← chunk_for_llm full_text window overlap;
  let '(r, s) :=
    for_each (enumerate 1 chunks)
      (process_chunk client full_text cut_min cut_max)
      (State [] 1) in
  _ ← r; Ok (panels s).

Definition llm_cut_and_label `{Runtime} (client : Client) (full_text : str)
    : outcome (list Panel) :=
  llm_cut_and_label_with_params client full_text TARGET_MIN WINDOW OVERLAP.

(** ** The relationship reducer ([generate_character_graph_dot])

    [nodes] maps a name to its description and [edges] maps a pair of names
    to its set of labels. *)
Record graph : Type := Graph {
  nodes : gmap str str;
  edges : gmap (str * str) (gset str);
}.

(** [if name not in nodes or (desc and not nodes[name]): nodes[name] = desc] *)
Definition node_update (nodes : gmap str str) (name desc : str)
    : gmap str str :=
  match nodes !! name with
  | None => <[name := desc]> nodes
  | Some old =>
      if bool_decide (desc <> [] /\ old = [])
      then <[name := desc]> nodes
      else nodes
  end.

(** [(d.get(key) or "").strip()] *)
Definition stripped_field (d : json) (key : str) : outcome str :=
  v ← get d key JNull;
  strip_method (py_or v (JStr [])).

(** The body of [for char in data.get("characters", [])]. *)
Definition character_step (g : graph) (char : json) : outcome graph :=
  name ← stripped_field char (lit "name");
  match name with
  | [] => Ok g
  | _ :: _ =>
      desc ← stripped_field char (lit "description");
      Ok (Graph (node_update (nodes g) name desc) (edges g))
  end.

(** The default label, U+95A2 U+4FC2. *)
Definition DEFAULT_LABEL : str := [38306%N; 20418%N].

(** The body of [for rel in data.get("relationships", [])]. *)
Definition relationship_step `{Runtime} (g : graph) (rel : json)
    : outcome graph :=
  src ← stripped_field rel (lit "source");
  tgt ← stripped_field rel (lit "target");
  label ← stripped_field rel (lit "label");
  let label := match label with [] => DEFAULT_LABEL | _ :: _ => label end in
  if bool_decide (src = [] \/ tgt = [] \/ lower src = lower tgt) then Ok g
  else
    let key := (src, tgt) in
    let labels := default ∅ (edges g !! key) in
    Ok (Graph (nodes g) (<[key := labels ∪ {[label]}]> (edges g))).

Fixpoint fold_outcome {A B} (f : A -> B -> outcome A) (a : A) (l : list B)
    : outcome A :=
  match l with
  | [] => Ok a
  | x :: l' => a' ← f a x; fold_outcome f a' l'
  end.

(** [_call_graph_chunk]: one request, parsed with [_safe_json_object]. *)
Definition _call_graph_chunk `{Runtime} (client : Client) (idx : Z)
    (chunk_text : str) : outcome (option (list (str * json))) :=
  content ← client idx chunk_text;
  _safe_json_object (strip (default [] content)).

(** The body of [for ch in chunks]. *)
Definition graph_chunk_step `{Runtime} (client : Client) (full_text : str)
    (g : graph) (ich : Z * chunk) : outcome graph :=
  let '(idx, ch) := ich in
  let chunk_text := slice full_text (chunk_start ch) (chunk_end ch) in
  data ← _call_graph_chunk client idx chunk_text;
  match data with
  | None | Some [] => Ok g
  | Some ((_ :: _) as members) =>
      chars ← (v ← get (JObj members) (lit "characters") (JArr []); iterate v);
      g ← fold_outcome character_step g chars;
      rels ← (v ← get (JObj members) (lit "relationships") (JArr []);
              iterate v);
      fold_outcome relationship_step g rels
  end.

(** The loop of [generate_character_graph_dot] over the windows: the two
    dictionaries it has built when it reaches the rendering. *)
Definition graph_of_text `{Runtime} (client : Client) (full_text : str)
    : outcome graph :=
  chunks ← chunk_for_llm full_text WINDOW OVERLAP;
  fold_outcome (graph_chunk_step client full_text) (Graph ∅ ∅)
    (enumerate 1 chunks).

(** [generate_character_graph_dot], up to the rendering of the DOT text:
    the set of node names (the function sorts it) and the description of
    each. *)
Definition generate_character_graph_dot `{Runtime} (client : Client)
    (full_text : str) : outcome (gset str * gmap str str) :=
  match strip full_text with
  | [] => Ok (∅, ∅)
  | _ :: _ =>
      g ← graph_of_text client full_text;
      let endpoints : gset str :=
        set_fold (fun k acc => {[k.1]} ∪ {[k.2]} ∪ acc) ∅ (dom (edges g)) in
      let node_names := dom (nodes g) ∪ endpoints in
      Ok (node_names,
          set_to_map (fun name => (name, default [] (nodes g !! name)))
            node_names)
  end.


(** ** The other functions of the module

    [text_preview], [llm_plot_variants] and [build_character_brief], and,
    from [models.py], what the pages do with the cuts of a run. *)
(** *** [text_preview] *)

Definition ELLIPSIS : N := 8230.   (* U+2026 *)

(** [t if len(t) <= n else t[:n] + "…"] *)
Definition text_preview (t : str) (n : Z) : str :=
  if len t <=? n then t else slice t 0 n ++ [ELLIPSIS].

(** *** [llm_plot_variants] *)

(** One rewriting proposal, the dict [{"variant": ..., "note": ...}]. *)
Record variant : Type := Variant { variant_text : str; variant_note : str }.

(** The note of the three proposals returned when the answer holds no
    array, and the note of a proposal added to reach [n]. *)
Definition FALLBACK_NOTE : str :=
  [12501; 12457; 12540; 12523; 12496; 12483; 12463; 65306; 21407; 25991;
   12381; 12398; 12414; 12414]%N.
Definition PAD_NOTE : str := [35036; 23436]%N.

(** [out = []; for x in l: out.append(f(x))] *)
Fixpoint map_outcome {A B} (f : A -> outcome B) (l : list A)
    : outcome (list B) :=
  match l with
  | [] => Ok []
  | x :: l' => y ← f x; ys ← map_outcome f l'; Ok (y :: ys)
  end.

(** The body of [for i in range(min(len(data), n))], for [item = data[i]]. *)
Definition plot_item (selected_text : str) (item : json) : outcome variant :=
  let item := py_or item (JObj []) in
  v ← get item (lit "variant") (JStr []);
  v ← strip_method (py_or v (JStr []));
  note ← get item (lit "note") (JStr []);
  note ← strip_method (py_or note (JStr []));
  Ok (Variant (match v with [] => selected_text | _ :: _ => v end) note).

(** [llm_plot_variants]; the request carries [selected_text] and the
    style hint.  The closing [while len(out) < n] loop appends
    [n - len(out)] proposals. *)
Definition llm_plot_variants `{Runtime} (client : Client)
    (selected_text : str) (n : Z) : outcome (list variant) :=
  content ← client 1 selected_text;
  let raw := strip (default [] content) in
  data ← _safe_json_loads raw;
  match data with
  | None | Some [] =>
      Ok (replicate 3 (Variant selected_text FALLBACK_NOTE))
  | Some ((_ :: _) as data) =>
      out ← map_outcome (plot_item selected_text)
              (take (Z.to_nat (Z.min (len data) n)) data);
      Ok (out ++ replicate (Z.to_nat (n - len out))
                   (Variant selected_text PAD_NOTE))
  end.

(** *** [build_character_brief] *)

(** [sub in s] for two strings. *)
Fixpoint contains (sub s : str) : bool :=
  startswith sub s
  || match s with
     | [] => false
     | _ :: s' => contains sub s'
     end.

(** [v.lower()]; only a [str] has the method. *)
Definition lower_method `{Runtime} (v : json) : outcome str :=
  match v with
  | JStr s => Ok (lower s)
  | _ => Raise AttributeError
  end.

(** Whether the loop over [panels] appends [p] to [hits]. *)
Definition is_hit `{Runtime} (name_l : str) (p : Panel) : outcome bool :=
  by_speaker ←
    (if truthy (panel_speaker p)
     then sp ← lower_method (panel_speaker p); Ok (contains name_l sp)
     else Ok false);
  if by_speaker : bool then Ok true
  else if contains name_l (lower (panel_text p)) then Ok true
  else
    es ← iterate (py_or (panel_entities p) (JArr []));
    ents ← map_outcome lower_method es;
    Ok (bool_decide (name_l ∈ ents)).

Fixpoint filter_outcome {A} (f : A -> outcome bool) (l : list A)
    : outcome (list A) :=
  match l with
  | [] => Ok []
  | x :: l' =>
      b ← f x; r ← filter_outcome f l';
      Ok (if b : bool then x :: r else r)
  end.

(** The loop that keeps the first panel of each id. *)
Fixpoint uniq_by_id (seen : gset str) (hits : list Panel) : list Panel :=
  match hits with
  | [] => []
  | p :: hits' =>
      if bool_decide (panel_id p ∈ seen) then uniq_by_id seen hits'
      else p :: uniq_by_id ({[panel_id p]} ∪ seen) hits'
  end.

(** [uniq.sort(key=lambda x: x.source_span.get("start", 0))]: the sort is
    stable, so the result is the one an insertion sort gives that puts an
    element before the first element whose key is not smaller. *)
Fixpoint insert_by_start (p : Panel) (l : list Panel) : list Panel :=
  match l with
  | [] => [p]
  | q :: l' =>
      if (panel_source_span p).1 <=? (panel_source_span q).1
      then p :: l
      else q :: insert_by_start p l'
  end.

Definition sort_by_start (l : list Panel) : list Panel :=
  foldr insert_by_start [] l.

(** [build_character_brief]: [count] and [panels]. *)
Definition build_character_brief `{Runtime} (name : str)
    (panels : list Panel) (limit : Z) : outcome (Z * list Panel) :=
  let name_l := lower name in
  hits ← filter_outcome (is_hit name_l) panels;
  let uniq := sort_by_start (uniq_by_id ∅ hits) in
  Ok (len uniq, slice uniq 0 limit).

(** *** [models.py]: the entries made from the cuts of a run

    [add_project.py] and [manage.py] pass the result of
    [llm_cut_and_label_with_params] to [panels_to_entries]. *)

(** [EntryRecord], with the label fields as the cut has them. *)
Record EntryRecord : Type := {
  entry_id : Z;
  entry_text : str;
  entry_type : json;
  entry_speakers : list str;
  entry_time : json;
  entry_location : json;
  entry_tone : json;
  entry_emotion : json;
  entry_action : json;
  entry_entities : list json;
  entry_source_span : Z * Z;
  entry_summary : str;
}.

(** [re.sub(r"\s+", "", value).lower()] *)
Definition _normalize_token `{Runtime} (value : str) : str :=
  lower (filter (fun c => isspace c = false) value).

(** A [dict] from [str] to [str] as its items in insertion order:
    [mapping[k] = v] and [mapping.get(k)]. *)
Fixpoint dict_setitem (m : list (str * str)) (k v : str) : list (str * str) :=
  match m with
  | [] => [(k, v)]
  | (k', v') :: m' =>
      if bool_decide (k = k') then (k, v) :: m'
      else (k', v') :: dict_setitem m' k v
  end.

Fixpoint dict_get (m : list (str * str)) (k : str) : option str :=
  match m with
  | [] => None
  | (k', v) :: m' => if bool_decide (k = k') then Some v else dict_get m' k
  end.

Definition _build_name_map `{Runtime} (names : list str) : list (str * str) :=
  foldl (fun mapping name =>
           match name with
           | [] => mapping
           | _ :: _ =>
               match _normalize_token name with
               | [] => mapping
               | (_ :: _) as norm => dict_setitem mapping norm name
               end
           end) [] names.

Definition _normalize_speaker `{Runtime} (speaker : str)
    (name_map : list (str * str)) : str :=
  let norm := _normalize_token speaker in
  match dict_get name_map norm with
  | Some canonical => canonical
  | None =>
      match find (fun item : str * str =>
                    contains item.1 norm || contains norm item.1) name_map with
      | Some (_, canonical) => canonical
      | None => strip speaker
      end
  end.

(** The body of [for candidate in raw_list], on the pair of [speakers]
    and [seen]. *)
Definition speaker_step `{Runtime} (name_map : list (str * str))
    (acc : list str * gset str) (candidate : json) : list str * gset str :=
  let '(speakers, seen) := acc in
  let name := strip (to_str (py_or candidate (JStr []))) in
  match name with
  | [] => acc
  | _ :: _ =>
      let normalised := _normalize_speaker name name_map in
      match normalised with
      | [] => acc
      | _ :: _ =>
          let key := lower normalised in
          if bool_decide (key ∈ seen) then acc
          else (speakers ++ [normalised], {[key]} ∪ seen)
      end
  end.

(** The [EntryRecord] of the [idx]-th panel.  A [Panel] of the assembler
    has a list or [None] for [speakers] and a dict for [source_span]. *)
Definition entry_of_panel `{Runtime} (name_map : list (str * str))
    (ip : Z * Panel) : outcome EntryRecord :=
  let '(idx, panel) := ip in
  let raw_speaker := panel_speaker panel in
  let raw_list := match panel_speakers panel with
                  | Some l => map JStr l
                  | None => []
                  end in
  let raw_list := match raw_list with
                  | [] => if truthy raw_speaker then [raw_speaker] else []
                  | _ :: _ => raw_list
                  end in
  let speakers := (foldl (speaker_step name_map) ([], ∅) raw_list).1 in
  entities ← iterate (py_or (panel_entities panel) (JArr []));
  Ok {| entry_id := idx;
        entry_text := panel_text panel;
        entry_type := panel_type panel;
        entry_speakers := speakers;
        entry_time := panel_time panel;
        entry_location := py_or (panel_location panel) (panel_scene panel);
        entry_tone := panel_tone panel;
        entry_emotion := panel_emotion panel;
        entry_action := panel_action panel;
        entry_entities := entities;
        entry_source_span := panel_source_span panel;
        entry_summary := [] |}.

Definition panels_to_entries `{Runtime} (panels : list Panel)
    (canonical_names : list str) : outcome (list EntryRecord) :=
  let name_map := _build_name_map canonical_names in
  map_outcome (entry_of_panel name_map) (enumerate 1 panels).

(* ===================================================================== *)
(** * Part III. Statements of the specification, in its words             *)
(* ===================================================================== *)

(** ** The length policy *)

(** The ratio policy as the specification words it, from the target
    itself. *)
Definition ratio_policy (target : Z) : Z * Z * Z * Z :=
  let ideal_min := Z.max 50 (3 * target / 4) in
  let ideal_max := Z.max (ideal_min + 30) (5 * target / 4) in
  let hard_min := Z.max 40 (3 * target / 5) in
  let hard_max := Z.max (hard_min + 50) (8 * target / 5) in
  (hard_min, hard_max, ideal_min, ideal_max).

(** ** Windows *)

(** [sub] occurs in [s] at offset [j]. *)
Definition occurs_at (sub s : str) (j : Z) : Prop :=
  exists pre post, s = pre ++ sub ++ post /\ len pre = j.

(** [b] is the offset of the last occurrence of [sub] in [s]. *)
Definition last_occurrence (sub s : str) (b : Z) : Prop :=
  occurs_at sub s b /\ forall j, b < j -> ~ occurs_at sub s j.

(** The end of a window that starts at [i], in words: snapped to the last
    paragraph break of [t[i : min(i + window, n)]] when that break lies at
    or after half the window size, the proposed end otherwise. *)
Definition snapped_end (t : str) (window : Z) (c : chunk) : Prop :=
  let i := chunk_start c in
  let proposed := Z.min (i + window) (len t) in
  let w := slice t i proposed in
  (exists brk, last_occurrence [LF; LF] w brk /\ Z.quot window 2 <= brk
               /\ chunk_end c = i + brk)
  \/ ((forall j, occurs_at [LF; LF] w j -> j < Z.quot window 2)
      /\ chunk_end c = proposed).

(** C6 as the specification words it: a window whose proposed end reaches
    the end of the text keeps that end. *)
Definition final_window_keeps_full_end (text : str) (window overlap : Z) : Prop :=
  forall chunks c,
    chunk_for_llm text window overlap = Ok chunks ->
    c ∈ chunks ->
    Z.min (chunk_start c + window) (len (normalize_newlines text))
      = len (normalize_newlines text) ->
    chunk_end c = len (normalize_newlines text).

(** ** Cuts, spans and identifiers *)

(** What the properties below look at in a [Panel]. *)
Definition panel_summary (p : Panel) : str * str * (Z * Z) :=
  (panel_id p, panel_text p, panel_source_span p).

(** Offset [k] of the source text lies in the span of some cut. *)
Definition covered (ps : list Panel) (k : Z) : Prop :=
  exists p, p ∈ ps
            /\ (panel_source_span p).1 <= k < (panel_source_span p).2.

(** Every character of the source text that is not whitespace lies in the
    span of some cut. *)
Definition covers_text (full_text : str) (ps : list Panel) : Prop :=
  forall k c, 0 <= k -> full_text !! Z.to_nat k = Some c ->
              isspace c = false -> covered ps k.

(** A span lies in a window, with [end >= start]. *)
Definition span_in_window (ch : chunk) (sp : Z * Z) : Prop :=
  chunk_start ch <= sp.1 /\ sp.1 <= sp.2
  /\ sp.2 <= chunk_start ch + (chunk_end ch - chunk_start ch).

(** The identifiers [c0001], [c0002], ... of the first [n] cuts. *)
Definition consecutive_ids (n : nat) : list str :=
  map (fun i => pid (Z.of_nat i)) (seq 1 n).

(** An oracle that fails in a way the handlers of the module are written
    for: it answers or raises an exception deriving from [Exception]. *)
Definition client_well_behaved (client : Client) : Prop :=
  forall idx txt, match client idx txt with
                  | Ok _ => True
                  | Raise e => is_Exception e = true
                  | Diverges => False
                  end.

(** The source text can be encoded in UTF-8 (no lone surrogate). *)
Definition encodable (s : str) : Prop :=
  Forall (fun c => ((55296 <=? c) && (c <=? 57343))%N = false) s.

(** ** The character mentions of a run, and the merge in words *)

(** The mention one character record amounts to: its stripped name and
    description, when the name is not empty. *)
Definition mention_of (char : json) : option (str * str) :=
  match stripped_field char (lit "name") with
  | Ok ((_ :: _) as name) =>
      match stripped_field char (lit "description") with
      | Ok desc => Some (name, desc)
      | _ => None
      end
  | _ => None
  end.

(** The character records of one window, as the loop reads them. *)
Definition window_characters `{Runtime} (client : Client) (full_text : str)
    (ich : Z * chunk) : list json :=
  let '(idx, ch) := ich in
  let chunk_text := slice full_text (chunk_start ch) (chunk_end ch) in
  match _call_graph_chunk client idx chunk_text with
  | Ok (Some ((_ :: _) as members)) =>
      match (v ← get (JObj members) (lit "characters") (JArr []); iterate v) with
      | Ok chars => chars
      | _ => []
      end
  | _ => []
  end.

(** The description kept for [name]: the first one that is not empty among
    the mentions of exactly that name, the empty string when they are all
    empty, none when the name is not mentioned. *)
Fixpoint first_description (name : str) (mentions : list (str * str))
    : option str :=
  match mentions with
  | [] => None
  | (n, d) :: rest =>
      if bool_decide (n = name) then
        match d with
        | _ :: _ => Some d
        | [] => Some (default [] (first_description name rest))
        end
      else first_description name rest
  end.

(** C7 as the specification words it: the description kept for a name is
    at least as long as every description mentioned for it, and two names
    that differ only in case share one node. *)
Definition keeps_longest_description (mentions : list (str * str))
    (nodes : gmap str str) : Prop :=
  forall name desc, (name, desc) ∈ mentions ->
    exists d, nodes !! name = Some d /\ len desc <= len d.

Definition case_insensitive_nodes `{Runtime} (nodes : gmap str str) : Prop :=
  forall a b, is_Some (nodes !! a) -> is_Some (nodes !! b) ->
    lower a = lower b -> a = b.

(** ** The array pattern, in words *)

(** A run of whitespace. *)
Definition spaces (ws : str) : Prop := Forall (fun c => isspace c = true) ws.

(** [m] has the shape the pattern [JSON_ARRAY_EXTRACT] describes: an
    opening bracket, whitespace, an opening brace, any text, a closing
    brace, whitespace, a closing bracket. *)
Definition array_shape (m : str) : Prop :=
  exists ws1 body ws2,
    m = [LBRACKET] ++ ws1 ++ [LBRACE] ++ body ++ [RBRACE] ++ ws2 ++ [RBRACKET]
    /\ spaces ws1 /\ spaces ws2.

(** [m] is the region of that shape that starts leftmost in [txt] and,
    from there, reaches furthest. *)
Definition leftmost_longest_array (txt m : str) : Prop :=
  exists j, occurs_at m txt j /\ array_shape m
            /\ forall m' j', occurs_at m' txt j' -> array_shape m' ->
                 j < j' \/ (j = j' /\ len m' <= len m).

(** The text [_safe_json_loads] hands to the decoder: that region when
    there is one, the whole text otherwise. *)
Definition decoded_text (txt region : str) : Prop :=
  leftmost_longest_array txt region
  \/ ((forall m' j', occurs_at m' txt j' -> ~ array_shape m') /\ region = txt).

(** C9 as the specification words it, for the array parser: direct
    decoding comes first, so a text that decodes to a list is returned as
    decoded. *)
Definition direct_decoding_first `{Runtime} : Prop :=
  forall raw l,
    json_loads (strip_fence (strip raw)) = Ok (JArr l) ->
    _safe_json_loads raw = Ok (Some l).

(** C9 as the specification words it, for the object parser: when direct
    decoding fails, a braced region of the text that decodes to an object
    is returned. *)
Definition object_region_decoded `{Runtime} : Prop :=
  forall raw region j m,
    occurs_at region (strip_fence (strip raw)) j ->
    json_loads region = Ok (JObj m) ->
    exists m', _safe_json_object raw = Ok (Some m').

(** ** The fallback-only run, in words *)

(** The oracle is unusable for every window: the request raises, or the
    answer holds no array. *)
Definition oracle_unusable `{Runtime} (client : Client) : Prop :=
  forall idx txt,
    match _call_llm_chunk client idx txt with
    | Ok raw => match _safe_json_loads raw with
                | Ok None | Ok (Some []) => True
                | _ => False
                end
    | Raise e => is_Exception e = true
    | Diverges => False
    end.

(** The text holds no carriage return: its line endings are normalised
    already. *)
Definition no_carriage_return (s : str) : Prop := Forall (fun c => c <> CR) s.

(** A cut lies in the window [ch] and its text is the source text at its
    span. *)
Definition cut_of_window (full_text : str) (ch : chunk) (p : Panel) : Prop :=
  span_in_window ch (panel_source_span p)
  /\ panel_text p
     = slice full_text (panel_source_span p).1 (panel_source_span p).2.

(* ===================================================================== *)
(** * Part IV. A reference runtime and sample inputs                      *)
(* ===================================================================== *)

(** An executable instance of [Runtime], used to run the module on sample
    inputs: a JSON decoder that follows [json.loads] (strict strings,
    integers and decimal floats, [NaN]/[Infinity], "Extra data" rejected),
    [int] on an optionally signed run of ASCII digits, [str] on [None],
    booleans and integers, SHA-1 over the UTF-8 encoding, and [lower] on
    ASCII letters. *)
Module Ref.

Definition json_ws (c : N) : bool :=
  ((c =? 32) || (c =? 9) || (c =? 10) || (c =? 13))%N.

Fixpoint skip_ws (s : str) : str :=
  match s with
  | [] => []
  | c :: r => if json_ws c then skip_ws r else s
  end.

Definition isdigit (c : N) : bool := ((48 <=? c) && (c <=? 57))%N.

Fixpoint span_digits (s : str) : str * str :=
  match s with
  | [] => ([], [])
  | c :: r => if isdigit c
              then let '(d, rest) := span_digits r in (c :: d, rest)
              else ([], s)
  end.

Definition digits_value (d : str) : Z :=
  foldl (fun acc c => 10 * acc + Z.of_N (c - 48)) 0 d.

Definition hexval (c : N) : option N :=
  (if (48 <=? c) && (c <=? 57) then Some (c - 48)
   else if (97 <=? c) && (c <=? 102) then Some (c - 87)
   else if (65 <=? c) && (c <=? 70) then Some (c - 55)
   else None)%N.

Definition hex4 (s : str) : option (N * str) :=
  match s with
  | a :: b :: c :: d :: r =>
      match hexval a, hexval b, hexval c, hexval d with
      | Some a, Some b, Some c, Some d =>
          Some ((((a * 16 + b) * 16 + c) * 16 + d)%N, r)
      | _, _, _, _ => None
      end
  | _ => None
  end.

Definition simple_escape (e : N) : option N :=
  (if e =? 34 then Some 34 else if e =? 92 then Some 92
   else if e =? 47 then Some 47 else if e =? 98 then Some 8
   else if e =? 102 then Some 12 else if e =? 110 then Some 10
   else if e =? 114 then Some 13 else if e =? 116 then Some 9
   else None)%N.

(** The body of a string literal, after its opening quote. *)
Fixpoint scanstring (fuel : nat) (s acc : str) : option (str * str) :=
  match fuel with
  | O => None
  | S f =>
      match s with
      | [] => None
      | c :: r =>
          if (c =? 34)%N then Some (acc, r)
          else if (c <? 32)%N then None
          else if (c =? 92)%N then
            match r with
            | [] => None
            | e :: r1 =>
                if (e =? 117)%N then
                  match hex4 r1 with
                  | None => None
                  | Some (u, r2) =>
                      if ((55296 <=? u) && (u <=? 56319)
                          && startswith [92; 117] r2)%N then
                        match hex4 (drop 2 r2) with
                        | None => None
                        | Some (lo, r3) =>
                            if ((56320 <=? lo) && (lo <=? 57343))%N
                            then scanstring f r3
                                   (acc ++ [65536 + (u - 55296) * 1024
                                            + (lo - 56320)])%N
                            else scanstring f r2 (acc ++ [u])
                        end
                      else scanstring f r2 (acc ++ [u])
                  end
                else
                  match simple_escape e with
                  | Some x => scanstring f r1 (acc ++ [x])
                  | None => None
                  end
            end
          else scanstring f r (acc ++ [c])
      end
  end.

(** A number: an optional minus sign, [0] or a run of digits that does
    not start with [0], an optional fraction, an optional exponent. *)
Definition scan_number (s : str) : option (json * str) :=
  let '(neg, s1) := match s with
                    | c :: r => if (c =? 45)%N then (true, r) else (false, s)
                    | [] => (false, s)
                    end in
  match s1 with
  | [] => None
  | d :: r =>
      if isdigit d then
        let '(ipart, r1) := if (d =? 48)%N then ([d], r)
                            else let '(ds, r') := span_digits r in (d :: ds, r') in
        let '(frac, r2) :=
          match r1 with
          | dot :: r' =>
              if (dot =? 46)%N then
                match span_digits r' with
                | ([], _) => ([], r1)
                | (ds, r'') => (ds, r'')
                end
              else ([], r1)
          | [] => ([], r1)
          end in
        let '(has_exp, ex, r3) :=
          match r2 with
          | e :: r' =>
              if ((e =? 101) || (e =? 69))%N then
                let '(eneg, r'') :=
                  match r' with
                  | sg :: t => if (sg =? 45)%N then (true, t)
                               else if (sg =? 43)%N then (false, t)
                               else (false, r')
                  | [] => (false, r')
                  end in
                match span_digits r'' with
                | ([], _) => (false, 0, r2)
                | (ds, t) => (true, if eneg then - digits_value ds
                                    else digits_value ds, t)
                end
              else (false, 0, r2)
          | [] => (false, 0, r2)
          end in
        let sign := if neg then -1 else 1 in
        match frac, has_exp with
        | [], false => Some (JInt (sign * digits_value ipart), r3)
        | _, _ =>
            let mant := sign * digits_value (ipart ++ frac) in
            let e10 := ex - len frac in
            let q := if 0 <=? e10
                     then QArith_base.Qmake (mant * 10 ^ e10) 1
                     else QArith_base.Qmake mant (Z.to_pos (10 ^ (- e10))) in
            Some (JFloat q, r3)
        end
      else None
  end.

(** [d[k] = v] on the items of a dict. *)
Fixpoint dict_set (m : list (str * json)) (k : str) (v : json)
    : list (str * json) :=
  match m with
  | [] => [(k, v)]
  | (k', v') :: m' =>
      if bool_decide (k = k') then (k, v) :: m' else (k', v') :: dict_set m' k v
  end.

Definition literal (word : String.string) (v : json) (s : str)
    : option (json * str) :=
  if startswith (lit word) s
  then Some (v, drop (length (lit word)) s)
  else None.

Fixpoint scan_once (fuel : nat) (s : str) : option (json * str) :=
  match fuel with
  | O => None
  | S f =>
      match s with
      | [] => None
      | c :: r =>
          if (c =? 34)%N then
            match scanstring (length r) r [] with
            | Some (str_, r') => Some (JStr str_, r')
            | None => None
            end
          else if (c =? LBRACE)%N then parse_object f r
          else if (c =? LBRACKET)%N then parse_array f r
          else
            match literal "null" JNull s with
            | Some x => Some x
            | None =>
            match literal "true" (JBool true) s with
            | Some x => Some x
            | None =>
            match literal "false" (JBool false) s with
            | Some x => Some x
            | None =>
            match scan_number s with
            | Some x => Some x
            | None =>
            match literal "NaN" JNonFinite s with
            | Some x => Some x
            | None =>
            match literal "Infinity" JNonFinite s with
            | Some x => Some x
            | None => literal "-Infinity" JNonFinite s
            end end end end end end
      end
  end
with parse_array (fuel : nat) (s : str) : option (json * str) :=
  match fuel with
  | O => None
  | S f =>
      match skip_ws s with
      | [] => None
      | c :: r => if (c =? RBRACKET)%N then Some (JArr [], r)
                  else array_items f (c :: r) []
      end
  end
with array_items (fuel : nat) (s : str) (acc : list json)
    : option (json * str) :=
  match fuel with
  | O => None
  | S f =>
      match scan_once f s with
      | None => None
      | Some (v, r) =>
          match skip_ws r with
          | [] => None
          | c :: r' =>
              if (c =? RBRACKET)%N then Some (JArr (acc ++ [v]), r')
              else if (c =? 44)%N then array_items f (skip_ws r') (acc ++ [v])
              else None
          end
      end
  end
with parse_object (fuel : nat) (s : str) : option (json * str) :=
  match fuel with
  | O => None
  | S f =>
      match skip_ws s with
      | [] => None
      | c :: r => if (c =? RBRACE)%N then Some (JObj [], r)
                  else if (c =? 34)%N then object_members f r []
                  else None
      end
  end
with object_members (fuel : nat) (s : str) (acc : list (str * json))
    : option (json * str) :=
  match fuel with
  | O => None
  | S f =>
      match scanstring (length s) s [] with
      | None => None
      | Some (key, r) =>
          match skip_ws r with
          | [] => None
          | colon :: r1 =>
              if (colon =? 58)%N then
                match scan_once f (skip_ws r1) with
                | None => None
                | Some (v, r2) =>
                    match skip_ws r2 with
                    | [] => None
                    | c :: r3 =>
                        if (c =? RBRACE)%N
                        then Some (JObj (dict_set acc key v), r3)
                        else if (c =? 44)%N then
                          match skip_ws r3 with
                          | q :: r4 =>
                              if (q =? 34)%N
                              then object_members f r4 (dict_set acc key v)
                              else None
                          | [] => None
                          end
                        else None
                    end
                end
              else None
          end
      end
  end.

Definition json_loads (s : str) : outcome json :=
  match scan_once (4 * length s + 4) (skip_ws s) with
  | Some (v, r) =>
      match skip_ws r with
      | [] => Ok v
      | _ :: _ => Raise JSONDecodeError
      end
  | None => Raise JSONDecodeError
  end.

Definition int_of_str (s : str) : option Z :=
  let s := strip s in
  let '(neg, ds) := match s with
                    | c :: r => if (c =? 45)%N then (true, r)
                                else if (c =? 43)%N then (false, r)
                                else (false, s)
                    | [] => (false, s)
                    end in
  match span_digits ds with
  | ((_ :: _) as d, []) => Some (if neg then - digits_value d else digits_value d)
  | _ => None
  end.

(** [str] on the values the samples apply it to; floats, lists and dicts
    are printed as an ellipsis, which no sample reaches. *)
Definition repr (v : json) : str :=
  match v with
  | JNull => lit "None"
  | JBool true => lit "True"
  | JBool false => lit "False"
  | JInt z => str_of_Z z
  | JStr s => s
  | _ => lit "..."
  end.

(** *** SHA-1 *)

Definition utf8 (c : N) : list Z :=
  let c := Z.of_N c in
  if c <? 128 then [c]
  else if c <? 2048 then [192 + c / 64; 128 + c mod 64]
  else if c <? 65536 then [224 + c / 4096; 128 + (c / 64) mod 64; 128 + c mod 64]
  else [240 + c / 262144; 128 + (c / 4096) mod 64;
        128 + (c / 64) mod 64; 128 + c mod 64].

Definition w32 (x : Z) : Z := x mod 4294967296.
Definition rotl (n x : Z) : Z :=
  w32 (Z.lor (Z.shiftl x n) (Z.shiftr x (32 - n))).

Definition be_bytes (n : nat) (x : Z) : list Z :=
  map (fun i => (x / 256 ^ Z.of_nat i) mod 256) (rev (seq 0 n)).

Definition sha1_pad (msg : list Z) : list Z :=
  let l := length msg in
  let zeros := ((119 - l mod 64) mod 64)%nat in
  msg ++ [128] ++ List.repeat 0 zeros ++ be_bytes 8 (8 * Z.of_nat l).

Fixpoint be_words (fuel : nat) (bs : list Z) : list Z :=
  match fuel, bs with
  | S f, a :: b :: c :: d :: r =>
      (((a * 256 + b) * 256 + c) * 256 + d) :: be_words f r
  | _, _ => []
  end.

(** The message schedule, most recent word first. *)
Fixpoint sha1_schedule (n : nat) (ws : list Z) : list Z :=
  match n with
  | O => ws
  | S n' =>
      let w := rotl 1 (Z.lxor (Z.lxor (nth 2 ws 0) (nth 7 ws 0))
                              (Z.lxor (nth 13 ws 0) (nth 15 ws 0))) in
      sha1_schedule n' (w :: ws)
  end.

Definition sha1_round (st : Z * Z * Z * Z * Z) (tw : nat * Z)
    : Z * Z * Z * Z * Z :=
  let '(a, b, c, d, e) := st in
  let '(t, w) := tw in
  let '(f, k) :=
    if (t <? 20)%nat
    then (Z.lor (Z.land b c) (Z.land (Z.lxor b 4294967295) d), 1518500249)
    else if (t <? 40)%nat then (Z.lxor (Z.lxor b c) d, 1859775393)
    else if (t <? 60)%nat
    then (Z.lor (Z.lor (Z.land b c) (Z.land b d)) (Z.land c d), 2400959708)
    else (Z.lxor (Z.lxor b c) d, 3395469782) in
  (w32 (rotl 5 a + f + e + k + w), a, rotl 30 b, c, d).

Definition sha1_block (h : Z * Z * Z * Z * Z) (block : list Z)
    : Z * Z * Z * Z * Z :=
  let ws := rev (sha1_schedule 64 (rev (be_words 16 block))) in
  let '(a, b, c, d, e) := foldl sha1_round h (zip (seq 0 80) ws) in
  let '(h0, h1, h2, h3, h4) := h in
  (w32 (h0 + a), w32 (h1 + b), w32 (h2 + c), w32 (h3 + d), w32 (h4 + e)).

Fixpoint sha1_blocks (fuel : nat) (h : Z * Z * Z * Z * Z) (bs : list Z)
    : Z * Z * Z * Z * Z :=
  match fuel, bs with
  | S f, _ :: _ => sha1_blocks f (sha1_block h (take 64 bs)) (drop 64 bs)
  | _, _ => h
  end.

Definition hex_digit (x : Z) : N :=
  Z.to_N (if x <? 10 then 48 + x else 87 + x).

Definition hex_word (x : Z) : str :=
  map (fun i => hex_digit ((x / 16 ^ Z.of_nat i) mod 16)) (rev (seq 0 8)).

Definition sha1_hexdigest (s : str) : str :=
  let bs := sha1_pad (concat (map utf8 s)) in
  let '(h0, h1, h2, h3, h4) :=
    sha1_blocks (length bs)
      (1732584193, 4023233417, 2562383102, 271733878, 3285377520) bs in
  hex_word h0 ++ hex_word h1 ++ hex_word h2 ++ hex_word h3 ++ hex_word h4.

(** [str.lower] on ASCII letters; other code points are left as they
    are. *)
Definition lower (s : str) : str :=
  map (fun c => if ((65 <=? c) && (c <=? 90))%N then (c + 32)%N else c) s.

#[global] Instance runtime : Runtime := {|
  Py.json_loads := json_loads;
  Py.int_of_str := int_of_str;
  Py.repr := repr;
  Py.sha1_hexdigest := sha1_hexdigest;
  Py.lower := lower;
|}.

End Ref.


(** ** The doubles of the standard library

    [SpecFloat] specifies the arithmetic of IEEE 754; with a precision of
    53 bits and infinities at exponent 1024 it is binary64.  The rounding
    and the product of Part I are compared with it on sample operands. *)

Module Binary64.

Definition of_spec (x : SpecFloat.spec_float) : float :=
  match x with
  | SpecFloat.S754_zero _ => Finite 0 0
  | SpecFloat.S754_infinity s => Inf s
  | SpecFloat.S754_nan => NaN
  | SpecFloat.S754_finite s m e => Finite (if s then Z.neg m else Z.pos m) e
  end.

Definition to_spec (f : float) : SpecFloat.spec_float :=
  match f with
  | Finite m e => SpecFloat.binary_normalize 53 1024 m e false
  | Inf s => SpecFloat.S754_infinity s
  | NaN => SpecFloat.S754_nan
  end.

(** The same number, whatever the exponent it is written with. *)
Definition same_number (f g : float) : bool :=
  match f, g with
  | Finite m1 e1, Finite m2 e2 =>
      let e := Z.min e1 e2 in m1 * 2 ^ (e1 - e) =? m2 * 2 ^ (e2 - e)
  | Inf a, Inf b => Bool.eqb a b
  | NaN, NaN => true
  | _, _ => false
  end.

Definition agree_round (n s : Z) : bool :=
  same_number (round_dyadic n s)
    (of_spec (SpecFloat.binary_normalize 53 1024 n s false)).

Definition agree_mul (z : Z) (c : float) : bool :=
  let z' := SpecFloat.binary_normalize 53 1024 z 0 false in
  match float_of_int z with
  | Ok f => same_number (fmul f c)
              (of_spec (SpecFloat.SFmul 53 1024 z' (to_spec c)))
  | _ => match z' with SpecFloat.S754_infinity _ => true | _ => false end
  end.

Definition operands : list Z :=
  [0; 1; 2; 3; 5; 79; 80; 81; 150; 2000;
   845950362783103; 3002399751580333; 4503599627370500;
   2 ^ 52; 2 ^ 52 + 1; 2 ^ 53 - 1; 2 ^ 53; 2 ^ 53 + 1; 2 ^ 53 + 2;
   2 ^ 53 + 3; 2 ^ 54 + 2; 2 ^ 54 + 6; 2 ^ 60 + 2 ^ 7;
   2 ^ 60 + 2 ^ 8 + 2 ^ 7; 2 ^ 100 + 12345;
   2 ^ 1023; 2 ^ 1024 - 2 ^ 970 - 1; 2 ^ 1024 - 2 ^ 970; 2 ^ 1024;
   2 ^ 1100;
   -1; -3; - (2 ^ 53 + 1); - (2 ^ 53 + 3); - 2 ^ 1024].

(** Operands drawn by a linear congruential generator, [bits] wide. *)
Fixpoint drawn (n : nat) (bits x : Z) : list Z :=
  match n with
  | O => []
  | S n' =>
      x mod 2 ^ bits
      :: drawn n' bits ((x * 6364136223846793005 + 1442695040888963407)
                        mod 2 ^ 128)
  end.

Definition drawn_operands : list Z :=
  drawn 60 40 2024 ++ drawn 60 50 7 ++ drawn 60 54 11 ++ drawn 60 64 13
  ++ drawn 60 128 17 ++ map Z.opp (drawn 60 56 19).

Definition exponents : list Z := [0; -1; -53; -1074; -1100; -1130; 900; 970].

Definition literals : list float :=
  [float_0_5; float_0_6; float_0_75; float_1_25; float_1_5; float_1_6].

End Binary64.

(** ** Sample inputs *)

Module Sample.

(** The summaries of the cuts of a run. *)
Definition summaries (r : outcome (list Panel))
    : outcome (list (str * str * (Z * Z))) :=
  ps ← r; Ok (map panel_summary ps).

(** A literal in which the apostrophe stands for the double quote. *)
Definition quoted (s : String.string) : str :=
  map (fun c => if (c =? 39)%N then 34%N else c) (lit s).
Arguments quoted s%_string.

(** An oracle that rejects the credentials on every request. *)
Definition unauthorized : Client := fun _ _ => Raise AuthenticationError.

(** An oracle that is down. *)
Definition unreachable : Client := fun _ _ => Raise APIError.

(** An oracle that reports a span past the end of its window. *)
Definition overshooting : Client := fun _ _ =>
  Ok (Some (quoted
    "[{'text': 'abc', 'source_local_span': {'start': 120, 'end': 130}}]")).

(** An oracle that labels the first window (the second item with
    offsets it cannot know) and fails on the others. *)
Definition first_window_only : Client := fun idx _ =>
  if idx =? 1
  then Ok (Some (quoted "```json
[{'text': 'hello', 'speaker': 'A', 'source_local_span': {'start': 0, 'end': 5}},
 {'text': 'wo', 'speakers': ['B', ' '], 'source_local_span': {'start': -1}}]
```"))
  else Raise APIError.

(** An extraction that mentions "A" twice and "a" once. *)
Definition three_mentions : Client := fun _ _ =>
  Ok (Some (quoted
    "{'characters': [{'name': 'A', 'description': 'x'},
                     {'name': 'A', 'description': 'longer'},
                     {'name': 'a', 'description': 'y'}],
      'relationships': [{'source': 'A', 'target': 'B', 'label': 'friend'}]}")).

Definition hundred_a : str := List.repeat 97%N 100.
Definition hello_world : str := lit "hello world!".
Definition crlf_text : str := lit "a" ++ [CR; LF] ++ lit "b".
Definition paragraph_text : str := lit "abc" ++ [LF; LF] ++ lit "d".

End Sample.


(** ** More sample inputs *)

Module Sample2.

(** An oracle that proposes one rewriting. *)
Definition single_proposal : Client := fun _ _ =>
  Ok (Some (Sample.quoted "[{'variant': ' hi there ', 'note': 'short'}]")).

(** A narration cut as the fallback path makes it. *)
Definition narration (id text : str) (span : Z * Z) : Panel :=
  {| panel_id := id; panel_text := text;
     panel_type := JStr (lit "narration");
     panel_speaker := JStr (lit "unknown"); panel_speakers := None;
     panel_time := JStr (lit "unknown");
     panel_location := JStr []; panel_scene := JStr [];
     panel_tone := JStr (lit "neutral"); panel_emotion := JStr (lit "neutral");
     panel_action := JStr []; panel_entities := JArr [];
     panel_source_span := span;
     panel_checksum := lit "sha1:" ++ Ref.sha1_hexdigest text |}.

(** The two fallback cuts of "hello world!" in windows of 8, the later
    one first. *)
Definition two_cuts : list Panel :=
  [narration (lit "c0002") (lit "world!") (6, 12);
   narration (lit "c0001") (lit "hello wo") (0, 8)].

End Sample2.
(* ===================================================================== *)
(** * Part V. Predicates of the proofs                                    *)
(* ===================================================================== *)

(** A non-negative integer rounded to 53 significant bits, a tie going to
    the even significand: the value of the double nearest to it, were the
    exponent unbounded. *)
Definition round53 (n : Z) : Z :=
  let sh := Z.log2 n - 52 in
  if 0 <? sh then round_half_even n sh * 2 ^ sh else n.

(** [k] zeros in front of a decimal number. *)
Fixpoint leading_zeros (k : nat) (d : Decimal.uint) : Decimal.uint :=
  match k with
  | O => d
  | S k' => Decimal.D0 (leading_zeros k' d)
  end.

(** The decimal digits [str] prints for an integer that is not negative. *)
Definition uint_of_Z (c : Z) : Decimal.uint :=
  match c with
  | Z.pos p => Pos.to_uint p
  | _ => Decimal.D0 Decimal.Nil
  end.

(** The invariant of the run: the cuts emitted so far carry the
    identifiers [c0001], [c0002], ... in order, and the counter is one
    past their number. *)
Definition ids_ok (s : state) : Prop :=
  map panel_id (panels s) = consecutive_ids (length (panels s))
  /\ cut_counter s = Z.of_nat (S (length (panels s))).

(** A statement keeps an invariant of the state, however it ends. *)
Definition preserves {A} (I : state -> Prop) (m : M A) : Prop :=
  forall s, I s -> I (m s).2.

(** An outcome the handlers of the module are written for: a value, or an
    exception deriving from [Exception]. *)
Definition benign {A} (o : outcome A) : Prop :=
  match o with
  | Ok _ => True
  | Raise e => is_Exception e = true
  | Diverges => False
  end.

Definition benign_stmt {A} (m : M A) : Prop := forall s, benign (m s).1.

(** A statement returns from every state. *)
Definition returns_stmt {A} (m : M A) : Prop :=
  forall s, exists a s', m s = (Ok a, s').

(** A span of the fallback splitter is sound: a stripped, non-empty slice
    of the normalised text at the offsets it reports. *)
Definition span_ok (normalized : str) (sp : span3) : Prop :=
  0 <= sp.1.1 /\ sp.1.1 < sp.1.2 /\ sp.1.2 <= len normalized
  /\ sp.2 = slice normalized sp.1.1 sp.1.2 /\ strip sp.2 = sp.2.

(** Offset [k] lies in one of the spans. *)
Definition span_covers (spans : list span3) (k : Z) : Prop :=
  exists sp, sp ∈ spans /\ sp.1.1 <= k < sp.1.2.

(** The character at offset [k] of [s] is not whitespace. *)
Definition nonspace_at (s : str) (k : Z) : Prop :=
  0 <= k /\ exists c, s !! Z.to_nat k = Some c /\ isspace c = false.

(** A window is not empty and lies in a text of length [n]. *)
Definition chunk_ok (n : Z) (c : chunk) : Prop :=
  0 <= chunk_start c /\ chunk_start c < chunk_end c /\ chunk_end c <= n.

(** Offset [k] lies in one of the windows. *)
Definition in_chunk (cs : list chunk) (k : Z) : Prop :=
  exists c, c ∈ cs /\ chunk_start c <= k < chunk_end c.

(** The cut the fallback loop appends for a span: at the span shifted by
    the window start, with the text of the span. *)
Definition cut_of_span (start_idx : Z) (sp : span3) (p : Panel) : Prop :=
  panel_source_span p = (start_idx + sp.1.1, start_idx + sp.1.2)
  /\ panel_text p = sp.2.

(** The node dictionary after a list of mentions. *)
Definition merge (nodes : gmap str str) (mentions : list (str * str))
    : gmap str str :=
  foldl (fun nodes m => node_update nodes m.1 m.2) nodes mentions.


(** ** Order, and what runs and the reducer keep *)

(** Earlier elements of [l] stand in relation [R] to later ones. *)
Definition in_order {A} (R : A -> A -> Prop) (l : list A) : Prop :=
  forall (i j : nat) (x y : A),
    (i < j)%nat -> l !! i = Some x -> l !! j = Some y -> R x y.

(** ** What every cut of a run satisfies *)

(** A cut made for the window [ch] under the hard maximum [cut_max]: its
    text is not empty and at most [cut_max] characters long; its span
    starts at or after the start of the window and ends at or before its
    end; its checksum is the SHA-1 digest of its text. *)
Definition cut_well_formed `{Runtime} (cut_max : Z) (ch : chunk) (p : Panel)
    : Prop :=
  panel_text p <> []
  /\ len (panel_text p) <= cut_max
  /\ chunk_start ch <= (panel_source_span p).1
  /\ (panel_source_span p).2 <= chunk_end ch
  /\ panel_checksum p = lit "sha1:" ++ sha1_hexdigest (panel_text p).

(** The speaker labels of a cut: a list of speakers is never empty (the
    field is [None] instead), each listed speaker is a non-empty, stripped
    string, and the primary speaker is the first of them; without a list
    the primary speaker is a value that counts as true.  The entities are
    a value that counts as true, or the empty list. *)
Definition labels_well_formed (p : Panel) : Prop :=
  match panel_speakers p with
  | Some speakers =>
      exists first rest,
        speakers = first :: rest /\ panel_speaker p = JStr first
        /\ Forall (fun s => s <> [] /\ strip s = s) speakers
  | None => truthy (panel_speaker p) = true
  end
  /\ (truthy (panel_entities p) = true \/ panel_entities p = JArr []).

(** ** What the relationship reducer keeps *)

(** The two dictionaries of the reducer are well formed: a node name is
    not empty and is stripped, and so is its description (which may be
    empty); an edge joins two non-empty, stripped names that differ even
    when case is ignored, and carries at least one label, none of them
    empty, each stripped. *)
Definition graph_well_formed `{Runtime} (g : graph) : Prop :=
  (forall name desc, nodes g !! name = Some desc ->
     name <> [] /\ strip name = name /\ strip desc = desc)
  /\ (forall src tgt labels, edges g !! (src, tgt) = Some labels ->
        src <> [] /\ tgt <> [] /\ strip src = src /\ strip tgt = tgt
        /\ lower src <> lower tgt
        /\ labels <> ∅
        /\ forall label, label ∈ labels -> label <> [] /\ strip label = label).
(* ===================================================================== *)
(** * Part VI. Lemmas and theorems                                        *)
(* ===================================================================== *)

(** ** Binary64 rounding

    [round53] is the rounding of a non-negative integer to 53 significant
    bits; the conversion of an int and the product of a double and a float
    literal are expressed with it. *)

Lemma pow2_split sh : 0 < sh -> 2 ^ sh = 2 * 2 ^ (sh - 1) /\ 0 < 2 ^ (sh - 1).
Proof.
  intros H. split.
  - rewrite <- Z.pow_succ_r by lia. f_equal. lia.
  - apply Z.pow_pos_nonneg; lia.
Qed.

Lemma round_half_even_bounds n sh :
  0 < sh ->
  n / 2 ^ sh <= round_half_even n sh <= n / 2 ^ sh + 1.
Proof.
  intros Hsh. unfold round_half_even.
  repeat match goal with |- context [if ?c then _ else _] => destruct c end; lia.
Qed.

Lemma round_half_even_error n sh :
  0 < sh ->
  - 2 ^ (sh - 1) <= round_half_even n sh * 2 ^ sh - n <= 2 ^ (sh - 1).
Proof.
  intros Hsh. destruct (pow2_split sh Hsh) as [HP Hh].
  unfold round_half_even.
  pose proof (Z.div_mod n (2 ^ sh) ltac:(lia)) as Hdm.
  pose proof (Z.mod_pos_bound n (2 ^ sh) ltac:(lia)) as Hr.
  set (q := n / 2 ^ sh) in *. set (r := n mod 2 ^ sh) in *.
  set (h := 2 ^ (sh - 1)) in *. set (P := 2 ^ sh) in *.
  destruct (Z.ltb_spec r h); [nia|].
  destruct (Z.ltb_spec h r); [nia|].
  destruct (Z.even q); nia.
Qed.

Lemma round_half_even_mono n1 n2 sh :
  0 < sh -> n1 <= n2 -> round_half_even n1 sh <= round_half_even n2 sh.
Proof.
  intros Hsh Hn. destruct (pow2_split sh Hsh) as [HP Hh].
  pose proof (Z.div_le_mono n1 n2 (2 ^ sh) ltac:(lia) Hn) as Hq.
  destruct (Z.eq_dec (n1 / 2 ^ sh) (n2 / 2 ^ sh)) as [Heq|Hne].
  - pose proof (Z.div_mod n1 (2 ^ sh) ltac:(lia)) as Hdm1.
    pose proof (Z.div_mod n2 (2 ^ sh) ltac:(lia)) as Hdm2.
    unfold round_half_even. rewrite <- Heq in *.
    set (q := n1 / 2 ^ sh) in *.
    assert (n1 mod 2 ^ sh <= n2 mod 2 ^ sh) by nia.
    repeat match goal with
           | |- context [if ?a <? ?b then _ else _] => destruct (Z.ltb_spec a b)
           end; try lia; destruct (Z.even q); lia.
  - pose proof (round_half_even_bounds n1 sh Hsh).
    pose proof (round_half_even_bounds n2 sh Hsh). lia.
Qed.

Lemma round_half_even_scale n sh k :
  0 < sh -> 0 <= k ->
  round_half_even (n * 2 ^ k) (sh + k) = round_half_even n sh.
Proof.
  intros Hsh Hk. destruct (pow2_split sh Hsh) as [HP Hh].
  assert (Hk2 : 0 < 2 ^ k) by (apply Z.pow_pos_nonneg; lia).
  unfold round_half_even.
  rewrite Z.pow_add_r by lia.
  rewrite Z.div_mul_cancel_r by lia.
  rewrite Z.mul_mod_distr_r by lia.
  replace (sh + k - 1) with (sh - 1 + k) by lia.
  rewrite Z.pow_add_r by lia.
  set (r := n mod 2 ^ sh). set (h := 2 ^ (sh - 1)) in *.
  destruct (Z.ltb_spec r h), (Z.ltb_spec (r * 2 ^ k) (h * 2 ^ k)); try nia.
  destruct (Z.ltb_spec h r), (Z.ltb_spec (h * 2 ^ k) (r * 2 ^ k)); try nia; reflexivity.
Qed.

Lemma round_half_even_nearest n sh q :
  0 < sh ->
  - 2 ^ (sh - 1) < q * 2 ^ sh - n < 2 ^ (sh - 1) ->
  round_half_even n sh = q.
Proof.
  intros Hsh Hq. destruct (pow2_split sh Hsh) as [HP Hh].
  unfold round_half_even.
  pose proof (Z.div_mod n (2 ^ sh) ltac:(lia)) as Hdm.
  pose proof (Z.mod_pos_bound n (2 ^ sh) ltac:(lia)) as Hr.
  set (q0 := n / 2 ^ sh) in *. set (r := n mod 2 ^ sh) in *.
  set (h := 2 ^ (sh - 1)) in *. set (P := 2 ^ sh) in *.
  destruct (Z.ltb_spec r h); [nia|].
  destruct (Z.ltb_spec h r); [nia|].
  exfalso. assert (r = h) by lia.
  assert (q <= q0 \/ q0 + 1 <= q) as [|] by lia; nia.
Qed.

Lemma round53_small n : 0 <= n < 2 ^ 53 -> round53 n = n.
Proof.
  intros Hn. unfold round53.
  destruct (Z.ltb_spec 0 (Z.log2 n - 52)); [|done].
  exfalso. destruct (Z.eq_dec n 0) as [->|]; [simpl in *; lia|].
  assert (Z.log2 n < 53) by (apply Z.log2_lt_pow2; lia). lia.
Qed.

Lemma round53_large n :
  2 ^ 53 <= n ->
  let sh := Z.log2 n - 52 in
  0 < sh
  /\ 2 ^ (52 + sh) <= n < 2 ^ (53 + sh)
  /\ round53 n = round_half_even n sh * 2 ^ sh
  /\ 2 ^ 52 <= round_half_even n sh <= 2 ^ 53.
Proof.
  intros Hn sh.
  assert (Hpos : 0 < n) by (pose proof (Z.pow_pos_nonneg 2 53); lia).
  assert (Hl : 53 <= Z.log2 n) by (apply Z.log2_le_pow2; lia).
  pose proof (Z.log2_spec n Hpos) as Hs.
  assert (Hsh : 0 < sh) by (subst sh; lia).
  replace (52 + sh) with (Z.log2 n) by (subst sh; lia).
  replace (53 + sh) with (Z.succ (Z.log2 n)) by (subst sh; lia).
  split; [done|]. split; [done|]. split.
  - unfold round53. fold sh. by destruct (Z.ltb_spec 0 sh); [|lia].
  - pose proof (round_half_even_bounds n sh Hsh) as Hb.
    assert (Hsplit : 2 ^ Z.log2 n = 2 ^ 52 * 2 ^ sh).
    { rewrite <- Z.pow_add_r by lia. f_equal. subst sh. lia. }
    assert (Hsplit' : 2 ^ Z.succ (Z.log2 n) = 2 ^ 53 * 2 ^ sh).
    { rewrite <- Z.pow_add_r by lia. f_equal. subst sh. lia. }
    assert (0 < 2 ^ sh) by (apply Z.pow_pos_nonneg; lia).
    assert (2 ^ 52 <= n / 2 ^ sh).
    { apply Z.div_le_lower_bound; lia. }
    assert (n / 2 ^ sh < 2 ^ 53).
    { apply Z.div_lt_upper_bound; lia. }
    lia.
Qed.

Lemma round53_error n : 0 <= n -> - n <= (round53 n - n) * 2 ^ 53 <= n.
Proof.
  intros Hn. destruct (Z.lt_ge_cases n (2 ^ 53)).
  - rewrite round53_small by lia. lia.
  - pose proof (round53_large n ltac:(lia)) as Hl. cbv zeta in Hl.
    set (sh := Z.log2 n - 52) in *. destruct Hl as (Hsh & Hb & -> & Hm).
    pose proof (round_half_even_error n _ Hsh).
    assert (2 ^ (52 + sh) = 2 ^ 53 * 2 ^ (sh - 1)).
    { rewrite <- Z.pow_add_r by lia. f_equal. lia. }
    nia.
Qed.

Lemma round53_mono n1 n2 : 0 <= n1 <= n2 -> round53 n1 <= round53 n2.
Proof.
  intros Hn. destruct (Z.lt_ge_cases n2 (2 ^ 53)).
  { rewrite !round53_small by lia. lia. }
  pose proof (round53_large n2 ltac:(lia)) as Hl2. cbv zeta in Hl2.
  set (sh2 := Z.log2 n2 - 52) in *. destruct Hl2 as (Hsh2 & Hb2 & He2 & Hm2).
  assert (0 < 2 ^ sh2) by (apply Z.pow_pos_nonneg; lia).
  assert (2 ^ 1 <= 2 ^ sh2) by (apply Z.pow_le_mono_r; lia).
  destruct (Z.lt_ge_cases n1 (2 ^ 53)).
  { rewrite (round53_small n1) by lia. rewrite He2.
    change (2 ^ 1) with 2 in *. nia. }
  pose proof (round53_large n1 ltac:(lia)) as Hl1. cbv zeta in Hl1.
  set (sh1 := Z.log2 n1 - 52) in *. destruct Hl1 as (Hsh1 & Hb1 & He1 & Hm1).
  assert (sh1 <= sh2).
  { subst sh1 sh2. pose proof (Z.log2_le_mono n1 n2 ltac:(lia)). lia. }
  rewrite He1, He2.
  destruct (Z.eq_dec sh1 sh2) as [Heq|Hne].
  - rewrite Heq in *.
    pose proof (round_half_even_mono n1 n2 sh2 Hsh2 ltac:(lia)). nia.
  - assert (2 ^ (sh1 + 1) <= 2 ^ sh2) by (apply Z.pow_le_mono_r; lia).
    rewrite Z.pow_add_r in * by lia. change (2 ^ 1) with 2 in *.
    assert (0 < 2 ^ sh1) by (apply Z.pow_pos_nonneg; lia).
    nia.
Qed.

Lemma round53_scale n k : 0 <= n -> 0 <= k -> round53 (n * 2 ^ k) = round53 n * 2 ^ k.
Proof.
  intros Hn Hk.
  assert (Hk2 : 0 < 2 ^ k) by (apply Z.pow_pos_nonneg; lia).
  destruct (Z.lt_ge_cases n (2 ^ 53)) as [Hs|Hbig].
  - rewrite (round53_small n) by lia.
    destruct (Z.lt_ge_cases (n * 2 ^ k) (2 ^ 53)).
    { apply round53_small. nia. }
    pose proof (round53_large (n * 2 ^ k) ltac:(lia)) as Hl. cbv zeta in Hl.
    set (sh := Z.log2 (n * 2 ^ k) - 52) in *.
    destruct Hl as (Hsh & Hb & -> & Hm).
    assert (0 < n) by nia.
    assert (Hlog : Z.log2 (n * 2 ^ k) = k + Z.log2 n) by (apply Z.log2_mul_pow2; lia).
    assert (Z.log2 n < 53) by (apply Z.log2_lt_pow2; lia).
    assert (Hle : sh <= k) by (subst sh; lia).
    assert (Hsplit : 2 ^ k = 2 ^ (k - sh) * 2 ^ sh).
    { rewrite <- Z.pow_add_r by lia. f_equal. lia. }
    rewrite (round_half_even_nearest _ sh (n * 2 ^ (k - sh))); [nia|done|].
    destruct (pow2_split sh Hsh). nia.
  - pose proof (round53_large n ltac:(lia)) as Hl. cbv zeta in Hl.
    set (sh := Z.log2 n - 52) in *. destruct Hl as (Hsh & Hb & He & Hm).
    assert (0 < n) by (pose proof (Z.pow_pos_nonneg 2 53); lia).
    assert (Hlog : Z.log2 (n * 2 ^ k) = k + Z.log2 n) by (apply Z.log2_mul_pow2; lia).
    rewrite He. unfold round53. rewrite Hlog.
    replace (k + Z.log2 n - 52) with (sh + k) by (subst sh; lia).
    destruct (Z.ltb_spec 0 (sh + k)); [|lia].
    rewrite round_half_even_scale by lia.
    rewrite Z.pow_add_r by lia. lia.
Qed.

Lemma round53_nonneg n : 0 <= n -> 0 <= round53 n.
Proof.
  intros Hn. pose proof (round53_mono 0 n ltac:(lia)) as H.
  by rewrite (round53_small 0) in H.
Qed.

Lemma round_pos_unfold n s :
  -1074 <= s ->
  round_pos n s =
    let sh := Z.log2 n - 52 in
    let '(m, e) := if 0 <? sh then (round_half_even n sh, s + sh) else (n, s) in
    if (0 <? m) && (1024 <=? Z.log2 m + e) then Inf false else Finite m e.
Proof.
  intros Hs. unfold round_pos. cbv zeta.
  destruct (Z.ltb_spec 0 (Z.log2 n - 52)).
  - rewrite Z.max_l by lia. by destruct (Z.ltb_spec 0 (Z.log2 n - 52)); [|lia].
  - by destruct (Z.ltb_spec 0 (Z.max (Z.log2 n - 52) (-1074 - s))); [lia|].
Qed.

Lemma round_pos_zero s : exists e, round_pos 0 s = Finite 0 e.
Proof.
  unfold round_pos. simpl (Z.log2 0).
  destruct (0 <? Z.max (0 - 52) (-1074 - s)) eqn:Hsh; [|simpl; eauto].
  assert (round_half_even 0 (Z.max (0 - 52) (-1074 - s)) = 0) as ->; [|simpl; eauto].
  unfold round_half_even.
  rewrite Z.div_0_l, Z.mod_0_l by (apply Z.pow_nonzero; lia).
  apply Z.ltb_lt in Hsh.
  assert (0 < 2 ^ (Z.max (0 - 52) (-1074 - s) - 1))
    by (apply Z.pow_pos_nonneg; lia).
  by destruct (Z.ltb_spec 0 (2 ^ (Z.max (0 - 52) (-1074 - s) - 1))); [|lia].
Qed.

(** The result of [round_pos] on a dyadic above the subnormal range. *)
Lemma round_pos_finite n s m e :
  0 <= n -> -1074 <= s ->
  round_pos n s = Finite m e ->
  s <= e /\ m * 2 ^ (e - s) = round53 n.
Proof.
  intros Hn Hs. rewrite round_pos_unfold by done. unfold round53. cbv zeta.
  destruct (Z.ltb_spec 0 (Z.log2 n - 52)) as [Hsh|Hsh].
  - destruct (_ && _); [done|]. intros [= <- <-]. split; [lia|].
    do 2 f_equal. lia.
  - destruct (_ && _); [done|]. intros [= <- <-]. split; [lia|].
    rewrite Z.sub_diag. lia.
Qed.

Lemma round_pos_returns n s :
  0 <= n -> -1074 <= s -> Z.log2 n + s < 1023 ->
  exists m e, round_pos n s = Finite m e.
Proof.
  intros Hn Hs Hlog. rewrite round_pos_unfold by done. cbv zeta.
  destruct (Z.ltb_spec 0 (Z.log2 n - 52)) as [Hsh|Hsh].
  - assert (Hbig : 2 ^ 53 <= n).
    { apply Z.log2_le_pow2; [|lia]. destruct (Z.eq_dec n 0) as [->|]; [simpl in *|]; lia. }
    pose proof (round53_large n Hbig) as Hl. cbv zeta in Hl.
    destruct Hl as (_ & _ & _ & Hm).
    assert (Z.log2 (round_half_even n (Z.log2 n - 52)) <= 53).
    { change 53 with (Z.log2 (2 ^ 53)). apply Z.log2_le_mono. lia. }
    destruct (Z.leb_spec 1024 (Z.log2 (round_half_even n (Z.log2 n - 52))
                               + (s + (Z.log2 n - 52)))); [lia|].
    rewrite andb_false_r. eauto.
  - destruct (Z.leb_spec 1024 (Z.log2 n + s)); [lia|].
    rewrite andb_false_r. eauto.
Qed.

(** ** The operations on an int operand *)

Lemma float_of_int_small z :
  - 2 ^ 53 < z < 2 ^ 53 -> float_of_int z = Ok (Finite z 0).
Proof.
  intros Hz. unfold float_of_int, round_dyadic.
  assert (Hexact : forall n, 0 <= n < 2 ^ 53 -> round_pos n 0 = Finite n 0).
  { intros n Hn. rewrite round_pos_unfold by lia. cbv zeta.
    assert (Z.log2 n <= 52).
    { destruct (Z.eq_dec n 0) as [->|]; [done|].
      assert (Z.log2 n < 53) by (apply Z.log2_lt_pow2; lia). lia. }
    destruct (Z.ltb_spec 0 (Z.log2 n - 52)); [lia|].
    destruct (Z.leb_spec 1024 (Z.log2 n + 0)); [lia|].
    by rewrite andb_false_r. }
  destruct (Z.ltb_spec z 0).
  - rewrite Hexact by lia. simpl. by rewrite Z.opp_involutive.
  - by rewrite Hexact by lia.
Qed.

Lemma float_of_int_nonneg z f :
  0 <= z -> float_of_int z = Ok f ->
  exists m e, f = Finite m e /\ 0 <= e /\ 0 <= m /\ m * 2 ^ e = round53 z.
Proof.
  intros Hz. unfold float_of_int, round_dyadic.
  destruct (Z.ltb_spec z 0); [lia|].
  destruct (round_pos z 0) as [m e| |] eqn:Hr; [|done..].
  intros [= <-]. apply round_pos_finite in Hr as [He Hm]; [|lia..].
  rewrite Z.sub_0_r in Hm. exists m, e. repeat split; [lia| |done].
  pose proof (round53_nonneg z Hz).
  assert (0 < 2 ^ e) by (apply Z.pow_pos_nonneg; lia). nia.
Qed.

Lemma float_of_int_returns z :
  - 2 ^ 1023 < z < 2 ^ 1023 -> exists m e, float_of_int z = Ok (Finite m e).
Proof.
  intros Hz. unfold float_of_int, round_dyadic.
  assert (Hr : forall n, 0 <= n < 2 ^ 1023 -> exists m e, round_pos n 0 = Finite m e).
  { intros n Hn. apply round_pos_returns; [lia..|].
    destruct (Z.eq_dec n 0) as [->|]; [done|].
    assert (Z.log2 n < 1023) by (apply Z.log2_lt_pow2; lia). lia. }
  destruct (Z.ltb_spec z 0).
  - destruct (Hr (- z)) as (m & e & ->); [lia|]. simpl. eauto.
  - destruct (Hr z) as (m & e & ->); [lia|]. eauto.
Qed.

(** The product of a non-negative int and a non-negative float constant
    [cn * 2^ce]: finite or [+inf], and when finite the double nearest to
    the product of the converted int and the constant. *)
Lemma mul_int_float_nonneg z cn ce f :
  0 <= z -> 0 <= cn -> -1074 <= ce ->
  mul_int_float z (Finite cn ce) = Ok f ->
  f = Inf false
  \/ exists m e, f = Finite m e /\ ce <= e /\ 0 <= m
                 /\ m * 2 ^ (e - ce) = round53 (round53 z * cn).
Proof.
  intros Hz Hcn Hce. unfold mul_int_float.
  destruct (float_of_int z) as [f0| |] eqn:Hf; [|done..].
  apply float_of_int_nonneg in Hf as (m0 & e0 & -> & He0 & Hm0 & Hv0); [|done].
  cbn [mbind outcome_bind obind fmul]. intros [= <-].
  unfold round_dyadic. destruct (Z.ltb_spec (m0 * cn) 0); [nia|].
  destruct (round_pos (m0 * cn) (e0 + ce)) as [m e| |] eqn:Hr.
  - right. apply round_pos_finite in Hr as [He Hm]; [|nia|lia].
    exists m, e. split; [done|]. split; [lia|].
    assert (Hpow : 0 < 2 ^ (e - (e0 + ce))) by (apply Z.pow_pos_nonneg; lia).
    pose proof (round53_nonneg (m0 * cn) ltac:(nia)).
    split; [nia|].
    rewrite <- Hv0. replace (m0 * 2 ^ e0 * cn) with (m0 * cn * 2 ^ e0) by lia.
    rewrite round53_scale by nia. rewrite <- Hm.
    replace (e - ce) with (e - (e0 + ce) + e0) by lia.
    rewrite Z.pow_add_r by lia. lia.
  - left. revert Hr. rewrite round_pos_unfold by lia. cbv zeta.
    destruct (0 <? _); destruct (_ && _); by intros [= <-].
  - exfalso. revert Hr. rewrite round_pos_unfold by lia. cbv zeta.
    destruct (0 <? _); by destruct (_ && _).
Qed.

Lemma int_of_float_finite m e ce :
  0 <= m -> ce <= e -> ce <= 0 ->
  int_of_float (Finite m e) = Ok (m * 2 ^ (e - ce) / 2 ^ (- ce)).
Proof.
  intros Hm He Hce. unfold int_of_float. f_equal.
  destruct (Z.leb_spec 0 e).
  - replace (e - ce) with (e + - ce) by lia. rewrite Z.pow_add_r by lia.
    rewrite Z.mul_assoc, Z.div_mul; [done|].
    apply Z.pow_nonzero; lia.
  - rewrite Z.quot_div_nonneg;
      [|done | apply Z.pow_pos_nonneg; lia].
    replace (- ce) with (- e + (e - ce)) by lia.
    rewrite Z.pow_add_r by lia.
    rewrite Z.div_mul_cancel_r; [done | apply Z.pow_nonzero; lia..].
Qed.

(** [int(z * c)], when it returns *)
Lemma int_of_product_nonneg z cn ce g :
  0 <= z -> 0 <= cn -> -1074 <= ce <= 0 ->
  int_of_product z (Finite cn ce) = Ok g ->
  g = round53 (round53 z * cn) / 2 ^ (- ce).
Proof.
  intros Hz Hcn Hce. unfold int_of_product.
  destruct (mul_int_float z (Finite cn ce)) as [f| |] eqn:Hf; [|done..].
  apply mul_int_float_nonneg in Hf as [->|(m & e & -> & He & Hm & Hv)];
    [done | |lia..].
  cbn [mbind outcome_bind obind].
  rewrite (int_of_float_finite m e ce) by lia. rewrite Hv. by intros [= <-].
Qed.

(** Exact products: [int(z * c)] truncates the exact product when it has
    at most 53 significant bits. *)
Lemma int_of_product_exact z cn ce :
  - 2 ^ 53 < z < 2 ^ 53 -> - 2 ^ 53 < z * cn < 2 ^ 53 -> -1074 <= ce <= 0 ->
  int_of_product z (Finite cn ce) = Ok (Z.quot (z * cn) (2 ^ (- ce))).
Proof.
  intros Hz Hp Hce. unfold int_of_product, mul_int_float.
  rewrite float_of_int_small by done.
  cbn [mbind outcome_bind obind fmul]. rewrite Z.add_0_l.
  assert (Hexact : forall n, 0 <= n < 2 ^ 53 -> round_pos n ce = Finite n ce).
  { intros n Hn. rewrite round_pos_unfold by lia. cbv zeta.
    assert (Z.log2 n <= 52).
    { destruct (Z.eq_dec n 0) as [->|]; [done|].
      assert (Z.log2 n < 53) by (apply Z.log2_lt_pow2; lia). lia. }
    destruct (Z.ltb_spec 0 (Z.log2 n - 52)); [lia|].
    destruct (Z.leb_spec 1024 (Z.log2 n + ce)); [lia|].
    by rewrite andb_false_r. }
  assert (Hround : round_dyadic (z * cn) ce = Finite (z * cn) ce).
  { unfold round_dyadic. destruct (Z.ltb_spec (z * cn) 0).
    - rewrite Hexact by lia. simpl. by rewrite Z.opp_involutive.
    - by rewrite Hexact by lia. }
  rewrite Hround. unfold int_of_float. f_equal.
  destruct (Z.leb_spec 0 ce); [|done].
  assert (ce = 0) as -> by lia. simpl. by rewrite Z.quot_1_r, Z.mul_1_r.
Qed.

(** ** Products that truncate to the exact quotient *)

Lemma round53_exact n k : 0 <= n < 2 ^ 53 -> 0 <= k -> round53 (n * 2 ^ k) = n * 2 ^ k.
Proof. intros Hn Hk. rewrite round53_scale by lia. by rewrite round53_small. Qed.

(** A value between the integer [N] and [N + 7/8], in units of [2^-k],
    rounds to a double that truncates to [N]. *)
Lemma round53_between n k N :
  3 <= k -> 0 <= N -> 8 * N + 7 < 2 ^ 53 ->
  N * 2 ^ k <= n <= (8 * N + 7) * 2 ^ (k - 3) ->
  round53 n / 2 ^ k = N.
Proof.
  intros Hk HN Hbig Hn.
  assert (Hk3 : 2 ^ k = 8 * 2 ^ (k - 3)).
  { replace k with (3 + (k - 3)) at 1 by lia. by rewrite Z.pow_add_r by lia. }
  assert (Hp : 0 < 2 ^ (k - 3)) by (apply Z.pow_pos_nonneg; lia).
  pose proof (round53_mono (N * 2 ^ k) n ltac:(nia)) as Hlo.
  pose proof (round53_mono n ((8 * N + 7) * 2 ^ (k - 3)) ltac:(nia)) as Hhi.
  rewrite round53_exact in Hlo by lia.
  rewrite round53_exact in Hhi by lia.
  symmetry. apply Z.div_unique with (r := round53 n - N * 2 ^ k); [|lia].
  left. nia.
Qed.

(** [5u * 0.6], the double of 0.6 being just below 0.6: the product is
    [3u - u * 2^-53], and it rounds to [3u]. *)
Lemma round53_just_below u :
  0 <= u < 2 ^ 50 ->
  round53 (5 * u * 5404319552844595) = 3 * u * 2 ^ 53.
Proof.
  intros Hu. destruct (Z.eq_dec u 0) as [->|Hne]; [done|].
  set (n := 5 * u * 5404319552844595).
  assert (Hn : n = 3 * u * 2 ^ 53 - u) by (unfold n; lia).
  assert (Hbig : 2 ^ 53 <= n) by lia.
  pose proof (round53_large n Hbig) as Hl. cbv zeta in Hl.
  set (sh := Z.log2 n - 52) in *. destruct Hl as (Hsh & Hb & -> & _).
  assert (Hsh53 : sh <= 53).
  { assert (Z.log2 n < 106) by (apply Z.log2_lt_pow2; lia). lia. }
  destruct (pow2_split sh Hsh) as [HP Hh].
  assert (Hsplit : 2 ^ 53 = 2 ^ (53 - sh) * 2 ^ sh).
  { rewrite <- Z.pow_add_r by lia. f_equal. lia. }
  assert (Hb' : n < 2 ^ 53 * 2 ^ sh).
  { rewrite <- Z.pow_add_r by lia. lia. }
  rewrite (round_half_even_nearest n sh (3 * u * 2 ^ (53 - sh))); [nia | done |].
  assert (u < 2 ^ (sh - 1)) by nia.
  nia.
Qed.

Lemma round53_product_0_6 t :
  0 <= t < 2 ^ 49 ->
  round53 (round53 t * 5404319552844595) / 2 ^ 53 = 3 * t / 5.
Proof.
  intros Ht. rewrite (round53_small t) by lia.
  pose proof (Z.div_mod (3 * t) 5 ltac:(lia)) as Hdm.
  pose proof (Z.mod_pos_bound (3 * t) 5 ltac:(lia)) as Hr.
  set (N := 3 * t / 5) in *. set (r := (3 * t) mod 5) in *.
  destruct (Z.eq_dec r 0) as [Hr0|Hr0].
  - assert (t = 5 * (t / 5)) as Ht5.
    { pose proof (Z.div_mod t 5 ltac:(lia)).
      pose proof (Z.mod_pos_bound t 5 ltac:(lia)). lia. }
    set (u := t / 5) in *. rewrite Ht5.
    rewrite round53_just_below by lia.
    rewrite Z.div_mul by lia. lia.
  - apply round53_between; lia.
Qed.

Lemma round53_product_1_6 t :
  0 <= t < 2 ^ 49 ->
  round53 (round53 t * 7205759403792794) / 2 ^ 52 = 8 * t / 5.
Proof.
  intros Ht. rewrite (round53_small t) by lia.
  pose proof (Z.div_mod (8 * t) 5 ltac:(lia)) as Hdm.
  pose proof (Z.mod_pos_bound (8 * t) 5 ltac:(lia)) as Hr.
  apply round53_between; lia.
Qed.

(** ** When the operations return *)

Lemma round53_upper n : 0 < n -> round53 n <= 2 ^ (Z.log2 n + 1).
Proof.
  intros Hn. pose proof (Z.log2_spec n Hn) as Hs.
  replace (Z.succ (Z.log2 n)) with (Z.log2 n + 1) in Hs by lia.
  destruct (Z.lt_ge_cases n (2 ^ 53)).
  - rewrite round53_small by lia. lia.
  - pose proof (round53_large n ltac:(lia)) as Hl. cbv zeta in Hl.
    destruct Hl as (Hsh & Hb & -> & Hm).
    replace (Z.log2 n + 1) with (53 + (Z.log2 n - 52)) by lia.
    rewrite Z.pow_add_r by lia.
    assert (0 < 2 ^ (Z.log2 n - 52)) by (apply Z.pow_pos_nonneg; lia). nia.
Qed.

Lemma round53_pos n : 0 < n -> 0 < round53 n.
Proof.
  intros Hn. pose proof (round53_mono 1 n ltac:(lia)) as H.
  rewrite (round53_small 1) in H by lia. lia.
Qed.

Lemma int_of_product_returns z cn ce :
  0 <= z < 2 ^ 1020 -> 0 <= cn -> -1074 <= ce <= 0 -> Z.log2 cn + ce <= 0 ->
  exists g, int_of_product z (Finite cn ce) = Ok g.
Proof.
  intros Hz Hcn Hce Hc. unfold int_of_product, mul_int_float.
  destruct (float_of_int_returns z) as (m & e & Hf).
  { assert (2 ^ 1020 < 2 ^ 1023) by (apply Z.pow_lt_mono_r; lia). lia. }
  rewrite Hf. cbn [mbind outcome_bind obind fmul].
  destruct (Z.eq_dec z 0) as [->|Hz0].
  { rewrite float_of_int_small in Hf by lia. injection Hf as <- <-.
    rewrite Z.mul_0_l. unfold round_dyadic. simpl (0 <? 0).
    destruct (round_pos_returns 0 (0 + ce)) as (m & e & ->); [lia..|simpl; lia|].
    simpl. eauto. }
  apply float_of_int_nonneg in Hf as (m' & e' & [= <- <-] & He & Hm & Hv); [|lia].
  pose proof (round53_pos z ltac:(lia)) as Hpos.
  assert (Hm0 : 0 < m).
  { assert (0 < 2 ^ e) by (apply Z.pow_pos_nonneg; lia). nia. }
  assert (Hlog : Z.log2 m + e <= Z.log2 z + 1).
  { rewrite Z.add_comm, <- Z.log2_mul_pow2 by lia. rewrite Hv.
    etrans; [apply Z.log2_le_mono, round53_upper; lia|].
    rewrite Z.log2_pow2; [lia|]. pose proof (Z.log2_nonneg z). lia. }
  assert (Z.log2 z < 1020) by (apply Z.log2_lt_pow2; lia).
  unfold round_dyadic. destruct (Z.ltb_spec (m * cn) 0); [nia|].
  destruct (round_pos_returns (m * cn) (e + ce)) as (m1 & e1 & ->); [nia | lia | |].
  { pose proof (Z.log2_mul_above m cn ltac:(lia) ltac:(lia)). lia. }
  simpl. eauto.
Qed.

(** ** Negative operands *)

Lemma int_of_product_zero cn ce : int_of_product 0 (Finite cn ce) = Ok 0.
Proof.
  unfold int_of_product, mul_int_float.
  rewrite float_of_int_small by lia.
  cbn [mbind outcome_bind obind fmul]. rewrite Z.mul_0_l.
  unfold round_dyadic. simpl (0 <? 0).
  destruct (round_pos_zero (0 + ce)) as [e ->].
  unfold int_of_float. f_equal.
  destruct (Z.leb_spec 0 e); [lia|]. apply Z.quot_0_l, Z.pow_nonzero; lia.
Qed.

Lemma int_of_product_opp z cn ce :
  0 <= z -> 0 <= cn ->
  int_of_product (- z) (Finite cn ce)
  = (g ← int_of_product z (Finite cn ce); Ok (- g)).
Proof.
  intros Hz Hcn. destruct (Z.eq_dec z 0) as [->|Hz0].
  { change (- 0) with 0. by rewrite int_of_product_zero. }
  unfold int_of_product, mul_int_float, float_of_int, round_dyadic.
  destruct (Z.ltb_spec (- z) 0); [|lia]. destruct (Z.ltb_spec z 0); [lia|].
  rewrite Z.opp_involutive.
  destruct (round_pos z 0) as [m e| |] eqn:Hr; [|done..].
  apply round_pos_finite in Hr as [He Hm]; [|lia..].
  assert (0 <= m).
  { pose proof (round53_nonneg z Hz).
    assert (0 < 2 ^ (e - 0)) by (apply Z.pow_pos_nonneg; lia). nia. }
  cbn [fneg mbind outcome_bind obind fmul].
  assert (Hf : round_dyadic (- m * cn) (e + ce)
               = fneg (round_dyadic (m * cn) (e + ce))).
  { unfold round_dyadic. destruct (Z.ltb_spec (m * cn) 0); [nia|].
    destruct (Z.ltb_spec (- m * cn) 0).
    - by replace (- (- m * cn)) with (m * cn) by lia.
    - assert (m * cn = 0) as -> by nia. replace (- m * cn) with 0 by nia.
      by destruct (round_pos_zero (e + ce)) as [e0 ->]. }
  rewrite Hf. destruct (round_dyadic (m * cn) (e + ce)) as [m1 e1| |]; [|done..].
  cbn [fneg int_of_float mbind outcome_bind obind]. f_equal.
  destruct (Z.leb_spec 0 e1); [lia|].
  by rewrite Z.quot_opp_l by (apply Z.pow_nonzero; lia).
Qed.

(** The rounding and the product agree with the binary64 arithmetic of
    the standard library on the sample operands. *)
Example binary64_operations_agree :
  forallb (fun z => forallb (Binary64.agree_round z) Binary64.exponents
                    && forallb (Binary64.agree_mul z) Binary64.literals)
    (Binary64.operands ++ Binary64.drawn_operands) = true.
Proof. vm_compute. reflexivity. Qed.

(** The two literals that are not dyadic are the doubles nearest to the
    decimals: a 53-bit significand less than half a unit in the last place
    away from 0.6 and from 1.6. *)
Example float_literals_nearest :
  float_0_6 = Finite 5404319552844595 (-53)
  /\ 2 ^ 52 <= 5404319552844595 < 2 ^ 53
  /\ 2 * Z.abs (10 * 5404319552844595 - 6 * 2 ^ 53) < 10
  /\ float_1_6 = Finite 7205759403792794 (-52)
  /\ 2 ^ 52 <= 7205759403792794 < 2 ^ 53
  /\ 2 * Z.abs (10 * 7205759403792794 - 16 * 2 ^ 52) < 10.
Proof. repeat split; reflexivity || lia. Qed.

(** ** The length policy *)

(** The four products of [derive_cut_parameters] for a target below
    [2^49]: the double product truncates to the exact quotient. *)
Lemma int_of_product_0_75 t :
  0 <= t < 2 ^ 49 -> int_of_product t float_0_75 = Ok (3 * t / 4).
Proof.
  intros Ht. unfold float_0_75. rewrite int_of_product_exact by lia.
  rewrite Z.quot_div_nonneg by lia. do 2 f_equal. lia.
Qed.

Lemma int_of_product_1_25 t :
  0 <= t < 2 ^ 49 -> int_of_product t float_1_25 = Ok (5 * t / 4).
Proof.
  intros Ht. unfold float_1_25. rewrite int_of_product_exact by lia.
  rewrite Z.quot_div_nonneg by lia. do 2 f_equal. lia.
Qed.

Lemma int_of_product_0_6 t :
  0 <= t < 2 ^ 49 -> int_of_product t float_0_6 = Ok (3 * t / 5).
Proof.
  intros Ht. unfold float_0_6.
  destruct (int_of_product_returns t 5404319552844595 (-53)) as [g Hg];
    [lia | lia | lia | done |].
  rewrite Hg. apply int_of_product_nonneg in Hg; [|lia..].
  rewrite Hg. f_equal. by apply round53_product_0_6.
Qed.

Lemma int_of_product_1_6 t :
  0 <= t < 2 ^ 49 -> int_of_product t float_1_6 = Ok (8 * t / 5).
Proof.
  intros Ht. unfold float_1_6.
  destruct (int_of_product_returns t 7205759403792794 (-52)) as [g Hg];
    [lia | lia | lia | done |].
  rewrite Hg. apply int_of_product_nonneg in Hg; [|lia..].
  rewrite Hg. f_equal. by apply round53_product_1_6.
Qed.

(** C8, as stated, fails below the floor the code puts under the target:
    for a target of 40 the code answers from 80. *)
Lemma derive_cut_parameters_ignores_small_target :
  derive_cut_parameters 40 = Ok (48, 128, 60, 100)
  /\ ratio_policy 40 = (40, 90, 50, 80)
  /\ ~ (forall target, derive_cut_parameters target = Ok (ratio_policy target)).
Proof.
  split; [vm_compute; reflexivity|]. split; [reflexivity|].
  intros H. specialize (H 40). vm_compute in H. discriminate.
Qed.

(** The products are taken in double precision: at the target
    845950362783103 the product by 1.6 rounds up across an integer, and a
    target that has no finite double raises [OverflowError]. *)
Example derive_cut_parameters_rounds_large_target :
  derive_cut_parameters 845950362783103
    = Ok (507570217669861, 1353520580452965, 634462772087327, 1057437953478878)
  /\ ratio_policy 845950362783103
     = (507570217669861, 1353520580452964, 634462772087327, 1057437953478878)
  /\ derive_cut_parameters (2 ^ 1024) = Raise OverflowError.
Proof. repeat split; vm_compute; reflexivity. Qed.

(** C8 (amended): for every integer target below [2^49] the four bounds
    are those of the ratio policy taken at [max 80 target]; the result is
    ordered (hard-min, hard-max, ideal-min, ideal-max). *)
Theorem derive_cut_parameters_policy (target : Z) :
  target < 2 ^ 49 ->
  derive_cut_parameters target = Ok (ratio_policy (Z.max 80 target)).
Proof.
  intros Ht. unfold derive_cut_parameters, ratio_policy.
  set (t := Z.max 80 target).
  assert (Hrange : 0 <= t < 2 ^ 49) by (unfold t; lia).
  rewrite int_of_product_0_75, int_of_product_1_25, int_of_product_0_6,
    int_of_product_1_6 by done.
  reflexivity.
Qed.

Lemma derive_cut_parameters_policy_witness :
  150 < 2 ^ 49 /\ derive_cut_parameters 150 = Ok (90, 240, 112, 187).
Proof.
  split; [lia | apply (derive_cut_parameters_policy 150); lia].
Defined.

(** [derive_cut_parameters] returns for every target below [2^1020], and
    whenever it returns the hard bounds are at least 40 and 90. *)
Lemma derive_cut_parameters_returns target :
  target < 2 ^ 1020 -> exists params, derive_cut_parameters target = Ok params.
Proof.
  intros Ht. unfold derive_cut_parameters.
  set (t := Z.max 80 target).
  assert (Hrange : 0 <= t < 2 ^ 1020).
  { assert (2 ^ 7 < 2 ^ 1020) by (apply Z.pow_lt_mono_r; lia). unfold t. lia. }
  destruct (int_of_product_returns t 3 (-2)) as [a Ha]; [done | lia | lia | done |].
  destruct (int_of_product_returns t 5 (-2)) as [b Hb]; [done | lia | lia | done |].
  destruct (int_of_product_returns t 5404319552844595 (-53)) as [c Hc];
    [done | lia | lia | done |].
  destruct (int_of_product_returns t 7205759403792794 (-52)) as [d Hd];
    [done | lia | lia | done |].
  unfold float_0_75, float_1_25, float_0_6, float_1_6.
  rewrite Ha, Hb, Hc, Hd. simpl. eauto.
Qed.

Lemma derive_cut_parameters_bounds target cut_min cut_max tmin tmax :
  derive_cut_parameters target = Ok (cut_min, cut_max, tmin, tmax) ->
  40 <= cut_min /\ cut_min + 50 <= cut_max.
Proof.
  unfold derive_cut_parameters.
  destruct (int_of_product _ float_0_75) as [a| |]; [|done..].
  destruct (int_of_product _ float_1_25) as [b| |]; [|done..].
  destruct (int_of_product _ float_0_6) as [c| |]; [|done..].
  destruct (int_of_product _ float_1_6) as [d| |]; [|done..].
  cbn [mbind outcome_bind obind]. intros [= <- <- <- <-]. lia.
Qed.

(** ** The offset reconciler *)

(** The threshold [chunk_size * 1.5] while [3 * chunk_size] has at most 53
    bits: the product is exact. *)
Lemma mul_int_float_1_5 S :
  0 <= S -> 3 * S < 2 ^ 53 ->
  mul_int_float S float_1_5 = Ok (Finite (3 * S) (-1)).
Proof.
  intros HS Hb. unfold mul_int_float, float_1_5.
  rewrite float_of_int_small by lia.
  cbn [mbind outcome_bind obind fmul]. f_equal.
  unfold round_dyadic. destruct (Z.ltb_spec (S * 3) 0); [lia|].
  rewrite round_pos_unfold by lia. cbv zeta.
  assert (Z.log2 (S * 3) <= 52).
  { destruct (Z.eq_dec S 0) as [->|]; [done|].
    assert (Z.log2 (S * 3) < 53) by (apply Z.log2_lt_pow2; lia). lia. }
  destruct (Z.ltb_spec 0 (Z.log2 (S * 3) - 52)); [lia|].
  destruct (Z.leb_spec 1024 (Z.log2 (S * 3) + (0 + -1))); [lia|].
  rewrite andb_false_r. f_equal. lia.
Qed.

(** C4, as stated, fails for a large window: the threshold is the double
    nearest to [1.5 * S], and at [S = 3002399751580333] it is
    [4503599627370500], half a unit above [1.5 * S]; the report
    [4503599627370500] is above [1.5 * S] and is still shifted by the
    window start. *)
Lemma detect_global_span_rounds_threshold :
  3 * 3002399751580333 < 2 * 4503599627370500
  /\ _detect_global_span 4503599627370500 1000 (1000 + 3002399751580333)
       3002399751580333
     = Ok (1000 + 4503599627370500)
  /\ ~ (forall v chunk_start chunk_end S,
          0 <= S -> 3 * S < 2 * v ->
          _detect_global_span v chunk_start chunk_end S = Ok v).
Proof.
  split; [lia|]. split; [vm_compute; reflexivity|].
  intros H.
  specialize (H 4503599627370500 1000 (1000 + 3002399751580333)
                3002399751580333 ltac:(lia) ltac:(lia)).
  vm_compute in H. discriminate.
Qed.

(** C4 (amended): in a window of size [S >= 0] with [3 * S < 2^53], a
    negative report maps to the window start, a report above [1.5 * S] is
    returned as it is, a report in [0, S] is shifted by the window start;
    and the report [{start: -1, end: 40}] in the window [1000, 1300)
    becomes [{1000, 1040}]. *)
Theorem detect_global_span_policy (v chunk_start chunk_end S : Z) :
  0 <= S -> 3 * S < 2 ^ 53 ->
  (v < 0 -> _detect_global_span v chunk_start chunk_end S = Ok chunk_start)
  /\ (3 * S < 2 * v -> _detect_global_span v chunk_start chunk_end S = Ok v)
  /\ (0 <= v <= S ->
      _detect_global_span v chunk_start chunk_end S = Ok (chunk_start + v))
  /\ (forall text_len,
        reconcile_span (-1) 40 1000 1300 300 text_len = Ok (1000, 1040)).
Proof.
  intros HS Hb. unfold _detect_global_span.
  rewrite mul_int_float_1_5 by done.
  cbn [mbind outcome_bind obind int_gt_float]. simpl (0 <=? -1).
  change (2 ^ (- -1)) with 2.
  repeat split.
  - intros Hv. destruct (Z.ltb_spec v 0); [reflexivity | lia].
  - intros Hv. destruct (Z.ltb_spec v 0); [lia |].
    destruct (Z.ltb_spec (3 * S) (v * 2)); [reflexivity | lia].
  - intros Hv. destruct (Z.ltb_spec v 0); [lia |].
    destruct (Z.ltb_spec (3 * S) (v * 2)); [lia | reflexivity].
Qed.

Lemma detect_global_span_policy_witness :
  0 <= 300 /\ 3 * 300 < 2 ^ 53
  /\ _detect_global_span (-1) 1000 1300 300 = Ok 1000
  /\ _detect_global_span 5000 1000 1300 300 = Ok 5000
  /\ _detect_global_span 40 1000 1300 300 = Ok 1040.
Proof.
  split; [lia|]. split; [lia|].
  split; [apply (detect_global_span_policy (-1) 1000 1300 300); lia|].
  split; [apply (detect_global_span_policy 5000 1000 1300 300); lia|].
  apply (detect_global_span_policy 40 1000 1300 300); lia.
Defined.

(** Whatever the size of the window, a report in [0, S] is never above the
    threshold: the double nearest to [1.5 * S] is not below [S]. *)
Lemma detect_global_span_local v chunk_start chunk_end S r :
  0 <= v <= S ->
  _detect_global_span v chunk_start chunk_end S = Ok r -> r = chunk_start + v.
Proof.
  intros Hv. unfold _detect_global_span.
  destruct (Z.ltb_spec v 0); [lia|].
  destruct (mul_int_float S float_1_5) as [f| |] eqn:Hf; [|done..].
  cbn [mbind outcome_bind obind].
  assert (Hle : int_gt_float v f = false).
  { apply mul_int_float_nonneg in Hf as [->|(m & e & -> & He & Hm & Hval)];
      [done | |lia..].
    pose proof (round53_error S ltac:(lia)) as HA.
    pose proof (round53_nonneg S ltac:(lia)) as HA0.
    pose proof (round53_error (round53 S * 3) ltac:(lia)) as HR.
    assert (HRS : 2 * S <= round53 (round53 S * 3)) by lia.
    unfold int_gt_float.
    destruct (Z.leb_spec 0 e).
    - replace (e - -1) with (e + 1) in Hval by lia.
      rewrite Z.pow_add_r in Hval by lia. change (2 ^ 1) with 2 in Hval.
      apply Z.ltb_ge. lia.
    - assert (e = -1) as -> by lia. change (2 ^ (- -1)) with 2.
      change (-1 - -1) with 0 in Hval. change (2 ^ 0) with 1 in Hval.
      apply Z.ltb_ge. lia. }
  rewrite Hle. by intros [= <-].
Qed.

(** The detection returns unless the size of the window has no finite
    double. *)
Lemma detect_global_span_returns v chunk_start chunk_end S :
  - 2 ^ 1023 < S < 2 ^ 1023 ->
  exists r, _detect_global_span v chunk_start chunk_end S = Ok r.
Proof.
  intros HS. unfold _detect_global_span, mul_int_float.
  destruct (v <? 0); [eauto|].
  destruct (float_of_int_returns S HS) as (m & e & ->).
  cbn [mbind outcome_bind obind]. destruct (int_gt_float _ _); eauto.
Qed.


(** ** Slices, [rfind] and [strip] *)

Lemma len_nonneg {A} (s : list A) : 0 <= len s.
Proof. unfold len. lia. Qed.

Lemma len_app {A} (s t : list A) : len (s ++ t) = len s + len t.
Proof. unfold len. rewrite length_app. lia. Qed.

Lemma len_cons {A} (c : A) (s : list A) : len (c :: s) = 1 + len s.
Proof. unfold len. simpl. lia. Qed.

Lemma slice_inside {A} (s : list A) (a b : Z) :
  0 <= a -> a <= b -> b <= len s ->
  slice s a b = take (Z.to_nat (b - a)) (drop (Z.to_nat a) s).
Proof.
  intros Ha Hab Hb. unfold slice, clamp_index.
  destruct (Z.ltb_spec a 0); [lia|]. destruct (Z.ltb_spec b 0); [lia|].
  rewrite !Z.min_l by lia. reflexivity.
Qed.

Lemma len_slice {A} (s : list A) (a b : Z) :
  0 <= a -> a <= b -> b <= len s -> len (slice s a b) = b - a.
Proof.
  intros Ha Hab Hb. rewrite slice_inside by lia. unfold len in *.
  rewrite length_take, length_drop. lia.
Qed.

Lemma startswith_length p s :
  startswith p s = true -> (length p <= length s)%nat.
Proof.
  revert s. induction p as [|a p IH]; intros [|b s] H; simpl in *;
    try lia; try discriminate.
  apply andb_true_iff in H as [_ H]. apply IH in H. lia.
Qed.

Lemma rfind_from_bounds sub s i :
  0 <= i ->
  rfind_from sub s i = -1
  \/ (i <= rfind_from sub s i <= i + len s - len sub).
Proof.
  revert i. induction s as [|c s IH]; intros i Hi; simpl.
  - destruct sub; simpl; [right; unfold len; simpl; lia | left; reflexivity].
  - destruct (IH (i + 1)) as [Hr | Hr]; [lia | |].
    + rewrite Hr. simpl.
      destruct (startswith sub (c :: s)) eqn:Hp; [|left; reflexivity].
      right. apply startswith_length in Hp. unfold len. simpl in *. lia.
    + destruct (Z.leb_spec 0 (rfind_from sub s (i + 1))); [|lia].
      right. rewrite len_cons. lia.
Qed.

Lemma rfind_bounds s sub :
  -1 <= rfind s sub <= len s - len sub \/ rfind s sub = -1.
Proof.
  unfold rfind. destruct (rfind_from_bounds sub s 0) as [H|H]; [lia| |]; lia.
Qed.

Lemma rfind_lt_len s sub :
  sub <> [] -> -1 <= rfind s sub /\ rfind s sub < len s.
Proof.
  intros Hsub. assert (0 < len sub) by (destruct sub; [done | rewrite len_cons; pose proof (len_nonneg sub); lia]).
  pose proof (len_nonneg s).
  destruct (rfind_bounds s sub); lia.
Qed.

Lemma list_max_bound (P : Z -> Prop) cs c :
  P c -> Forall P cs -> P (list_max cs c).
Proof.
  intros Hc Hcs. induction Hcs as [|x cs Hx _ IH]; simpl; [done|].
  destruct (Z.max_spec x (list_max cs c)) as [[_ ->] | [_ ->]]; done.
Qed.

Lemma Forall_filter_keep {A} (P Q : A -> Prop) `{!forall x, Decision (Q x)}
    (l : list A) :
  Forall P l -> Forall P (filter Q l).
Proof.
  rewrite !Forall_forall. intros HP x Hx.
  apply list_elem_of_filter in Hx as [_ Hx]. auto.
Qed.

(** ** The fallback splitter *)

(** Where one iteration of the loop splits: strictly after the cursor, at
    or before [tentative_end]. *)
Lemma fallback_body_progress normalized cut_min cut_max cursor spans :
  1 <= cut_max -> 0 <= cursor < len normalized ->
  cursor < (fallback_body normalized cut_min cut_max cursor spans).1
         <= Z.min (cursor + cut_max) (len normalized).
Proof.
  intros Hmax Hc. unfold fallback_body.
  set (te := Z.min (cursor + cut_max) (len normalized)).
  assert (Hte : cursor < te <= len normalized) by (unfold te; lia).
  cbv zeta. simpl fst.
  match goal with |- context [if cursor <? ?sp then _ else _] => set (sp' := sp) end.
  assert (Hsp : sp' <= te).
  { unfold sp'. destruct (Z.ltb_spec te (len normalized)); [|lia].
    set (w := slice normalized cursor te).
    assert (Hw : len w = te - cursor) by (apply len_slice; lia).
    assert (Hall : Forall (fun c => c < len w)
              (filter (fun c => cut_min - 1 <= c)
                 [rfind w [LF; LF]; rfind w [IDEOGRAPHIC_FULL_STOP];
                  rfind w [IDEOGRAPHIC_COMMA]])).
    { apply Forall_filter_keep. repeat constructor; apply rfind_lt_len; done. }
    destruct (filter _ _) as [|c cs]; [lia|].
    inversion Hall as [|? ? Hc0 Hcs]; subst.
    pose proof (list_max_bound (fun c => c < len w) cs c Hc0 Hcs) as Hm.
    simpl in Hm. lia. }
  destruct (Z.ltb_spec cursor sp'); lia.
Qed.

Lemma fallback_loop_terminates fuel normalized cut_min cut_max cursor spans :
  1 <= cut_max -> 0 <= cursor ->
  (Z.to_nat (len normalized - cursor) <= fuel)%nat ->
  exists out, fallback_loop fuel normalized cut_min cut_max cursor spans = Ok out.
Proof.
  intros Hmax. revert cursor spans.
  induction fuel as [|fuel IH]; intros cursor spans Hc Hfuel;
    cbn [fallback_loop].
  - destruct (Z.ltb_spec cursor (len normalized)); [lia | eauto].
  - destruct (Z.ltb_spec cursor (len normalized)); [|eauto].
    pose proof (fallback_body_progress normalized cut_min cut_max cursor spans
                  Hmax ltac:(lia)) as Hp.
    destruct (fallback_body _ _ _ _ _) as [c' s']. simpl in Hp.
    apply IH; lia.
Qed.

Lemma split_fallback_chunk_returns text cut_min cut_max :
  1 <= cut_max ->
  exists spans, _split_fallback_chunk text cut_min cut_max = Ok spans.
Proof.
  intros Hmax. unfold _split_fallback_chunk.
  apply fallback_loop_terminates; [done | lia |]. unfold len. lia.
Qed.

(** C10: with [cut_max >= 1] every iteration of the loop moves the cursor
    strictly forward and never past the length of the text, and the call
    returns. *)
Theorem split_fallback_chunk_terminates (text : str) (cut_min cut_max : Z) :
  1 <= cut_max ->
  (forall cursor spans,
      0 <= cursor < len (normalize_newlines text) ->
      let next := (fallback_body (normalize_newlines text)
                     cut_min cut_max cursor spans).1 in
      cursor < next <= len (normalize_newlines text))
  /\ exists spans, _split_fallback_chunk text cut_min cut_max = Ok spans.
Proof.
  intros Hmax. split.
  - intros cursor spans Hc next. subst next.
    pose proof (fallback_body_progress _ cut_min cut_max cursor spans Hmax Hc).
    lia.
  - by apply split_fallback_chunk_returns.
Qed.

(** ** Windowing *)

Lemma startswith_spec p s :
  startswith p s = true <-> exists post, s = p ++ post.
Proof.
  revert s. induction p as [|a p IH]; intros s; simpl.
  - split; [eauto | done].
  - destruct s as [|b s]; [split; [done | intros [? ?]; done]|].
    rewrite andb_true_iff, N.eqb_eq, IH. split.
    + intros [-> [post ->]]. eauto.
    + intros [post Hp]. simplify_eq. eauto.
Qed.

Lemma occurs_at_nonneg sub s j : occurs_at sub s j -> 0 <= j.
Proof. intros (pre & post & _ & <-). apply len_nonneg. Qed.

Lemma occurs_at_zero sub s : occurs_at sub s 0 <-> startswith sub s = true.
Proof.
  rewrite startswith_spec. split.
  - intros (pre & post & -> & Hl). destruct pre; [eauto|].
    rewrite len_cons in Hl. pose proof (len_nonneg pre). lia.
  - intros [post ->]. exists [], post. done.
Qed.

Lemma occurs_at_cons sub c s j :
  0 < j -> occurs_at sub (c :: s) j <-> occurs_at sub s (j - 1).
Proof.
  intros Hj. split.
  - intros (pre & post & Hs & Hl). destruct pre as [|c' pre].
    { unfold len in Hl. simpl in Hl. lia. }
    simpl in Hs. simplify_eq. exists pre, post. split; [done|].
    rewrite len_cons. lia.
  - intros (pre & post & -> & Hl). exists (c :: pre), post. split; [done|].
    rewrite len_cons. lia.
Qed.

Lemma rfind_from_spec sub s i :
  0 <= i ->
  (rfind_from sub s i = -1 /\ forall j, ~ occurs_at sub s j)
  \/ (i <= rfind_from sub s i
      /\ last_occurrence sub s (rfind_from sub s i - i)).
Proof.
  revert i. induction s as [|c s IH]; intros i Hi; simpl.
  - destruct sub as [|a sub]; simpl.
    + right. split; [lia|]. split.
      * exists [], []. split; [done|]. unfold len. simpl. lia.
      * intros j Hj (pre & post & Hs & Hl). destruct pre; [|done].
        unfold len in Hl. simpl in Hl. lia.
    + left. split; [done|]. intros j (pre & post & Hs & _).
      destruct pre; done.
  - destruct (IH (i + 1)) as [[Hr Hno] | [Hr [Hocc Hlast]]]; [lia | |].
    + rewrite Hr. simpl.
      destruct (startswith sub (c :: s)) eqn:Hp.
      * right. split; [lia|]. replace (i - i) with 0 by lia. split.
        -- by apply occurs_at_zero.
        -- intros j Hj Hocc. apply occurs_at_cons in Hocc; [|lia].
           by apply Hno in Hocc.
      * left. split; [done|]. intros j Hocc.
        pose proof (occurs_at_nonneg _ _ _ Hocc).
        destruct (decide (j = 0)) as [->|].
        -- apply occurs_at_zero in Hocc. congruence.
        -- apply occurs_at_cons in Hocc; [|lia]. by apply Hno in Hocc.
    + destruct (Z.leb_spec 0 (rfind_from sub s (i + 1))); [|lia].
      right. split; [lia|]. split.
      * apply occurs_at_cons; [lia|].
        by replace (rfind_from sub s (i + 1) - i - 1)
          with (rfind_from sub s (i + 1) - (i + 1)) by lia.
      * intros j Hj Hocc'. apply occurs_at_cons in Hocc'; [|lia].
        apply (Hlast (j - 1)); [lia | done].
Qed.

(** [rfind] returns the offset of the last occurrence, or [-1] when the
    substring does not occur. *)
Lemma rfind_spec s sub :
  (rfind s sub = -1 /\ forall j, ~ occurs_at sub s j)
  \/ (0 <= rfind s sub /\ last_occurrence sub s (rfind s sub)).
Proof.
  unfold rfind. destruct (rfind_from_spec sub s 0) as [H | [H1 H2]]; [lia | by left |].
  right. split; [done|]. by rewrite Z.sub_0_r in H2.
Qed.

(** The threshold [int(window * 0.5)]: half the size, rounded toward zero,
    for a size that is a double itself; at least 1 for every size from 2
    on; and a value whenever the size is below [2^1020] in magnitude. *)
Lemma half_window_small window :
  - 2 ^ 53 < window < 2 ^ 53 ->
  int_of_product window float_0_5 = Ok (Z.quot window 2).
Proof.
  intros Hw. unfold float_0_5. rewrite int_of_product_exact by lia.
  by rewrite Z.mul_1_r.
Qed.

Lemma half_window_pos window threshold :
  0 < window ->
  int_of_product window float_0_5 = Ok threshold ->
  0 <= threshold /\ (2 <= window -> 1 <= threshold).
Proof.
  intros Hw Ht. apply int_of_product_nonneg in Ht; [|lia..].
  rewrite Z.mul_1_r in Ht. change (2 ^ (- -1)) with 2 in Ht. subst threshold.
  split.
  - apply Z.div_pos; [|lia]. apply round53_nonneg, round53_nonneg. lia.
  - intros H2.
    pose proof (round53_mono 2 window ltac:(lia)) as H1.
    rewrite (round53_small 2) in H1 by lia.
    pose proof (round53_mono 2 (round53 window) ltac:(lia)) as H3.
    rewrite (round53_small 2) in H3 by lia.
    apply Z.div_le_lower_bound; lia.
Qed.

Lemma half_window_returns window :
  - 2 ^ 1020 < window < 2 ^ 1020 ->
  exists threshold, int_of_product window float_0_5 = Ok threshold.
Proof.
  intros Hw. unfold float_0_5. destruct (Z.le_gt_cases 0 window).
  - apply int_of_product_returns; [lia | lia | lia | done].
  - replace window with (- - window) by lia.
    rewrite int_of_product_opp by lia.
    destruct (int_of_product_returns (- window) 1 (-1)) as [g ->];
      [lia | lia | lia | done |].
    simpl. eauto.
Qed.

(** One iteration of the loop, when it raises nothing. *)
Lemma chunk_body_inv t window overlap i cuts cuts' next :
  chunk_body t window overlap i cuts = Ok (cuts', next) ->
  exists threshold,
    int_of_product window float_0_5 = Ok threshold
    /\ let proposed := Z.min (i + window) (len t) in
       let brk := rfind (slice t i proposed) [LF; LF] in
       let e := if threshold <=? brk then i + brk else proposed in
       cuts' = cuts ++ [Chunk i e]
       /\ next = if len t <=? e then None
                 else Some (Z.max (i + 1) (e - overlap)).
Proof.
  unfold chunk_body. cbv zeta.
  destruct (int_of_product window float_0_5) as [threshold| |]; [|done..].
  cbn [mbind outcome_bind obind]. intros Hb. exists threshold. split; [done|].
  destruct (len t <=? _); by injection Hb as <- <-.
Qed.

Lemma chunk_body_returns t window overlap i cuts threshold :
  int_of_product window float_0_5 = Ok threshold ->
  exists cuts' next, chunk_body t window overlap i cuts = Ok (cuts', next).
Proof.
  intros Ht. unfold chunk_body. cbv zeta. rewrite Ht.
  cbn [mbind outcome_bind obind]. destruct (len t <=? _); eauto.
Qed.

Lemma chunk_body_snapped t window overlap i cuts cuts' next :
  0 < window < 2 ^ 53 ->
  chunk_body t window overlap i cuts = Ok (cuts', next) ->
  exists c, cuts' = cuts ++ [c]
            /\ chunk_start c = i /\ snapped_end t window c.
Proof.
  intros Hw Hb.
  apply chunk_body_inv in Hb as (threshold & Ht & Hcuts & _).
  rewrite half_window_small in Ht by lia. injection Ht as <-.
  cbv zeta in Hcuts.
  set (proposed := Z.min (i + window) (len t)) in *.
  set (w := slice t i proposed) in *.
  set (e := if Z.quot window 2 <=? rfind w [LF; LF] then _ else _) in *.
  exists (Chunk i e). split; [done|]. split; [done|].
  unfold snapped_end. simpl. fold proposed. fold w. subst e.
  assert (0 <= Z.quot window 2) by (apply Z.quot_pos; lia).
  destruct (rfind_spec w [LF; LF]) as [[Hr Hno] | [Hr Hlast]].
  - destruct (Z.leb_spec (Z.quot window 2) (rfind w [LF; LF])); [lia|].
    right. split; [|done]. intros j Hj. by apply Hno in Hj.
  - destruct (Z.leb_spec (Z.quot window 2) (rfind w [LF; LF])).
    + left. eauto.
    + right. split; [|done]. intros j Hj.
      destruct Hlast as [_ Hlast].
      destruct (Z.lt_ge_cases (rfind w [LF; LF]) j) as [Hlt|Hge]; [|lia].
      by apply Hlast in Hlt.
Qed.

Lemma chunk_loop_snapped fuel t window overlap i cuts :
  0 < window < 2 ^ 53 ->
  Forall (snapped_end t window) cuts ->
  forall out, chunk_loop fuel t window overlap i cuts = Ok out ->
  Forall (snapped_end t window) out.
Proof.
  intros Hw. revert i cuts.
  induction fuel as [|fuel IH]; intros i cuts Hcuts out; cbn [chunk_loop].
  - destruct (i <? len t); [done|]. by intros [= <-].
  - destruct (i <? len t); [|by intros [= <-]].
    destruct (chunk_body t window overlap i cuts) as [[cuts' next]| |] eqn:Hb;
      [|done..].
    destruct (chunk_body_snapped _ _ _ _ _ _ _ Hw Hb) as (c & -> & _ & Hsnap).
    cbn [mbind outcome_bind obind]. destruct next as [next|].
    + apply IH. apply Forall_app. split; [done|]. by constructor.
    + intros [= <-]. apply Forall_app. split; [done|]. by constructor.
Qed.

Lemma chunk_body_next t window overlap i cuts cuts' next :
  chunk_body t window overlap i cuts = Ok (cuts', Some next) -> i + 1 <= next.
Proof.
  intros Hb. apply chunk_body_inv in Hb as (threshold & _ & _ & Hn).
  cbv zeta in Hn. destruct (len t <=? _); [done|]. injection Hn as ->. lia.
Qed.

Lemma chunk_loop_terminates fuel t window overlap i cuts threshold :
  int_of_product window float_0_5 = Ok threshold ->
  (Z.to_nat (len t - i) <= fuel)%nat ->
  exists out, chunk_loop fuel t window overlap i cuts = Ok out.
Proof.
  intros Ht. revert i cuts. induction fuel as [|fuel IH]; intros i cuts Hfuel;
    cbn [chunk_loop].
  - destruct (Z.ltb_spec i (len t)); [lia | eauto].
  - destruct (Z.ltb_spec i (len t)); [|eauto].
    destruct (chunk_body_returns t window overlap i cuts threshold Ht)
      as (cuts' & next & Hb).
    rewrite Hb. cbn [mbind outcome_bind obind].
    destruct next as [next|]; [|eauto].
    apply chunk_body_next in Hb. apply IH. lia.
Qed.

(** [chunk_for_llm] returns for every text and overlap, and every size
    below [2^1020] in magnitude. *)
Lemma chunk_for_llm_returns text window overlap :
  - 2 ^ 1020 < window < 2 ^ 1020 ->
  exists chunks, chunk_for_llm text window overlap = Ok chunks.
Proof.
  intros Hw. destruct (half_window_returns window Hw) as [threshold Ht].
  unfold chunk_for_llm. eapply chunk_loop_terminates; [exact Ht|].
  unfold len. lia.
Qed.

(** A size that has no finite double: the first iteration raises. *)
Example chunk_for_llm_raises_on_huge_window :
  chunk_for_llm (lit "a") (10 ^ 400) 0 = Raise OverflowError
  /\ chunk_for_llm [] (10 ^ 400) 0 = Ok [].
Proof. split; vm_compute; reflexivity. Qed.

(** C6, as stated, fails: the text "abc\n\nd" with a window of 6 has its
    first and only proposed end at the end of the text, and the code still
    snaps it back to the paragraph break at offset 3. *)
Lemma chunk_for_llm_snaps_final_window :
  chunk_for_llm Sample.paragraph_text 6 1
    = Ok [Chunk 0 3; Chunk 2 6]
  /\ ~ final_window_keeps_full_end Sample.paragraph_text 6 1.
Proof.
  split; [reflexivity|]. intros H.
  specialize (H [Chunk 0 3; Chunk 2 6] (Chunk 0 3) eq_refl).
  assert (Hin : Chunk 0 3 ∈ [Chunk 0 3; Chunk 2 6]) by (left).
  specialize (H Hin eq_refl). discriminate H.
Qed.

(** C6 (amended): for a positive window size below [2^53], every window
    of [chunk_for_llm], the one whose proposed end is the end of the text
    included, ends at the last paragraph break of
    [t[start : min(start + size, len t)]] when that break lies at or after
    [size / 2] (rounded down), and at the proposed end otherwise. *)
Theorem chunk_for_llm_snap_every_window (text : str) (window overlap : Z) :
  0 < window -> window < 2 ^ 53 ->
  exists chunks,
    chunk_for_llm text window overlap = Ok chunks
    /\ Forall (snapped_end (normalize_newlines text) window) chunks.
Proof.
  intros Hw Hb.
  destruct (chunk_for_llm_returns text window overlap) as [chunks Hc].
  { assert (2 ^ 53 < 2 ^ 1020) by (apply Z.pow_lt_mono_r; lia). lia. }
  exists chunks. split; [done|].
  unfold chunk_for_llm in Hc. eapply chunk_loop_snapped; [lia | | exact Hc].
  constructor.
Qed.



(** ** Identifiers *)

Lemma lit_inj s t : lit s = lit t -> s = t.
Proof.
  unfold lit. intros Heq.
  apply (f_equal (map (fun n => Ascii.ascii_of_nat (N.to_nat n)))) in Heq.
  rewrite !map_map in Heq.
  assert (Hid : forall l : list Ascii.ascii,
             map (fun x => Ascii.ascii_of_nat
                             (N.to_nat (N.of_nat (Ascii.nat_of_ascii x)))) l = l).
  { induction l as [|x l IH]; simpl; [done|].
    rewrite Nat2N.id, Ascii.ascii_nat_embedding. congruence. }
  rewrite !Hid in Heq.
  rewrite <- (String.string_of_list_ascii_of_string s),
          <- (String.string_of_list_ascii_of_string t).
  congruence.
Qed.

Lemma lit_String a s :
  lit (String a s) = N.of_nat (Ascii.nat_of_ascii a) :: lit s.
Proof. reflexivity. Qed.


Lemma lit_leading_zeros k d :
  lit (NilEmpty.string_of_uint (leading_zeros k d))
  = List.repeat 48%N k ++ lit (NilEmpty.string_of_uint d).
Proof.
  induction k as [|k IH]; [done|]. cbn [leading_zeros NilEmpty.string_of_uint].
  rewrite lit_String, IH. reflexivity.
Qed.

Lemma of_uint_leading_zeros k d :
  Pos.of_uint (leading_zeros k d) = Pos.of_uint d.
Proof. induction k as [|k IH]; [done|]. exact IH. Qed.


Lemma str_of_Z_nonneg c :
  0 <= c ->
  str_of_Z c = lit (NilEmpty.string_of_uint (uint_of_Z c))
  /\ uint_of_Z c <> Decimal.Nil
  /\ Z.of_N (Pos.of_uint (uint_of_Z c)) = c.
Proof.
  intros Hc. destruct c as [|p|p]; [done | | lia].
  unfold str_of_Z. simpl.
  pose proof (DecimalPos.Unsigned.to_uint_nonnil p) as Hn.
  split; [|split; [done|]].
  - unfold NilZero.string_of_uint. by destruct (Pos.to_uint p).
  - by rewrite DecimalPos.Unsigned.of_to.
Qed.

Lemma zfill_digits d w :
  d <> Decimal.Nil ->
  exists k, zfill (lit (NilEmpty.string_of_uint d)) w
            = lit (NilEmpty.string_of_uint (leading_zeros k d)).
Proof.
  intros Hd.
  exists (Z.to_nat (w - len (lit (NilEmpty.string_of_uint d)))).
  rewrite lit_leading_zeros. unfold zfill.
  destruct d; try done; reflexivity.
Qed.

Lemma pid_inj a b : 0 <= a -> 0 <= b -> pid a = pid b -> a = b.
Proof.
  intros Ha Hb Heq. unfold pid in Heq. apply app_inv_head in Heq.
  destruct (str_of_Z_nonneg a Ha) as (Ea & Hna & Hva).
  destruct (str_of_Z_nonneg b Hb) as (Eb & Hnb & Hvb).
  destruct (zfill_digits (uint_of_Z a) 4 Hna) as [ka Hka].
  destruct (zfill_digits (uint_of_Z b) 4 Hnb) as [kb Hkb].
  rewrite Ea, Eb, Hka, Hkb in Heq. apply lit_inj in Heq.
  apply (f_equal NilEmpty.uint_of_string) in Heq.
  rewrite !NilEmpty.usu in Heq. injection Heq as Heq.
  apply (f_equal Pos.of_uint) in Heq.
  rewrite !of_uint_leading_zeros in Heq. congruence.
Qed.

Example pid_examples :
  pid 1 = lit "c0001" /\ pid 2 = lit "c0002" /\ pid 37 = lit "c0037"
  /\ pid 12345 = lit "c12345".
Proof. repeat split; reflexivity. Qed.

Lemma consecutive_ids_S n :
  consecutive_ids (S n) = consecutive_ids n ++ [pid (Z.of_nat (S n))].
Proof.
  unfold consecutive_ids. rewrite seq_S, map_app. reflexivity.
Qed.

Lemma consecutive_ids_NoDup n : NoDup (consecutive_ids n).
Proof.
  unfold consecutive_ids. apply NoDup_fmap_2_strong; [|apply NoDup_seq].
  intros i j _ _ Hij. apply pid_inj in Hij; lia.
Qed.

(** ** Statements and what they do to the state *)

Lemma preserves_bind {A B} I (m : M A) (k : A -> M B) :
  preserves I m -> (forall a, preserves I (k a)) -> preserves I (bind m k).
Proof.
  intros Hm Hk s Hs. unfold bind. specialize (Hm s Hs).
  destruct (m s) as [[a| e |] s']; simpl in *; [by apply Hk | done | done].
Qed.

Lemma preserves_lift {A} I (o : outcome A) : preserves I (lift o).
Proof. by intros s Hs. Qed.

Lemma preserves_ret {A} I (a : A) : preserves I (ret a).
Proof. by intros s Hs. Qed.

Lemma preserves_try {A} I (body : M A) handler :
  preserves I body -> (forall e, preserves I (handler e)) ->
  preserves I (try_except_stmt body handler).
Proof.
  intros Hb Hh s Hs. unfold try_except_stmt. specialize (Hb s Hs).
  destruct (body s) as [[a| e |] s']; simpl in *; [done | | done].
  destruct (is_Exception e); [by apply Hh | done].
Qed.

Lemma preserves_for_each {A} I (l : list A) body :
  (forall x, preserves I (body x)) -> preserves I (for_each l body).
Proof.
  intros Hb. induction l as [|x l IH]; simpl.
  - apply preserves_ret.
  - apply preserves_bind; [apply Hb | intros _; apply IH].
Qed.

Lemma ids_ok_emit p s :
  ids_ok s -> panel_id p = pid (cut_counter s) -> ids_ok (emit p s).2.
Proof.
  intros [Hids Hc] Hp. unfold emit, ids_ok. simpl.
  rewrite map_app, length_app, Hids. simpl.
  replace (length (panels s) + 1)%nat with (S (length (panels s))) by lia.
  rewrite consecutive_ids_S, Hp, Hc. split; [done | lia].
Qed.

Ltac step_outcome H :=
  match type of H with
  | mbind _ ?o = Ok _ =>
      let E := fresh "E" in destruct o eqn:E; simpl in H; [|discriminate..]
  | context [let '(_, _) := ?p in _] => destruct p
  | match ?x with _ => _ end = Ok _ =>
      let E := fresh "E" in destruct x eqn:E; try discriminate
  end.

Lemma item_panel_id `{Runtime} a b c d n item p :
  item_panel a b c d n item = Ok (Some p) -> panel_id p = pid n.
Proof.
  unfold item_panel. intros Hp. repeat step_outcome Hp.
  by injection Hp as <-.
Qed.

Lemma fallback_panel_id `{Runtime} a c n seg p :
  fallback_panel a c n seg = Ok (Some p) -> panel_id p = pid n.
Proof.
  unfold fallback_panel. destruct seg as [[ls le] seg]. intros Hp.
  repeat step_outcome Hp. by injection Hp as <-.
Qed.

Lemma ids_ok_process_item `{Runtime} a b c d item :
  preserves ids_ok (process_item a b c d item).
Proof.
  intros s Hs. unfold process_item, bind, read_counter, lift. simpl.
  destruct (item_panel a b c d (cut_counter s) item) as [[p|]| |] eqn:Hp;
    simpl; try done.
  apply ids_ok_emit; [done|]. by eapply item_panel_id.
Qed.

Lemma ids_ok_emit_fallback `{Runtime} a c seg :
  preserves ids_ok (emit_fallback a c seg).
Proof.
  intros s Hs. unfold emit_fallback, bind, read_counter, lift. simpl.
  destruct (fallback_panel a c (cut_counter s) seg) as [[p|]| |] eqn:Hp;
    simpl; try done.
  apply ids_ok_emit; [done|]. by eapply fallback_panel_id.
Qed.

Lemma ids_ok_process_chunk `{Runtime} client full_text cut_min cut_max ich :
  preserves ids_ok (process_chunk client full_text cut_min cut_max ich).
Proof.
  destruct ich as [idx ch]. unfold process_chunk. apply preserves_try.
  - unfold oracle_path. apply preserves_bind; [apply preserves_lift|].
    intros raw. apply preserves_bind; [apply preserves_lift|].
    intros [[|item items]|]; try apply preserves_lift.
    apply preserves_for_each. intros x. apply ids_ok_process_item.
  - intros e. unfold fallback_path. apply preserves_bind.
    { apply preserves_try; [|intros; apply preserves_ret].
      destruct (is_AuthenticationError e);
        [apply preserves_lift | apply preserves_ret]. }
    intros _. apply preserves_bind; [apply preserves_lift|].
    intros segs. apply preserves_for_each. intros x.
    apply ids_ok_emit_fallback.
Qed.

(** Whatever the oracle answers, the cuts of a run that returns carry the
    identifiers [c0001], [c0002], ... in emission order. *)
Lemma run_ids `{Runtime} client full_text chunk_target window overlap ps :
  llm_cut_and_label_with_params client full_text chunk_target window overlap
    = Ok ps ->
  map panel_id ps = consecutive_ids (length ps).
Proof.
  unfold llm_cut_and_label_with_params.
  destruct (derive_cut_parameters chunk_target)
    as [[[[cmin cmax] tmin] tmax]| |]; simpl; try discriminate.
  destruct (chunk_for_llm full_text window overlap) as [chunks| |];
    simpl; try discriminate.
  pose proof (preserves_for_each ids_ok (enumerate 1 chunks)
                (process_chunk client full_text cmin cmax)
                (fun x => ids_ok_process_chunk client full_text cmin cmax x)
                (State [] 1)) as Hinv.
  destruct (for_each _ _ _) as [r s]. simpl in Hinv.
  destruct r; simpl; try discriminate. intros [= <-].
  apply Hinv. by split.
Qed.

(** ** [strip] *)


Lemma lstrip_spec s :
  exists ws, s = ws ++ lstrip s /\ spaces ws
             /\ match lstrip s with
                | c :: _ => isspace c = false
                | [] => True
                end.
Proof.
  induction s as [|c s IH]; simpl.
  - exists []. repeat split; constructor.
  - destruct (isspace c) eqn:Hc.
    + destruct IH as (ws & Hs & Hws & Hh). exists (c :: ws).
      split; [simpl; congruence|]. split; [by constructor | done].
    + exists []. repeat split; [constructor | done].
Qed.

Lemma lstrip_spaces_app ws s : spaces ws -> lstrip (ws ++ s) = lstrip s.
Proof.
  induction 1 as [|c ws Hc _ IH]; simpl; [done|]. by rewrite Hc.
Qed.

Lemma lstrip_nonspace c s : isspace c = false -> lstrip (c :: s) = c :: s.
Proof. intros Hc. simpl. by rewrite Hc. Qed.

Lemma lstrip_spaces ws : spaces ws -> lstrip ws = [].
Proof.
  intros Hws. rewrite <- (app_nil_r ws). by rewrite lstrip_spaces_app.
Qed.

Lemma spaces_rev ws : spaces ws -> spaces (rev ws).
Proof. unfold spaces. rewrite !Forall_forall. intros Hws c Hc.
  apply Hws. by apply list_elem_of_In, in_rev, list_elem_of_In. Qed.

(** A string is whitespace only, or a core that starts and ends with a
    character that is not whitespace, between two runs of whitespace. *)
Lemma strip_decompose s :
  (spaces s /\ strip s = [] /\ lstrip s = [] /\ rstrip s = [])
  \/ exists ws1 core ws2,
       s = ws1 ++ core ++ ws2 /\ spaces ws1 /\ spaces ws2 /\ core <> []
       /\ strip s = core /\ lstrip s = core ++ ws2 /\ rstrip s = ws1 ++ core
       /\ strip core = core.
Proof.
  destruct (lstrip_spec s) as (ws1 & Hs & Hws1 & Hh).
  destruct (lstrip s) as [|c r] eqn:Hl.
  - left. rewrite app_nil_r in Hs. subst ws1.
    assert (rstrip s = []) as Hr.
    { unfold rstrip. rewrite lstrip_spaces; [done | by apply spaces_rev]. }
    unfold strip. rewrite Hr. done.
  - right.
    destruct (lstrip_spec (rev (c :: r))) as (ws2' & Hrev & Hws2 & Hh2).
    destruct (lstrip (rev (c :: r))) as [|d core'] eqn:Hl2.
    { rewrite app_nil_r in Hrev. subst ws2'.
      apply spaces_rev in Hws2. rewrite rev_involutive in Hws2.
      inversion Hws2; congruence. }
    assert (Hcr : c :: r = rev (d :: core') ++ rev ws2').
    { rewrite <- (rev_app_distr ws2' (d :: core')), <- Hrev.
      by rewrite rev_involutive. }
    set (core := rev (d :: core')) in *. set (ws2 := rev ws2') in *.
    assert (Hcore : exists core0, core = c :: core0).
    { destruct core as [|x core0] eqn:Hc0.
      - apply (f_equal (@length N)) in Hc0. unfold core in Hc0.
        rewrite length_rev in Hc0. done.
      - simpl in Hcr. injection Hcr as -> _. eauto. }
    destruct Hcore as [core0 Hcore0].
    assert (Hrs : rstrip s = ws1 ++ core).
    { unfold rstrip. rewrite Hs, Hcr, !rev_app_distr.
      unfold ws2. rewrite rev_involutive.
      rewrite <- app_assoc, lstrip_spaces_app by done.
      unfold core. rewrite rev_involutive. simpl.
      rewrite Hh2, app_comm_cons, rev_app_distr, rev_involutive.
      reflexivity. }
    exists ws1, core, ws2. split; [by rewrite Hs, Hcr|].
    split; [done|]. split; [by apply spaces_rev|].
    split; [by rewrite Hcore0|].
    assert (Hlc : lstrip core = core)
      by (rewrite Hcore0; by apply lstrip_nonspace).
    split; [|split; [done | split; [done|]]].
    + unfold strip. rewrite Hrs. by rewrite lstrip_spaces_app.
    + unfold strip, rstrip. unfold core at 1. rewrite rev_involutive.
      rewrite lstrip_nonspace by done. fold core. done.
Qed.

Lemma slice_app_inv {A} (s x y z : list A) a b :
  0 <= a -> a <= b -> b <= len s ->
  slice s a b = x ++ y ++ z ->
  slice s (a + len x) (a + len x + len y) = y.
Proof.
  intros Ha Hab Hb Hs.
  pose proof (len_slice s a b Ha Hab Hb) as Hl.
  rewrite Hs, !len_app in Hl.
  pose proof (len_nonneg x). pose proof (len_nonneg y). pose proof (len_nonneg z).
  rewrite slice_inside in Hs by lia. rewrite slice_inside by lia.
  set (l := drop (Z.to_nat a) s) in *.
  assert (Hl' : l = (x ++ y ++ z) ++ drop (Z.to_nat (b - a)) l)
    by (rewrite <- Hs; symmetry; apply take_drop).
  replace (Z.to_nat (a + len x)) with (Z.to_nat a + length x)%nat
    by (unfold len; lia).
  rewrite <- drop_drop. fold l. rewrite Hl'.
  rewrite <- !app_assoc, drop_app_length.
  replace (Z.to_nat (a + len x + len y - (a + len x))) with (length y)
    by (unfold len; lia).
  by rewrite take_app_length.
Qed.

Lemma slice_lookup {A} (s : list A) a b (i : nat) :
  0 <= a -> a <= b -> b <= len s -> Z.of_nat i < b - a ->
  slice s a b !! i = s !! (Z.to_nat a + i)%nat.
Proof.
  intros Ha Hab Hb Hi. rewrite slice_inside by lia.
  rewrite lookup_take_lt by lia. by rewrite lookup_drop.
Qed.

Lemma slice_sublist {A} (P : A -> Prop) (s : list A) a b :
  Forall P s -> Forall P (slice s a b).
Proof. intros Hs. unfold slice. by apply Forall_take, Forall_drop. Qed.

(** ** What the fallback splitter returns *)

Lemma split_point_bounds normalized cut_min cursor te :
  0 <= cursor -> cursor < te -> te <= len normalized ->
  let sp :=
    match filter (fun c => cut_min - 1 <= c)
            [rfind (slice normalized cursor te) [LF; LF];
             rfind (slice normalized cursor te) [IDEOGRAPHIC_FULL_STOP];
             rfind (slice normalized cursor te) [IDEOGRAPHIC_COMMA]] with
    | [] => te
    | c :: cs => cursor + list_max cs c + 1
    end in
  cursor <= sp <= te /\ (1 <= cut_min -> cursor < sp).
Proof.
  intros Hc Hte Hlen. cbv zeta.
  set (w := slice normalized cursor te).
  assert (Hw : len w = te - cursor) by (apply len_slice; lia).
  assert (Hall : Forall (fun c => (-1 <= c < len w) /\ cut_min - 1 <= c)
            (filter (fun c => cut_min - 1 <= c)
               [rfind w [LF; LF]; rfind w [IDEOGRAPHIC_FULL_STOP];
                rfind w [IDEOGRAPHIC_COMMA]])).
  { apply Forall_forall. intros c Hin.
    apply list_elem_of_filter in Hin as [Hge Hin]. split; [|done].
    assert (Hrf : forall sub, sub <> [] -> -1 <= rfind w sub < len w)
      by (intros; by apply rfind_lt_len).
    repeat (apply elem_of_cons in Hin as [-> | Hin]; [by apply Hrf|]).
    by apply elem_of_nil in Hin. }
  destruct (filter _ _) as [|c cs]; [lia|].
  inversion Hall as [|? ? Hc0 Hcs]; subst.
  pose proof (list_max_bound _ cs c Hc0 Hcs) as Hm. simpl in Hm. lia.
Qed.




Lemma fallback_body_unfold normalized cut_min cut_max cursor spans :
  1 <= cut_max -> 0 <= cursor < len normalized ->
  exists sp,
    cursor <= sp <= Z.min (cursor + cut_max) (len normalized)
    /\ (1 <= cut_min -> cursor < sp)
    /\ fallback_body normalized cut_min cut_max cursor spans
       = (if cursor <? sp then sp
          else Z.min (cursor + cut_max) (len normalized),
          let segment_raw := slice normalized cursor sp in
          match strip segment_raw with
          | [] => spans
          | _ :: _ =>
              spans ++ [(cursor + (len segment_raw - len (lstrip segment_raw)),
                         cursor + len (rstrip segment_raw),
                         strip segment_raw)]
          end).
Proof.
  intros Hmax Hc. unfold fallback_body. cbv zeta.
  set (te := Z.min (cursor + cut_max) (len normalized)).
  assert (Hte : cursor < te <= len normalized) by (unfold te; lia).
  destruct (Z.ltb_spec te (len normalized)).
  - pose proof (split_point_bounds normalized cut_min cursor te
                  ltac:(lia) ltac:(lia) ltac:(lia)) as Hsp.
    cbv zeta in Hsp. eexists. split; [exact (proj1 Hsp)|].
    split; [exact (proj2 Hsp)|]. reflexivity.
  - exists te. split; [lia|]. split; [lia|]. reflexivity.
Qed.

Lemma fallback_body_spec normalized cut_min cut_max cursor spans :
  1 <= cut_max -> 0 <= cursor < len normalized ->
  exists new,
    (fallback_body normalized cut_min cut_max cursor spans).2 = spans ++ new
    /\ Forall (span_ok normalized) new
    /\ (1 <= cut_min ->
        forall k, cursor <= k
                  < (fallback_body normalized cut_min cut_max cursor spans).1 ->
                  nonspace_at normalized k -> span_covers new k).
Proof.
  intros Hmax Hc.
  destruct (fallback_body_unfold normalized cut_min cut_max cursor spans
              Hmax Hc) as (sp & Hsp & Hmin & ->).
  cbv zeta. simpl fst. simpl snd.
  set (raw := slice normalized cursor sp).
  assert (Hraw : len raw = sp - cursor) by (apply len_slice; lia).
  destruct (strip_decompose raw)
    as [(Hws & Hstrip & _ & _)
       | (ws1 & core & ws2 & Hdec & Hws1 & Hws2 & Hne & Hstrip & Hl & Hr & Hcore)].
  - rewrite Hstrip. exists []. split; [by rewrite app_nil_r|].
    split; [constructor|]. intros Hcm k Hk (_ & c & Hkc & Hsp').
    specialize (Hmin Hcm). destruct (Z.ltb_spec cursor sp); [|lia].
    exfalso. assert (isspace c = true); [|congruence].
    eapply Forall_forall in Hws; [exact Hws|].
    apply list_elem_of_lookup. exists (Z.to_nat (k - cursor)).
    unfold raw. rewrite slice_lookup by lia. rewrite <- Hkc. f_equal. lia.
  - rewrite Hstrip. destruct core as [|c0 core0] eqn:Hcore0; [done|].
    rewrite <- Hcore0 in *. clear Hcore0 c0 core0.
    pose proof (len_nonneg ws1). pose proof (len_nonneg ws2).
    assert (0 < len core) by (destruct core; [done | rewrite len_cons; pose proof (len_nonneg core); lia]).
    assert (Hlen : len ws1 + len core + len ws2 = sp - cursor)
      by (rewrite <- Hraw, Hdec, !len_app; lia).
    rewrite Hl, Hr, Hdec, !len_app.
    replace (cursor + (len ws1 + (len core + len ws2) - (len core + len ws2)))
      with (cursor + len ws1) by lia.
    eexists [_]. split; [reflexivity|]. split.
    + constructor; [|constructor]. unfold span_ok. simpl.
      split; [lia|]. split; [lia|]. split; [lia|]. split; [|done].
      symmetry. replace (cursor + (len ws1 + len core))
        with (cursor + len ws1 + len core) by lia.
      apply (slice_app_inv normalized ws1 core ws2 cursor sp); [lia..|done].
    + intros Hcm k Hk (_ & c & Hkc & Hsp').
      specialize (Hmin Hcm). destruct (Z.ltb_spec cursor sp); [|lia].
      eexists. split; [left|]. simpl.
      assert (Hlk : raw !! Z.to_nat (k - cursor) = Some c).
      { unfold raw. rewrite slice_lookup by lia. rewrite <- Hkc. f_equal. lia. }
      rewrite Hdec in Hlk.
      destruct (Z.lt_ge_cases (k - cursor) (len ws1)).
      { rewrite lookup_app_l in Hlk by (unfold len in *; lia).
        apply list_elem_of_lookup_2 in Hlk.
        eapply Forall_forall in Hws1; [|exact Hlk]. congruence. }
      destruct (Z.lt_ge_cases (k - cursor) (len ws1 + len core)); [lia|].
      rewrite app_assoc, lookup_app_r in Hlk
        by (rewrite length_app; unfold len in *; lia).
      apply list_elem_of_lookup_2 in Hlk.
      eapply Forall_forall in Hws2; [|exact Hlk]. congruence.
Qed.

Lemma span_covers_app_l spans new k :
  span_covers spans k -> span_covers (spans ++ new) k.
Proof. intros (sp & Hin & Hk). exists sp. split; [|done]. apply elem_of_app. by left. Qed.

Lemma span_covers_app_r spans new k :
  span_covers new k -> span_covers (spans ++ new) k.
Proof. intros (sp & Hin & Hk). exists sp. split; [|done]. apply elem_of_app. by right. Qed.

Lemma fallback_loop_spec fuel normalized cut_min cut_max cursor spans out :
  1 <= cut_max -> 0 <= cursor ->
  Forall (span_ok normalized) spans ->
  fallback_loop fuel normalized cut_min cut_max cursor spans = Ok out ->
  Forall (span_ok normalized) out
  /\ (1 <= cut_min ->
      (forall k, k < cursor -> nonspace_at normalized k -> span_covers spans k) ->
      forall k, nonspace_at normalized k -> span_covers out k).
Proof.
  intros Hmax. revert cursor spans.
  induction fuel as [|fuel IH]; intros cursor spans Hc Hok; cbn [fallback_loop].
  - destruct (Z.ltb_spec cursor (len normalized)); [done|]. intros [= <-].
    split; [done|]. intros _ Hcov k Hk. apply Hcov; [|done].
    destruct Hk as (Hk0 & c & Hkc & _). apply lookup_lt_Some in Hkc.
    unfold len in *. lia.
  - destruct (Z.ltb_spec cursor (len normalized)).
    + pose proof (fallback_body_progress normalized cut_min cut_max cursor spans
                    Hmax ltac:(lia)) as Hp.
      destruct (fallback_body_spec normalized cut_min cut_max cursor spans
                  Hmax ltac:(lia)) as (new & Hnew & Hnok & Hncov).
      destruct (fallback_body _ _ _ _ _) as [c' s']. simpl in *. subst s'.
      intros Hloop. apply IH in Hloop as [Hout Hcov]; [|lia|].
      * split; [done|]. intros Hcm Hprev. apply Hcov; [done|].
        intros k Hk Hns. destruct (Z.lt_ge_cases k cursor).
        -- by apply span_covers_app_l, Hprev.
        -- apply span_covers_app_r, Hncov; [done | lia | done].
      * apply Forall_app. by split.
    + intros [= <-]. split; [done|]. intros _ Hcov k Hk. apply Hcov; [|done].
      destruct Hk as (Hk0 & c & Hkc & _). apply lookup_lt_Some in Hkc.
      unfold len in *. lia.
Qed.

(** Every span the fallback splitter returns is a stripped, non-empty
    slice of the normalised text at the offsets it reports, and with
    [cut_min >= 1] every character of the normalised text that is not
    whitespace lies in one of them. *)
Lemma split_fallback_chunk_spec text cut_min cut_max spans :
  1 <= cut_max ->
  _split_fallback_chunk text cut_min cut_max = Ok spans ->
  Forall (span_ok (normalize_newlines text)) spans
  /\ (1 <= cut_min ->
      forall k, nonspace_at (normalize_newlines text) k -> span_covers spans k).
Proof.
  intros Hmax Hrun. unfold _split_fallback_chunk in Hrun.
  apply fallback_loop_spec in Hrun as [Hok Hcov]; [|done|lia|constructor].
  split; [done|]. intros Hcm. apply Hcov; [done|].
  intros k Hk (Hk0 & _). lia.
Qed.

(** ** Outcomes of the assembler's statements *)

Lemma benign_bind {A B} (o : outcome A) (k : A -> outcome B) :
  benign o -> (forall a, benign (k a)) -> benign (o ≫= k).
Proof. destruct o; simpl; auto. Qed.

Lemma benign_get d key default : benign (get d key default).
Proof. by destruct d. Qed.

Lemma benign_strip_method v : benign (strip_method v).
Proof. by destruct v. Qed.

Lemma benign_int `{Runtime} v : benign (int v).
Proof. destruct v; simpl; try done. by destruct (int_of_str s). Qed.

Lemma benign_iterate v : benign (iterate v).
Proof. by destruct v. Qed.

Lemma benign_sha1 `{Runtime} s : benign (sha1_of_utf8 s).
Proof. unfold sha1_of_utf8. by destruct (forallb _ s). Qed.

Lemma benign_mul_int_float z c : benign (mul_int_float z c).
Proof.
  unfold mul_int_float, float_of_int. by destruct (round_dyadic z 0).
Qed.

Lemma benign_detect_global_span v a b c : benign (_detect_global_span v a b c).
Proof.
  unfold _detect_global_span. destruct (v <? 0); [done|].
  apply benign_bind; [apply benign_mul_int_float|].
  intros f. by destruct (int_gt_float v f).
Qed.

Lemma benign_reconcile_span ls le a b c n : benign (reconcile_span ls le a b c n).
Proof.
  unfold reconcile_span.
  apply benign_bind; [apply benign_detect_global_span | intros gs].
  apply benign_bind; [apply benign_detect_global_span | intros ge]. done.
Qed.

Create HintDb benign.
#[local] Hint Resolve benign_get benign_strip_method benign_int
  benign_iterate benign_sha1 benign_reconcile_span : benign.

Ltac benign_steps :=
  repeat first
    [ apply benign_bind; [solve [auto with benign] | intros ?]
    | apply benign_bind; [ | intros ?]
    | progress auto with benign
    | match goal with
      | |- benign (match ?x with _ => _ end) => destruct x
      | |- benign (if ?x then _ else _) => destruct x
      | |- benign (let '(_, _) := ?x in _) => destruct x
      | |- benign (Ok _) => exact I
      end ].

Lemma benign_item_speakers `{Runtime} item : benign (item_speakers item).
Proof. unfold item_speakers. benign_steps. Qed.

Lemma benign_item_panel `{Runtime} a b c d n item :
  benign (item_panel a b c d n item).
Proof.
  unfold item_panel. pose proof (benign_item_speakers item).
  benign_steps.
Qed.

Lemma safe_json_loads_returns `{Runtime} raw :
  loads_well_behaved -> exists r, _safe_json_loads raw = Ok r.
Proof.
  intros Hwb. unfold _safe_json_loads. cbv zeta.
  match goal with |- context [json_loads ?t] => specialize (Hwb t);
    destruct (json_loads t) as [v|e|] end; simpl in *; [eauto | | done].
  rewrite Hwb. eauto.
Qed.

Lemma safe_json_object_returns `{Runtime} raw :
  loads_well_behaved -> exists r, _safe_json_object raw = Ok r.
Proof.
  intros Hwb. unfold _safe_json_object. cbv zeta.
  match goal with |- context [json_loads ?t] => specialize (Hwb t);
    destruct (json_loads t) as [v|e|] end; simpl in *; [eauto | | done].
  rewrite Hwb. eauto.
Qed.


Lemma benign_stmt_bind {A B} (m : M A) (k : A -> M B) :
  benign_stmt m -> (forall a, benign_stmt (k a)) -> benign_stmt (bind m k).
Proof.
  intros Hm Hk s. unfold bind. specialize (Hm s).
  destruct (m s) as [[a|e|] s']; simpl in *; [apply Hk | done | done].
Qed.

Lemma benign_stmt_for_each {A} (l : list A) body :
  (forall x, benign_stmt (body x)) -> benign_stmt (for_each l body).
Proof.
  intros Hb. induction l as [|x l IH]; simpl; [by intros s|].
  apply benign_stmt_bind; [apply Hb | intros _; apply IH].
Qed.

Lemma benign_process_item `{Runtime} a b c d item :
  benign_stmt (process_item a b c d item).
Proof.
  intros s. unfold process_item, bind, read_counter, lift. simpl.
  pose proof (benign_item_panel a b c d (cut_counter s) item) as Hp.
  destruct (item_panel _ _ _ _ _ _) as [[p|]| |]; simpl in *; done.
Qed.

Lemma benign_oracle_path `{Runtime} client idx chunk_text a b c d :
  loads_well_behaved -> client_well_behaved client ->
  benign_stmt (oracle_path client idx chunk_text a b c d).
Proof.
  intros Hl Hc. unfold oracle_path. apply benign_stmt_bind.
  { intros s. simpl. unfold _call_llm_chunk. specialize (Hc idx chunk_text).
    by destruct (client idx chunk_text). }
  intros raw. apply benign_stmt_bind.
  { intros s. simpl. by destruct (safe_json_loads_returns raw Hl) as [r ->]. }
  intros [[|item items]|]; try (by intros s).
  apply benign_stmt_for_each. intros x. apply benign_process_item.
Qed.

Lemma returns_stmt_bind {A B} (m : M A) (k : A -> M B) :
  returns_stmt m -> (forall a, returns_stmt (k a)) -> returns_stmt (bind m k).
Proof.
  intros Hm Hk s. unfold bind. destruct (Hm s) as (a & s' & ->). apply Hk.
Qed.

Lemma returns_for_each {A} (l : list A) body :
  Forall (fun x => returns_stmt (body x)) l -> returns_stmt (for_each l body).
Proof.
  induction 1 as [|x l Hx _ IH]; simpl; [intros s; by eexists _, _|].
  apply returns_stmt_bind; [done | by intros _].
Qed.

Lemma returns_try {A} (body : M A) handler :
  benign_stmt body ->
  (forall e, is_Exception e = true -> returns_stmt (handler e)) ->
  returns_stmt (try_except_stmt body handler).
Proof.
  intros Hb Hh s. unfold try_except_stmt. specialize (Hb s).
  destruct (body s) as [[a|e|] s']; simpl in *; [by eexists _, _ | | done].
  rewrite Hb. by apply Hh.
Qed.

(** ** Encodable text *)

Lemma encodable_sha1 `{Runtime} s :
  encodable s -> sha1_of_utf8 s = Ok (sha1_hexdigest s).
Proof.
  intros Hs. unfold sha1_of_utf8.
  replace (forallb _ s) with true; [done|]. symmetry.
  apply forallb_forall. intros c Hc.
  eapply Forall_forall in Hs; [|by apply list_elem_of_In]. by rewrite Hs.
Qed.

Lemma lstrip_suffix s : exists ws, s = ws ++ lstrip s.
Proof. destruct (lstrip_spec s) as (ws & Hs & _). eauto. Qed.

Lemma Forall_lstrip (P : N -> Prop) s : Forall P s -> Forall P (lstrip s).
Proof.
  intros Hs. destruct (lstrip_suffix s) as [ws Hws]. rewrite Hws in Hs.
  by apply Forall_app in Hs as [_ ?].
Qed.

Lemma Forall_rev' {A} (P : A -> Prop) l : Forall P l -> Forall P (rev l).
Proof.
  rewrite !Forall_forall. intros Hl x Hx. apply Hl.
  by apply list_elem_of_In, in_rev, list_elem_of_In.
Qed.

Lemma Forall_strip (P : N -> Prop) s : Forall P s -> Forall P (strip s).
Proof.
  intros Hs. unfold strip, rstrip.
  by apply Forall_lstrip, Forall_rev', Forall_lstrip, Forall_rev'.
Qed.

Lemma Forall_replace_go (P : N -> Prop) old new skip s :
  Forall P new -> Forall P s -> Forall P (replace_go old new skip s).
Proof.
  intros Hnew Hs. revert skip.
  induction Hs as [|c s Hc Hs IH]; intros skip; simpl; [constructor|].
  destruct skip; [|apply IH].
  destruct (startswith old (c :: s)).
  - apply Forall_app. split; [done | apply IH].
  - constructor; [done | apply IH].
Qed.

Lemma encodable_normalize text :
  encodable text -> encodable (normalize_newlines text).
Proof.
  intros Ht. unfold normalize_newlines, replace, encodable.
  apply Forall_replace_go; [by repeat constructor|].
  apply Forall_replace_go; [by repeat constructor | done].
Qed.

Lemma returns_emit_fallback `{Runtime} a c seg :
  encodable seg.2 -> returns_stmt (emit_fallback a c seg).
Proof.
  intros Hseg s. unfold emit_fallback, bind, read_counter, lift. simpl.
  unfold fallback_panel. destruct seg as [[ls le] seg]. simpl in Hseg.
  destruct (strip seg) as [|x r] eqn:Hst; simpl; [by eexists _, _|].
  rewrite encodable_sha1; [simpl; by eexists _, _|].
  rewrite <- Hst. by apply Forall_strip.
Qed.

(** The inner [try] of the handler always falls through: the exception it
    re-raises derives from [Exception], and its own handler is
    [except Exception: pass]. *)
Lemma reraise_is_caught ex s :
  is_Exception ex = true ->
  try_except_stmt (if is_AuthenticationError ex then raise ex else ret tt)
    (fun _ => ret tt) s = (Ok tt, s).
Proof.
  intros Hex. unfold try_except_stmt, raise, lift, ret.
  destruct (is_AuthenticationError ex); [by rewrite Hex | done].
Qed.

Lemma returns_bind_lift {A B} (o : outcome A) (a : A) (k : A -> M B) :
  o = Ok a -> returns_stmt (k a) -> returns_stmt (bind (lift o) k).
Proof. intros -> Hk s. unfold bind, lift. apply Hk. Qed.

Lemma encodable_span normalized sp :
  encodable normalized -> span_ok normalized sp -> encodable sp.2.
Proof.
  intros Hn (_ & _ & _ & -> & _). by apply slice_sublist.
Qed.

Lemma returns_fallback_path `{Runtime} chunk_text a c cut_min cut_max ex :
  1 <= cut_max -> encodable chunk_text -> is_Exception ex = true ->
  returns_stmt (fallback_path chunk_text a c cut_min cut_max ex).
Proof.
  intros Hmax Henc Hex. unfold fallback_path. apply returns_stmt_bind.
  { intros s. rewrite reraise_is_caught by done. by eexists _, _. }
  intros _.
  destruct (split_fallback_chunk_returns chunk_text cut_min cut_max Hmax)
    as [spans Hspans].
  pose proof (split_fallback_chunk_spec chunk_text cut_min cut_max spans
                Hmax Hspans) as [Hok _].
  eapply returns_bind_lift; [exact Hspans|].
  apply returns_for_each.
  destruct spans as [|sg spans'].
  - destruct (strip chunk_text) eqn:Hst; [constructor|].
    constructor; [|constructor]. apply returns_emit_fallback. simpl.
    rewrite <- Hst. by apply Forall_strip.
  - eapply Forall_impl; [exact Hok|]. intros sp Hsp.
    apply returns_emit_fallback.
    eapply encodable_span; [|exact Hsp]. by apply encodable_normalize.
Qed.

Lemma returns_process_chunk `{Runtime} client full_text cut_min cut_max ich :
  loads_well_behaved -> client_well_behaved client ->
  1 <= cut_max -> encodable full_text ->
  returns_stmt (process_chunk client full_text cut_min cut_max ich).
Proof.
  intros Hl Hc Hmax Henc. destruct ich as [idx ch]. unfold process_chunk.
  apply returns_try; [by apply benign_oracle_path|].
  intros e He. apply returns_fallback_path; [done | | done].
  by apply slice_sublist.
Qed.

(** With a decoder and an oracle that fail only by exceptions deriving
    from [Exception], a text that can be encoded, and a target and a
    window size below [2^1020] in magnitude, the run returns. *)
Lemma run_returns `{Runtime} client full_text chunk_target window overlap :
  loads_well_behaved -> client_well_behaved client -> encodable full_text ->
  chunk_target < 2 ^ 1020 -> - 2 ^ 1020 < window < 2 ^ 1020 ->
  exists ps,
    llm_cut_and_label_with_params client full_text chunk_target window overlap
      = Ok ps.
Proof.
  intros Hl Hc Henc Ht Hw. unfold llm_cut_and_label_with_params.
  destruct (derive_cut_parameters_returns chunk_target Ht)
    as [[[[cmin cmax] tmin] tmax] Hd].
  rewrite Hd. apply derive_cut_parameters_bounds in Hd.
  destruct (chunk_for_llm_returns full_text window overlap Hw) as [chunks ->].
  simpl.
  destruct (returns_for_each (enumerate 1 chunks)
              (process_chunk client full_text cmin cmax)) with (s := State [] 1)
    as (a & s' & ->).
  { apply Forall_forall. intros x _. apply returns_process_chunk; try done. lia. }
  simpl. eauto.
Qed.

(** C5: a run returns, and the identifiers of its cuts are [c0001],
    [c0002], [c0003], ... in emission order, one counter serving every
    window and both paths: no gap, no repeat.  The target and the window
    size are below [2^1020] in magnitude: a number that has no finite
    double makes the run raise [OverflowError]. *)
Theorem cut_ids_consecutive `{Runtime} (client : Client) (full_text : str)
    (chunk_target window overlap : Z) :
  loads_well_behaved -> client_well_behaved client -> encodable full_text ->
  chunk_target < 2 ^ 1020 -> - 2 ^ 1020 < window < 2 ^ 1020 ->
  exists ps,
    llm_cut_and_label_with_params client full_text chunk_target window overlap
      = Ok ps
    /\ map panel_id ps = consecutive_ids (length ps)
    /\ NoDup (map panel_id ps).
Proof.
  intros Hl Hc Henc Ht Hw.
  destruct (run_returns client full_text chunk_target window overlap
              Hl Hc Henc Ht Hw) as [ps Hps].
  exists ps. split; [done|].
  pose proof (run_ids _ _ _ _ _ _ Hps) as Hids. split; [done|].
  rewrite Hids. apply consecutive_ids_NoDup.
Qed.

(** ** The reference runtime *)

Lemma ref_loads_well_behaved : @loads_well_behaved Ref.runtime.
Proof.
  intros s. simpl. unfold Ref.json_loads.
  destruct (Ref.scan_once _ _) as [[v r]|]; [|done].
  by destruct (Ref.skip_ws r).
Qed.


(** ** The relationship reducer *)


Lemma node_update_lookup (nodes : gmap str str) n d name :
  node_update nodes n d !! name
  = if bool_decide (n = name) then
      match nodes !! n with
      | None | Some [] => Some d
      | Some old => Some old
      end
    else nodes !! name.
Proof.
  unfold node_update. case_bool_decide as Hn.
  - subst name. destruct (nodes !! n) as [old|] eqn:Hold.
    + case_bool_decide as Hd.
      * destruct Hd as [_ ->]. by rewrite lookup_insert_eq.
      * rewrite Hold. destruct old as [|c old]; [|done].
        destruct d as [|c d]; [done|]. exfalso. by apply Hd.
    + by rewrite lookup_insert_eq.
  - destruct (nodes !! n) as [old|]; [case_bool_decide|];
      by rewrite ?lookup_insert_ne.
Qed.

Lemma merge_lookup (nodes : gmap str str) mentions name :
  merge nodes mentions !! name
  = match nodes !! name with
    | None => first_description name mentions
    | Some [] => Some (default [] (first_description name mentions))
    | Some d => Some d
    end.
Proof.
  revert nodes. induction mentions as [|[n d] ms IH]; intros nodes; simpl.
  - by destruct (nodes !! name) as [[|]|].
  - unfold merge in *. simpl. rewrite IH, node_update_lookup.
    case_bool_decide as Hn; [subst n|done].
    destruct (nodes !! name) as [[|c old]|]; destruct d; done.
Qed.

Lemma merge_app nodes ms1 ms2 :
  merge nodes (ms1 ++ ms2) = merge (merge nodes ms1) ms2.
Proof. unfold merge. apply foldl_app. Qed.

Lemma stripped_field_nodes_step g char g' :
  character_step g char = Ok g' ->
  nodes g' = merge (nodes g) (option_list (mention_of char))
  /\ edges g' = edges g.
Proof.
  unfold character_step, mention_of.
  destruct (stripped_field char (lit "name")) as [[|c name]| |];
    simpl; try discriminate.
  - by intros [= <-].
  - destruct (stripped_field char (lit "description")) as [desc| |];
      simpl; try discriminate.
    by intros [= <-].
Qed.

Lemma characters_fold g chars g' :
  fold_outcome character_step g chars = Ok g' ->
  nodes g' = merge (nodes g) (omap mention_of chars) /\ edges g' = edges g.
Proof.
  revert g. induction chars as [|char chars IH]; intros g; simpl.
  - by intros [= <-].
  - destruct (character_step g char) as [g1| |] eqn:Hstep; simpl;
      try discriminate.
    intros Hfold. apply stripped_field_nodes_step in Hstep as [Hn He].
    apply IH in Hfold as [Hn' He']. split; [|congruence].
    rewrite Hn', Hn. by destruct (mention_of char).
Qed.

Lemma relationships_fold `{Runtime} g rels g' :
  fold_outcome relationship_step g rels = Ok g' -> nodes g' = nodes g.
Proof.
  revert g. induction rels as [|rel rels IH]; intros g; simpl.
  - by intros [= <-].
  - destruct (relationship_step g rel) as [g1| |] eqn:Hstep; simpl;
      try discriminate.
    intros Hfold. apply IH in Hfold. rewrite Hfold.
    unfold relationship_step in Hstep.
    repeat match type of Hstep with
           | mbind _ ?o = Ok _ => destruct o; simpl in Hstep; try discriminate
           end.
    case_bool_decide; by injection Hstep as <-.
Qed.

Lemma graph_chunk_step_nodes `{Runtime} client full_text g ich g' :
  graph_chunk_step client full_text g ich = Ok g' ->
  nodes g' = merge (nodes g)
               (omap mention_of (window_characters client full_text ich)).
Proof.
  unfold graph_chunk_step, window_characters. destruct ich as [idx ch].
  destruct (_call_graph_chunk _ _ _) as [[[|m members]|]| |]; simpl;
    try discriminate; try (by intros [= <-]).
  match goal with
  | |- iterate ?v ≫= _ = _ -> _ => destruct (iterate v) as [chars| |]
  end; simpl; try discriminate.
  destruct (fold_outcome character_step g chars) as [g1| |] eqn:Hc; simpl;
    try discriminate.
  match goal with
  | |- iterate ?v ≫= _ = _ -> _ => destruct (iterate v) as [rels| |]
  end; simpl; try discriminate.
  intros Hr. apply relationships_fold in Hr. apply characters_fold in Hc as [Hc _].
  congruence.
Qed.

Lemma graph_fold_nodes `{Runtime} client full_text g ichs g' :
  fold_outcome (graph_chunk_step client full_text) g ichs = Ok g' ->
  nodes g' = merge (nodes g)
               (omap mention_of
                  (concat (map (window_characters client full_text) ichs))).
Proof.
  revert g. induction ichs as [|ich ichs IH]; intros g; simpl.
  - by intros [= <-].
  - destruct (graph_chunk_step client full_text g ich) as [g1| |] eqn:Hstep;
      simpl; try discriminate.
    intros Hfold. apply IH in Hfold. apply graph_chunk_step_nodes in Hstep.
    rewrite Hfold, Hstep, omap_app. by rewrite merge_app.
Qed.

(** C7, as stated, fails: of the mentions ("A", "x"), ("A", "longer") and
    ("a", "y") the code keeps "x" for "A", and "a" as a node of its own. *)
Lemma character_merge_keeps_first_not_longest :
  omap mention_of
    (window_characters (H := Ref.runtime) Sample.three_mentions
       Sample.hello_world (1, Chunk 0 12))
  = [(lit "A", lit "x"); (lit "A", lit "longer"); (lit "a", lit "y")]
  /\ exists g,
       graph_of_text (H := Ref.runtime) Sample.three_mentions
         Sample.hello_world = Ok g
       /\ nodes g !! lit "A" = Some (lit "x")
       /\ nodes g !! lit "a" = Some (lit "y")
       /\ ~ keeps_longest_description
              [(lit "A", lit "x"); (lit "A", lit "longer"); (lit "a", lit "y")]
              (nodes g)
       /\ ~ case_insensitive_nodes (H := Ref.runtime) (nodes g).
Proof.
  split; [vm_compute; reflexivity|].
  destruct (graph_of_text (H := Ref.runtime) Sample.three_mentions
              Sample.hello_world) as [g| |] eqn:Hg;
    [|vm_compute in Hg; discriminate..].
  exists g. split; [reflexivity|].
  assert (HA : nodes g !! lit "A" = Some (lit "x")).
  { vm_compute in Hg. injection Hg as <-. vm_compute. reflexivity. }
  assert (Ha : nodes g !! lit "a" = Some (lit "y")).
  { vm_compute in Hg. injection Hg as <-. vm_compute. reflexivity. }
  split; [done|]. split; [done|]. split.
  - intros Hk. destruct (Hk (lit "A") (lit "longer")) as (d & Hd & Hlen).
    { right. left. }
    rewrite HA in Hd. injection Hd as <-. vm_compute in Hlen. by apply Hlen.
  - intros Hk. specialize (Hk (lit "A") (lit "a")).
    assert (lit "A" = lit "a") as Heq; [|discriminate Heq].
    apply Hk; [by eexists | by eexists | reflexivity].
Qed.

(** C7 (amended): the descriptions are merged per stripped name, compared
    as it is written: for every name the node dictionary holds the first
    description that is not empty among the mentions of exactly that name,
    in window order and list order, the empty string when all of them are
    empty, and no node when the name is not mentioned. *)
Theorem character_descriptions_first_nonempty `{Runtime} (client : Client)
    (full_text : str) (g : graph) (chunks : list chunk) :
  chunk_for_llm full_text WINDOW OVERLAP = Ok chunks ->
  graph_of_text client full_text = Ok g ->
  forall name,
    nodes g !! name
    = first_description name
        (omap mention_of
           (concat (map (window_characters client full_text)
                      (enumerate 1 chunks)))).
Proof.
  intros Hchunks Hg name. unfold graph_of_text in Hg.
  rewrite Hchunks in Hg. simpl in Hg.
  apply graph_fold_nodes in Hg. rewrite Hg. simpl.
  by rewrite merge_lookup, lookup_empty.
Qed.

Lemma character_descriptions_first_nonempty_witness :
  chunk_for_llm Sample.hello_world WINDOW OVERLAP = Ok [Chunk 0 12]
  /\ (exists g, graph_of_text (H := Ref.runtime) Sample.three_mentions
                  Sample.hello_world = Ok g
                /\ nodes g !! lit "A" = Some (lit "x")).
Proof.
  split; [reflexivity|].
  destruct (graph_of_text (H := Ref.runtime) Sample.three_mentions
              Sample.hello_world) as [g| |] eqn:Hg;
    [|vm_compute in Hg; discriminate..].
  exists g. split; [reflexivity|].
  rewrite (character_descriptions_first_nonempty (H := Ref.runtime)
             Sample.three_mentions Sample.hello_world g [Chunk 0 12]
             eq_refl Hg (lit "A")).
  vm_compute. reflexivity.
Defined.

(** ** The array pattern *)

Lemma close_here_spec s n :
  close_here s = Some n
  <-> exists ws post, s = [RBRACE] ++ ws ++ [RBRACKET] ++ post
                      /\ spaces ws /\ n = (2 + length ws)%nat.
Proof.
  unfold close_here. split.
  - destruct s as [|c r]; [done|].
    destruct (N.eqb_spec c RBRACE) as [->|]; [|done].
    destruct (lstrip_spec r) as (ws & Hr & Hws & _).
    destruct (lstrip r) as [|d rest] eqn:Hl; [done|].
    destruct (N.eqb_spec d RBRACKET) as [->|]; [|done].
    intros [= <-]. exists ws, rest. split; [simpl; by rewrite Hr at 1|].
    split; [done|]. rewrite Hr at 1. rewrite length_app. simpl. lia.
  - intros (ws & post & -> & Hws & ->). simpl.
    rewrite lstrip_spaces_app by done. simpl.
    rewrite length_app. simpl. f_equal. lia.
Qed.

Lemma greedy_close_spec s :
  match greedy_close s with
  | Some e => exists q n, close_here (drop q s) = Some n /\ e = (q + n)%nat
                          /\ forall q' n', close_here (drop q' s) = Some n' ->
                                           (q' <= q)%nat
  | None => forall q, close_here (drop q s) = None
  end.
Proof.
  induction s as [|c r IH]; cbn [greedy_close].
  - intros q. by rewrite drop_nil.
  - destruct (greedy_close r) as [e|].
    + destruct IH as (q & n & Hq & -> & Hmax). exists (S q), n.
      split; [done|]. split; [lia|]. intros [|q'] n' Hq'; [lia|].
      simpl in Hq'. apply Hmax in Hq'. lia.
    + destruct (close_here (c :: r)) as [n|] eqn:Hc.
      * exists 0%nat, n. split; [done|]. split; [done|].
        intros [|q'] n' Hq'; [lia|]. simpl in Hq'. by rewrite IH in Hq'.
      * intros [|q]; [done|]. apply IH.
Qed.

(** A later closing place ends later: between a closing brace and the
    bracket that follows it there is only whitespace. *)
Lemma close_here_monotone s q1 n1 q2 n2 :
  close_here (drop q1 s) = Some n1 -> close_here (drop q2 s) = Some n2 ->
  (q1 <= q2)%nat -> (q1 + n1 <= q2 + n2)%nat.
Proof.
  intros H1 H2 Hq. destruct (decide (q1 = q2)) as [->|Hne].
  { rewrite H1 in H2. injection H2 as ->. lia. }
  apply close_here_spec in H1 as (ws1 & post1 & Hs1 & Hws1 & ->).
  apply close_here_spec in H2 as (ws2 & post2 & Hs2 & _ & ->).
  assert (Hb : drop q1 s !! (q2 - q1)%nat = Some RBRACE).
  { rewrite lookup_drop. replace (q1 + (q2 - q1))%nat with (q2 + 0)%nat by lia.
    rewrite <- lookup_drop, Hs2. reflexivity. }
  rewrite Hs1 in Hb.
  destruct (q2 - q1)%nat as [|i] eqn:Hi; [lia|]. simpl in Hb.
  destruct (decide (i < length ws1)%nat).
  { rewrite lookup_app_l in Hb by done. apply list_elem_of_lookup_2 in Hb.
    eapply Forall_forall in Hws1; [|exact Hb]. done. }
  rewrite lookup_app_r in Hb by lia.
  destruct (i - length ws1)%nat as [|k] eqn:Hk; [done|]. lia.
Qed.

Lemma shape_prefix_match s m post :
  s = m ++ post -> array_shape m ->
  exists n, array_match_here s = Some n /\ (length m <= n)%nat.
Proof.
  intros -> (ws1 & body & ws2 & -> & Hws1 & Hws2).
  set (B := body ++ RBRACE :: ws2 ++ RBRACKET :: post).
  assert (Hs : ([LBRACKET] ++ ws1 ++ [LBRACE] ++ body ++ [RBRACE] ++ ws2
                ++ [RBRACKET]) ++ post = LBRACKET :: ws1 ++ LBRACE :: B).
  { unfold B. simpl. repeat (rewrite <- app_assoc; simpl). reflexivity. }
  rewrite Hs. unfold array_match_here. rewrite N.eqb_refl.
  rewrite lstrip_spaces_app by done.
  rewrite lstrip_nonspace by reflexivity. rewrite N.eqb_refl.
  assert (Hclose : close_here (drop (length body) B) = Some (2 + length ws2)%nat).
  { unfold B. rewrite drop_app_length. apply close_here_spec.
    exists ws2, post. by repeat split. }
  pose proof (greedy_close_spec B) as Hg.
  destruct (greedy_close B) as [e|]; [|by rewrite Hg in Hclose].
  destruct Hg as (q & n & Hq & -> & Hmax).
  eexists. split; [reflexivity|].
  pose proof (Hmax _ _ Hclose) as Hle.
  pose proof (close_here_monotone B _ _ _ _ Hclose Hq Hle).
  repeat first [rewrite length_app | progress simpl]. lia.
Qed.

Lemma array_match_here_shape s n :
  array_match_here s = Some n ->
  exists post, s = take n s ++ post /\ array_shape (take n s).
Proof.
  unfold array_match_here. destruct s as [|c r]; [done|].
  destruct (N.eqb_spec c LBRACKET) as [->|]; [|done].
  destruct (lstrip_spec r) as (ws1 & Hr & Hws1 & _).
  destruct (lstrip r) as [|d B] eqn:Hl; [done|].
  destruct (N.eqb_spec d LBRACE) as [->|]; [|done].
  pose proof (greedy_close_spec B) as Hg.
  destruct (greedy_close B) as [e|]; [|done].
  destruct Hg as (q & n0 & Hq & -> & _). intros [= <-].
  apply close_here_spec in Hq as (ws2 & post & HB & Hws2 & ->).
  assert (HB' : B = take q B ++ [RBRACE] ++ ws2 ++ [RBRACKET] ++ post)
    by (rewrite <- HB; symmetry; apply take_drop).
  assert (Hq : (q <= length B)%nat).
  { destruct (decide (q <= length B)%nat); [done|].
    rewrite drop_ge in HB by lia. done. }
  set (m := [LBRACKET] ++ ws1 ++ [LBRACE] ++ take q B ++ [RBRACE] ++ ws2
              ++ [RBRACKET]).
  assert (Hs : LBRACKET :: r = m ++ post).
  { unfold m. rewrite Hr at 1. rewrite HB' at 1.
    repeat first [rewrite <- app_assoc | rewrite <- app_comm_cons
                 | progress simpl].
    reflexivity. }
  match goal with
  | |- context [take ?n _] => replace n with (length m)
  end.
  2:{ unfold m. rewrite Hr at 1.
      repeat first [rewrite length_app | rewrite length_take | progress simpl].
      lia. }
  rewrite Hs, take_app_length. exists post. split; [done|].
  exists ws1, (take q B), ws2. by repeat split.
Qed.

Lemma array_shape_length m : array_shape m -> (4 <= length m)%nat.
Proof.
  intros (ws1 & body & ws2 & -> & _).
  repeat first [rewrite length_app | progress simpl]. lia.
Qed.

Lemma occurs_at_zero_prefix sub s :
  occurs_at sub s 0 <-> exists post, s = sub ++ post.
Proof. by rewrite occurs_at_zero, startswith_spec. Qed.

(** [JSON_ARRAY_EXTRACT.search] returns the leftmost region of the array
    shape, taken as far as it reaches, and nothing only when the text has
    no region of that shape. *)
Lemma JSON_ARRAY_EXTRACT_search_spec txt :
  match JSON_ARRAY_EXTRACT_search txt with
  | Some m => leftmost_longest_array txt m
  | None => forall m' j', occurs_at m' txt j' -> ~ array_shape m'
  end.
Proof.
  induction txt as [|c r IH].
  - simpl. intros m' j' (pre & post & Hs & _) Hm.
    apply array_shape_length in Hm.
    symmetry in Hs. apply app_eq_nil in Hs as [_ Hs].
    apply app_eq_nil in Hs as [-> _]. simpl in Hm. lia.
  - cbn [JSON_ARRAY_EXTRACT_search].
    destruct (array_match_here (c :: r)) as [n|] eqn:Hn.
    + apply array_match_here_shape in Hn as Hshape.
      destruct Hshape as (post & Hs & Hm).
      exists 0. split; [apply occurs_at_zero_prefix; eauto|]. split; [done|].
      intros m' j' Hocc Hm'. pose proof (occurs_at_nonneg _ _ _ Hocc).
      destruct (decide (j' = 0)) as [->|]; [|lia]. right. split; [done|].
      apply occurs_at_zero_prefix in Hocc as [post' Hs'].
      destruct (shape_prefix_match _ _ _ Hs' Hm') as (n' & Hn' & Hle).
      rewrite Hn in Hn'. injection Hn' as <-.
      apply (f_equal length) in Hs'. rewrite length_app in Hs'.
      unfold len. rewrite length_take. lia.
    + assert (Hno0 : forall m', occurs_at m' (c :: r) 0 -> ~ array_shape m').
      { intros m' Hocc Hm'. apply occurs_at_zero_prefix in Hocc as [post' Hs'].
        destruct (shape_prefix_match _ _ _ Hs' Hm') as (n' & Hn' & _).
        congruence. }
      destruct (JSON_ARRAY_EXTRACT_search r) as [m|].
      * destruct IH as (j & Hocc & Hm & Hbest).
        pose proof (occurs_at_nonneg _ _ _ Hocc).
        exists (j + 1). split.
        { apply occurs_at_cons; [lia|]. by replace (j + 1 - 1) with j by lia. }
        split; [done|]. intros m' j' Hocc' Hm'.
        pose proof (occurs_at_nonneg _ _ _ Hocc').
        destruct (decide (j' = 0)) as [->|]; [by apply Hno0 in Hocc'|].
        apply occurs_at_cons in Hocc'; [|lia].
        destruct (Hbest _ _ Hocc' Hm') as [?|[? ?]]; [left; lia | right; lia].
      * intros m' j' Hocc' Hm'.
        pose proof (occurs_at_nonneg _ _ _ Hocc').
        destruct (decide (j' = 0)) as [->|]; [by apply Hno0 in Hocc'|].
        apply occurs_at_cons in Hocc'; [|lia]. by apply IH in Hocc'.
Qed.

Lemma JSON_ARRAY_EXTRACT_search_decoded txt :
  decoded_text txt (default txt (JSON_ARRAY_EXTRACT_search txt)).
Proof.
  pose proof (JSON_ARRAY_EXTRACT_search_spec txt) as Hs.
  destruct (JSON_ARRAY_EXTRACT_search txt); [by left | by right].
Qed.

Lemma occurs_at_same_place (m1 m2 s : str) j :
  occurs_at m1 s j -> occurs_at m2 s j -> len m1 = len m2 -> m1 = m2.
Proof.
  intros (pre1 & post1 & Hs1 & Hl1) (pre2 & post2 & Hs2 & Hl2) Hlen.
  rewrite Hs1 in Hs2. apply app_inj_1 in Hs2 as [_ Hs2];
    [|unfold len in *; lia].
  apply app_inj_1 in Hs2 as [Hm _]; [done | unfold len in *; lia].
Qed.

Lemma decoded_text_unique txt r1 r2 :
  decoded_text txt r1 -> decoded_text txt r2 -> r1 = r2.
Proof.
  intros [(j1 & Ho1 & Hm1 & Hb1) | [Hn1 ->]] [(j2 & Ho2 & Hm2 & Hb2) | [Hn2 ->]].
  - destruct (Hb1 _ _ Ho2 Hm2) as [?|[? ?]], (Hb2 _ _ Ho1 Hm1) as [?|[? ?]];
      try lia.
    subst j2. eapply occurs_at_same_place; [done | done | lia].
  - by apply Hn2 in Ho1.
  - by apply Hn1 in Ho2.
  - done.
Qed.

(** ** The fence markers *)

Lemma skip_letters_stop letters c rest :
  Forall (fun x => isalpha_ascii x = true) letters -> isalpha_ascii c = false ->
  skip_letters (letters ++ c :: rest) = c :: rest.
Proof.
  intros Hl Hc. induction Hl as [|x letters Hx _ IH]; simpl.
  - by rewrite Hc.
  - by rewrite Hx.
Qed.

(** A text without the opening marker is left as it is; a text between
    an opening marker with a language tag and a closing marker is reduced
    to what lies between them. *)
Lemma strip_fence_plain txt :
  startswith [BACKTICK; BACKTICK; BACKTICK] txt = false -> strip_fence txt = txt.
Proof. unfold strip_fence. by intros ->. Qed.

Lemma strip_fence_fenced letters body :
  Forall (fun x => isalpha_ascii x = true) letters ->
  strip_fence ([BACKTICK; BACKTICK; BACKTICK] ++ letters ++ [LF] ++ body
               ++ [LF; BACKTICK; BACKTICK; BACKTICK])
  = body.
Proof.
  intros Hl. unfold strip_fence.
  replace (startswith _ _) with true by reflexivity.
  unfold sub_fence_open. replace (startswith _ _) with true by reflexivity.
  replace (drop 3 _) with (letters ++ LF :: body
                           ++ [LF; BACKTICK; BACKTICK; BACKTICK]) by reflexivity.
  rewrite skip_letters_stop by done. rewrite N.eqb_refl.
  unfold sub_fence_close, endswith. cbv zeta.
  rewrite rev_app_distr.
  replace (startswith _ _) with true by reflexivity.
  rewrite length_app. simpl.
  replace (length body + 4 - 4)%nat with (length body) by lia.
  by rewrite take_app_length.
Qed.

(** ** The parsers *)

(** C9, as stated, fails for the array parser: the text
    [[{"a":1}], 2] decodes as it is, to a list of two elements, and the
    code returns the inner list the pattern search cut out of it. *)
Lemma safe_json_loads_searches_before_decoding :
  json_loads (Runtime := Ref.runtime)
    (strip_fence (strip (Sample.quoted "[[{'a':1}], 2]")))
  = Ok (JArr [JArr [JObj [(lit "a", JInt 1)]]; JInt 2])
  /\ _safe_json_loads (H := Ref.runtime) (Sample.quoted "[[{'a':1}], 2]")
     = Ok (Some [JObj [(lit "a", JInt 1)]])
  /\ ~ direct_decoding_first (H := Ref.runtime).
Proof.
  split; [vm_compute; reflexivity|]. split; [vm_compute; reflexivity|].
  intros Hd.
  specialize (Hd (Sample.quoted "[[{'a':1}], 2]") _ eq_refl).
  vm_compute in Hd. discriminate Hd.
Qed.

(** The object parser has no search at all: a text with prose before the
    object gives [None], though the object decodes. *)
Example safe_json_object_does_not_search :
  _safe_json_object (H := Ref.runtime) (Sample.quoted "x {'a': 1}") = Ok None
  /\ json_loads (Runtime := Ref.runtime) (Sample.quoted "{'a': 1}")
     = Ok (JObj [(lit "a", JInt 1)])
  /\ ~ object_region_decoded (H := Ref.runtime).
Proof.
  split; [vm_compute; reflexivity|]. split; [vm_compute; reflexivity|].
  intros Hd.
  destruct (Hd (Sample.quoted "x {'a': 1}") (Sample.quoted "{'a': 1}") 2
              [(lit "a", JInt 1)]) as [m' Hm'].
  - exists (lit "x "), []. split; [vm_compute; reflexivity | reflexivity].
  - vm_compute. reflexivity.
  - vm_compute in Hm'. discriminate Hm'.
Qed.

(** C9 (amended): with a decoder that fails only by exceptions deriving
    from [Exception], neither parser raises.  [_safe_json_loads] strips
    whitespace and the fence markers, then, before any decoding, narrows
    the text to the leftmost region of the shape [ { ... } ] taken to the
    last closing brace-and-bracket when there is one, decodes the result
    once, and returns the value when it is a list, [None] otherwise.
    [_safe_json_object] strips whitespace and the fence markers, decodes
    the result once, and returns the decoded value when it is an object,
    [None] otherwise; an exception of the decoder gives [None] in both. *)
Theorem safe_json_parsers_policy `{Runtime} (raw : str) :
  loads_well_behaved ->
  (exists r, _safe_json_loads raw = Ok r)
  /\ (exists r, _safe_json_object raw = Ok r)
  /\ (forall letters body,
        Forall (fun x => isalpha_ascii x = true) letters ->
        strip_fence ([BACKTICK; BACKTICK; BACKTICK] ++ letters ++ [LF] ++ body
                     ++ [LF; BACKTICK; BACKTICK; BACKTICK]) = body)
  /\ (forall region,
        decoded_text (strip_fence (strip raw)) region ->
        forall r, _safe_json_loads raw = Ok r
                  <-> r = match json_loads region with
                          | Ok (JArr l) => Some l
                          | _ => None
                          end)
  /\ (forall m, json_loads (strip_fence (strip raw)) = Ok (JObj m) ->
                _safe_json_object raw = Ok (Some m))
  /\ (forall r, _safe_json_object raw = Ok r
                <-> r = match json_loads (strip_fence (strip raw)) with
                        | Ok (JObj m) => Some m
                        | _ => None
                        end).
Proof.
  intros Hwb. split; [by apply safe_json_loads_returns|].
  split; [by apply safe_json_object_returns|].
  split; [apply strip_fence_fenced|]. split.
  - intros region Hreg r.
    pose proof (JSON_ARRAY_EXTRACT_search_decoded (strip_fence (strip raw)))
      as Hsel.
    rewrite (decoded_text_unique _ _ _ Hreg Hsel).
    unfold _safe_json_loads. cbv zeta.
    replace (match JSON_ARRAY_EXTRACT_search (strip_fence (strip raw)) with
             | Some m => m
             | None => strip_fence (strip raw)
             end)
      with (default (strip_fence (strip raw))
              (JSON_ARRAY_EXTRACT_search (strip_fence (strip raw))))
      by (by destruct (JSON_ARRAY_EXTRACT_search _)).
    specialize (Hwb (default (strip_fence (strip raw))
                       (JSON_ARRAY_EXTRACT_search (strip_fence (strip raw))))).
    destruct (json_loads _) as [v|e|]; simpl in *; [| |done].
    + split; [by intros [= <-] | by intros ->].
    + rewrite Hwb. split; [by intros [= <-] | by intros ->].
  - split.
    + intros m Hm. unfold _safe_json_object. cbv zeta. by rewrite Hm.
    + intros r. unfold _safe_json_object. cbv zeta.
      specialize (Hwb (strip_fence (strip raw))).
      destruct (json_loads _) as [v|e|]; simpl in *; [| |done].
      * split; [by intros [= <-] | by intros ->].
      * rewrite Hwb. split; [by intros [= <-] | by intros ->].
Qed.

Lemma safe_json_parsers_policy_witness :
  @loads_well_behaved Ref.runtime
  /\ (exists r, _safe_json_loads (H := Ref.runtime)
                  (Sample.quoted "[[{'a':1}], 2]") = Ok r)
  /\ (exists r, _safe_json_object (H := Ref.runtime)
                  (Sample.quoted "[[{'a':1}], 2]") = Ok r)
  /\ json_loads (Runtime := Ref.runtime) (lit "{oops") = Raise JSONDecodeError
  /\ _safe_json_object (H := Ref.runtime) (lit "{oops") = Ok None.
Proof.
  split; [exact ref_loads_well_behaved|].
  pose proof (safe_json_parsers_policy (H := Ref.runtime)
                (Sample.quoted "[[{'a':1}], 2]") ref_loads_well_behaved)
    as (Ha & Ho & _).
  split; [exact Ha|]. split; [exact Ho|]. split; [reflexivity|].
  pose proof (safe_json_parsers_policy (H := Ref.runtime)
                (lit "{oops") ref_loads_well_behaved)
    as (_ & _ & _ & _ & _ & Hobj).
  apply Hobj. reflexivity.
Defined.

(** ** Spans of the two paths *)

(** What the oracle path guarantees of a span: it starts at or after the
    window start and ends at or before the window end; the end is not
    before the start as long as the start lies in the window. *)
Lemma reconcile_span_bounds ls le start_idx end_idx chunk_size text_len sp :
  reconcile_span ls le start_idx end_idx chunk_size text_len = Ok sp ->
  start_idx <= sp.1 /\ sp.2 <= start_idx + chunk_size
  /\ (sp.1 <= start_idx + chunk_size -> sp.1 <= sp.2).
Proof.
  unfold reconcile_span.
  destruct (_detect_global_span ls _ _ _) as [gs| |]; [|done..].
  destruct (_detect_global_span le _ _ _) as [ge| |]; [|done..].
  cbn [mbind outcome_bind obind]. cbv zeta. intros [= <-]. simpl.
  repeat match goal with
         | |- context [if ?a <? ?b then _ else _] => destruct (Z.ltb_spec a b)
         | |- context [if ?a <=? ?b then _ else _] => destruct (Z.leb_spec a b)
         end; lia.
Qed.

(** A cut of the fallback path lies in its window. *)
Lemma fallback_panel_in_window `{Runtime} normalized start_idx chunk_size n
    sp p :
  span_ok normalized sp -> len normalized <= chunk_size ->
  fallback_panel start_idx chunk_size n sp = Ok (Some p) ->
  panel_source_span p = (start_idx + sp.1.1, start_idx + sp.1.2)
  /\ panel_text p = sp.2
  /\ start_idx <= (panel_source_span p).1 <= (panel_source_span p).2
  /\ (panel_source_span p).2 <= start_idx + chunk_size.
Proof.
  destruct sp as [[a b] seg]. intros (Ha & Hab & Hb & Hseg & Hstrip) Hlen.
  simpl in *. unfold fallback_panel. rewrite Hstrip.
  assert (Hl : len seg = b - a) by (rewrite Hseg; apply len_slice; lia).
  destruct seg as [|c seg'] eqn:Es; [unfold len in Hl; simpl in Hl; lia|].
  rewrite <- Es in *.
  destruct (sha1_of_utf8 seg); simpl; try discriminate.
  intros [= <-]. simpl. rewrite Hl.
  replace (Z.min (start_idx + a + (b - a)) (start_idx + chunk_size))
    with (start_idx + b) by lia.
  repeat split; lia.
Qed.

(** ** Texts without carriage return *)

Lemma replace_go_absent old new s c0 rest :
  old = c0 :: rest -> Forall (fun c => c <> c0) s ->
  replace_go old new O s = s.
Proof.
  intros -> Hs. induction Hs as [|c s Hc _ IH]; simpl; [done|].
  destruct (N.eqb_spec c0 c) as [->|]; [done|]. simpl. by rewrite IH.
Qed.

Lemma normalize_no_carriage_return text :
  no_carriage_return text -> normalize_newlines text = text.
Proof.
  intros Ht. unfold normalize_newlines, replace.
  rewrite (replace_go_absent [CR; LF] [LF] text CR [LF]) by done.
  by rewrite (replace_go_absent [CR] [LF] text CR []).
Qed.

(** ** Windows *)



(** One iteration for a positive size: the window is not empty, lies in
    the text and is at most [window] long, whatever the threshold. *)
Lemma chunk_body_spec t window overlap i cuts cuts' next :
  0 < window -> 0 <= overlap -> 0 <= i < len t ->
  chunk_body t window overlap i cuts = Ok (cuts', next) ->
  exists e,
    i < e <= len t /\ e <= i + window
    /\ cuts' = cuts ++ [Chunk i e]
    /\ match next with
       | Some next => i < next <= e /\ e < len t
       | None => e = len t
       end.
Proof.
  intros Hw Ho Hi Hb.
  apply chunk_body_inv in Hb as (threshold & Ht & Hcuts & Hnext).
  apply half_window_pos in Ht as [Ht0 Ht1]; [|done].
  cbv zeta in Hcuts, Hnext.
  set (proposed := Z.min (i + window) (len t)) in *.
  set (w := slice t i proposed) in *.
  assert (Hlw : len w = proposed - i) by (apply len_slice; unfold proposed; lia).
  set (e := if threshold <=? rfind w [LF; LF] then _ else _) in *.
  assert (He : i < e <= len t /\ e <= i + window).
  { subst e. destruct (Z.leb_spec threshold (rfind w [LF; LF])).
    - destruct (rfind_bounds w [LF; LF]) as [Hb|Hb]; [|lia].
      unfold len in Hb at 2. simpl in Hb.
      assert (2 <= window) by (unfold proposed in *; lia).
      specialize (Ht1 ltac:(lia)). unfold proposed in *. lia.
    - unfold proposed. lia. }
  exists e. split; [lia|]. split; [lia|]. split; [done|]. subst next.
  destruct (Z.leb_spec (len t) e); lia.
Qed.

Lemma chunk_loop_covers fuel t window overlap i cuts out :
  0 < window -> 0 <= overlap -> 0 <= i ->
  Forall (chunk_ok (len t)) cuts ->
  (forall k, 0 <= k < i -> in_chunk cuts k) ->
  chunk_loop fuel t window overlap i cuts = Ok out ->
  Forall (chunk_ok (len t)) out
  /\ forall k, 0 <= k < len t -> in_chunk out k.
Proof.
  intros Hw Ho. revert i cuts.
  induction fuel as [|fuel IH]; intros i cuts Hi Hok Hcov; cbn [chunk_loop].
  - destruct (Z.ltb_spec i (len t)); [done|]. intros [= <-].
    split; [done|]. intros k Hk. apply Hcov. lia.
  - destruct (Z.ltb_spec i (len t)).
    2:{ intros [= <-]. split; [done|]. intros k Hk. apply Hcov. lia. }
    destruct (chunk_body t window overlap i cuts) as [[cuts' next]| |] eqn:Hb;
      [|done..].
    destruct (chunk_body_spec t window overlap i cuts cuts' next Hw Ho ltac:(lia) Hb)
      as (e & He & _ & -> & Hnext).
    cbn [mbind outcome_bind obind].
    assert (Hok' : Forall (chunk_ok (len t)) (cuts ++ [Chunk i e])).
    { apply Forall_app. split; [done|]. constructor; [|constructor].
      unfold chunk_ok. simpl. lia. }
    assert (Hcov' : forall k, 0 <= k < e -> in_chunk (cuts ++ [Chunk i e]) k).
    { intros k Hk. destruct (Z.lt_ge_cases k i).
      - destruct (Hcov k ltac:(lia)) as (c & Hc & Hkc). exists c.
        split; [|done]. apply elem_of_app. by left.
      - exists (Chunk i e). split; [|simpl; lia].
        apply elem_of_app. right. by left. }
    destruct next as [next|].
    + apply IH; [lia | done |]. intros k Hk. apply Hcov'. lia.
    + intros [= <-]. split; [done|]. subst e. done.
Qed.

(** For a positive size and an overlap that is not negative, the windows
    are not empty, lie in the text and leave no gap. *)
Lemma chunk_for_llm_covers text window overlap chunks :
  0 < window -> 0 <= overlap ->
  chunk_for_llm text window overlap = Ok chunks ->
  Forall (chunk_ok (len (normalize_newlines text))) chunks
  /\ forall k, 0 <= k < len (normalize_newlines text) -> in_chunk chunks k.
Proof.
  intros Hw Ho. unfold chunk_for_llm.
  apply chunk_loop_covers; [done | done | lia | constructor | intros; lia].
Qed.

(** ** The run in which every window falls back *)

Lemma slice_slice {A} (s : list A) a b i j :
  0 <= a -> a <= b -> b <= len s -> 0 <= i -> i <= j -> j <= b - a ->
  slice (slice s a b) i j = slice s (a + i) (a + j).
Proof.
  intros Ha Hab Hb Hi Hij Hj.
  pose proof (len_slice s a b Ha Hab Hb) as Hl.
  rewrite (slice_inside (slice s a b)) by lia.
  rewrite (slice_inside s a b) by lia. rewrite (slice_inside s) by lia.
  rewrite skipn_firstn_comm, take_take, drop_drop.
  f_equal; [lia | f_equal; lia].
Qed.

Lemma spaces_of_no_nonspace s :
  (forall k, ~ nonspace_at s k) -> spaces s.
Proof.
  intros Hno. apply Forall_lookup. intros i c Hc.
  destruct (isspace c) eqn:Hsp; [done|]. exfalso.
  apply (Hno (Z.of_nat i)). split; [lia|]. exists c.
  by rewrite Nat2Z.id.
Qed.

Lemma strip_spaces s : spaces s -> strip s = [].
Proof.
  intros Hs. unfold strip, rstrip.
  rewrite (lstrip_spaces (rev s)) by (by apply spaces_rev). done.
Qed.

Lemma fallback_panel_emits `{Runtime} normalized start_idx chunk_size n sp :
  span_ok normalized sp -> encodable normalized ->
  exists p, fallback_panel start_idx chunk_size n sp = Ok (Some p).
Proof.
  intros Hok Henc. pose proof (encodable_span _ _ Henc Hok) as Hseg.
  destruct sp as [[a b] seg]. destruct Hok as (Ha & Hab & Hb & Hs & Hstrip).
  simpl in *. unfold fallback_panel. rewrite Hstrip.
  assert (Hl : len seg = b - a) by (rewrite Hs; apply len_slice; lia).
  destruct seg as [|c seg'] eqn:Es; [unfold len in Hl; simpl in Hl; lia|].
  rewrite <- Es in *. rewrite encodable_sha1 by done. simpl. eauto.
Qed.

Lemma emit_fallback_panels `{Runtime} normalized start_idx chunk_size spans s :
  Forall (span_ok normalized) spans -> encodable normalized ->
  len normalized <= chunk_size ->
  exists new,
    for_each spans (emit_fallback start_idx chunk_size) s
      = (Ok tt, State (panels s ++ new) (cut_counter s + len new))
    /\ Forall2 (cut_of_span start_idx) spans new.
Proof.
  intros Hok Henc Hlen. revert s.
  induction Hok as [|sp spans Hsp _ IH]; intros s.
  - exists []. simpl. unfold ret. rewrite app_nil_r.
    unfold len. simpl. rewrite Z.add_0_r. by destruct s.
  - destruct (fallback_panel_emits normalized start_idx chunk_size
                (cut_counter s) sp Hsp Henc) as [p Hp].
    destruct (fallback_panel_in_window normalized start_idx chunk_size
                (cut_counter s) sp p Hsp Hlen Hp) as (Hspan & Htext & _).
    cbn [for_each]. unfold bind at 1.
    unfold emit_fallback at 1, bind, read_counter, lift. simpl.
    rewrite Hp. simpl. unfold emit. simpl.
    destruct (IH (State (panels s ++ [p]) (cut_counter s + 1)))
      as (new & -> & Hnew).
    exists (p :: new). simpl. split.
    + rewrite <- app_assoc. simpl. rewrite len_cons. do 2 f_equal. lia.
    + constructor; [by split | done].
Qed.

Lemma oracle_path_unusable `{Runtime} client idx chunk_text a b c d s :
  oracle_unusable client ->
  exists e, is_Exception e = true
            /\ oracle_path client idx chunk_text a b c d s = (Raise e, s).
Proof.
  intros Hu. specialize (Hu idx chunk_text). unfold oracle_path, bind, lift.
  destruct (_call_llm_chunk client idx chunk_text) as [raw|e|]; [| eauto | done].
  destruct (_safe_json_loads raw) as [[[|item items]|]|e|]; try done.
  - exists ValueError. by split.
  - exists ValueError. by split.
Qed.

Lemma fallback_chunk_panels `{Runtime} client full_text cut_min cut_max idx ch s :
  oracle_unusable client -> no_carriage_return full_text ->
  encodable full_text -> 1 <= cut_min -> 1 <= cut_max ->
  chunk_ok (len full_text) ch ->
  exists new,
    process_chunk client full_text cut_min cut_max (idx, ch) s
      = (Ok tt, State (panels s ++ new) (cut_counter s + len new))
    /\ Forall (cut_of_window full_text ch) new
    /\ forall k, chunk_start ch <= k < chunk_end ch ->
                 nonspace_at full_text k ->
                 exists p, p ∈ new
                           /\ (panel_source_span p).1 <= k
                              < (panel_source_span p).2.
Proof.
  intros Hu Hcr Henc Hmin Hmax (Hs & Hse & He).
  unfold process_chunk, try_except_stmt.
  set (chunk_text := slice full_text (chunk_start ch) (chunk_end ch)).
  destruct (oracle_path_unusable client idx chunk_text (chunk_start ch)
              (chunk_end ch) (chunk_end ch - chunk_start ch) cut_max s Hu)
    as (e & Hex & ->).
  rewrite Hex. unfold fallback_path.
  unfold bind at 1. rewrite reraise_is_caught by done.
  assert (Hlen : len chunk_text = chunk_end ch - chunk_start ch)
    by (apply len_slice; lia).
  assert (Hnorm : normalize_newlines chunk_text = chunk_text)
    by (apply normalize_no_carriage_return; by apply slice_sublist).
  destruct (split_fallback_chunk_returns chunk_text cut_min cut_max Hmax)
    as [spans Hspans].
  destruct (split_fallback_chunk_spec chunk_text cut_min cut_max spans
              Hmax Hspans) as [Hok Hcov].
  rewrite Hnorm in Hok, Hcov. specialize (Hcov Hmin).
  unfold bind at 1, lift at 1. rewrite Hspans.
  assert (Hencc : encodable chunk_text) by (by apply slice_sublist).
  assert (Hempty : spans = [] -> strip chunk_text = []).
  { intros ->. apply strip_spaces, spaces_of_no_nonspace.
    intros k Hk. destruct (Hcov k Hk) as (sp & Hin & _).
    by apply elem_of_nil in Hin. }
  destruct (emit_fallback_panels chunk_text (chunk_start ch)
              (chunk_end ch - chunk_start ch) spans s Hok Hencc ltac:(lia))
    as (new & Hrun & Hnew).
  exists new. split.
  { destruct spans as [|sp spans']; [rewrite (Hempty eq_refl)|]; exact Hrun. }
  split.
  - apply Forall_forall. intros p Hp.
    apply list_elem_of_lookup in Hp as [i Hp].
    destruct (Forall2_lookup_r _ _ _ _ _ Hnew Hp) as (sp & Hsp & Hspan & Htext).
    apply list_elem_of_lookup_2 in Hsp.
    eapply Forall_forall in Hok; [|exact Hsp].
    destruct sp as [[a b] seg]. destruct Hok as (Ha & Hab & Hb & Hseg & _).
    simpl in *. unfold cut_of_window, span_in_window.
    rewrite Hspan, Htext. simpl. split; [lia|].
    rewrite Hseg. unfold chunk_text. apply slice_slice; lia.
  - intros k Hk (Hk0 & c & Hkc & Hsp).
    destruct (Hcov (k - chunk_start ch)) as (sp & Hin & Hcover).
    { split; [lia|]. exists c. split; [|done]. unfold chunk_text.
      replace (Z.to_nat (k - chunk_start ch))
        with (Z.to_nat (k - chunk_start ch) + 0)%nat by lia.
      rewrite slice_lookup by lia. rewrite <- Hkc. f_equal. lia. }
    apply list_elem_of_lookup in Hin as [i Hi].
    destruct (Forall2_lookup_l _ _ _ _ _ Hnew Hi) as (p & Hp & Hspan & _).
    exists p. split; [by eapply list_elem_of_lookup_2|].
    rewrite Hspan. simpl. lia.
Qed.

Lemma fallback_run_chunks `{Runtime} client full_text cut_min cut_max ichs s :
  oracle_unusable client -> no_carriage_return full_text ->
  encodable full_text -> 1 <= cut_min -> 1 <= cut_max ->
  Forall (fun ich : Z * chunk => chunk_ok (len full_text) ich.2) ichs ->
  exists new,
    for_each ichs (process_chunk client full_text cut_min cut_max) s
      = (Ok tt, State (panels s ++ new) (cut_counter s + len new))
    /\ Forall (fun p => exists ich, ich ∈ ichs
                                    /\ cut_of_window full_text ich.2 p) new
    /\ forall ich k, ich ∈ ichs ->
         chunk_start ich.2 <= k < chunk_end ich.2 ->
         nonspace_at full_text k ->
         exists p, p ∈ new
                   /\ (panel_source_span p).1 <= k < (panel_source_span p).2.
Proof.
  intros Hu Hcr Henc Hmin Hmax Hok. revert s.
  induction Hok as [|[idx ch] ichs Hch _ IH]; intros s.
  - exists []. simpl. unfold ret. rewrite app_nil_r. unfold len. simpl.
    rewrite Z.add_0_r. split; [by destruct s|]. split; [constructor|].
    intros ich k Hin. by apply elem_of_nil in Hin.
  - destruct (fallback_chunk_panels client full_text cut_min cut_max idx ch s
                Hu Hcr Henc Hmin Hmax Hch) as (new1 & Hrun1 & Hin1 & Hcov1).
    cbn [for_each]. unfold bind at 1. rewrite Hrun1.
    destruct (IH (State (panels s ++ new1) (cut_counter s + len new1)))
      as (new2 & -> & Hin2 & Hcov2).
    exists (new1 ++ new2). simpl. split.
    { rewrite <- app_assoc, len_app. do 2 f_equal. lia. }
    split.
    + apply Forall_app. split.
      * eapply Forall_impl; [exact Hin1|]. intros p Hp.
        exists (idx, ch). split; [left | done].
      * eapply Forall_impl; [exact Hin2|]. intros p (ich & Hich & Hp).
        exists ich. split; [by right | done].
    + intros ich k Hich Hk Hns. apply elem_of_cons in Hich as [->|Hich].
      * destruct (Hcov1 k Hk Hns) as (p & Hp & Hspan). exists p.
        split; [apply elem_of_app; by left | done].
      * destruct (Hcov2 ich k Hich Hk Hns) as (p & Hp & Hspan). exists p.
        split; [apply elem_of_app; by right | done].
Qed.

Lemma elem_of_enumerate {A} (start : Z) (l : list A) ix :
  ix ∈ enumerate start l <-> exists i, l !! i = Some ix.2
                                       /\ ix.1 = start + Z.of_nat i.
Proof.
  unfold enumerate. rewrite list_elem_of_lookup. split.
  - intros [i Hi]. rewrite list_lookup_imap in Hi.
    destruct (l !! i) as [x|] eqn:Hx; [|done]. simpl in Hi.
    injection Hi as <-. eauto.
  - intros (i & Hi & Hidx). exists i. rewrite list_lookup_imap, Hi. simpl.
    destruct ix. simpl in *. by subst.
Qed.

(** With line endings normalised and the oracle unusable for every window,
    the fallback cuts cover every character of the source text that is not
    whitespace; each cut lies in one of the windows, with
    [start <= end], and its text is the source text at its span.  (The
    target and the window size are below [2^1020].) *)
Theorem fallback_run_covers_text `{Runtime} (client : Client)
    (full_text : str) (chunk_target window overlap : Z) :
  oracle_unusable client -> no_carriage_return full_text ->
  encodable full_text -> 0 < window -> 0 <= overlap ->
  chunk_target < 2 ^ 1020 -> window < 2 ^ 1020 ->
  exists chunks ps,
    chunk_for_llm full_text window overlap = Ok chunks
    /\ llm_cut_and_label_with_params client full_text chunk_target window
         overlap = Ok ps
    /\ covers_text full_text ps
    /\ Forall (fun p => exists ch, ch ∈ chunks
                                   /\ cut_of_window full_text ch p) ps.
Proof.
  intros Hu Hcr Henc Hw Ho Ht Hwb.
  destruct (chunk_for_llm_returns full_text window overlap ltac:(lia))
    as [chunks Hchunks].
  destruct (chunk_for_llm_covers full_text window overlap chunks Hw Ho Hchunks)
    as [Hok Hcov].
  rewrite (normalize_no_carriage_return full_text Hcr) in Hok, Hcov.
  exists chunks. unfold llm_cut_and_label_with_params.
  destruct (derive_cut_parameters_returns chunk_target Ht)
    as [[[[cmin cmax] tmin] tmax] Hd].
  rewrite Hd. apply derive_cut_parameters_bounds in Hd. rewrite Hchunks. simpl.
  destruct (fallback_run_chunks client full_text cmin cmax
              (enumerate 1 chunks) (State [] 1) Hu Hcr Henc
              ltac:(lia) ltac:(lia)) as (new & -> & Hin & Hcover).
  { apply Forall_forall. intros ix Hix.
    apply elem_of_enumerate in Hix as (i & Hi & _).
    eapply Forall_forall in Hok; [exact Hok|].
    by eapply list_elem_of_lookup_2. }
  simpl. exists new. split; [done|]. split; [done|]. split.
  - intros k c Hk Hkc Hsp.
    assert (Hlt : k < len full_text).
    { apply lookup_lt_Some in Hkc. unfold len. lia. }
    destruct (Hcov k ltac:(lia)) as (ch & Hch & Hkch).
    apply list_elem_of_lookup in Hch as [i Hi].
    destruct (Hcover (1 + Z.of_nat i, ch) k) as (p & Hp & Hspan).
    + apply elem_of_enumerate. exists i. by split.
    + done.
    + split; [done|]. eauto.
    + by exists p.
  - eapply Forall_impl; [exact Hin|]. intros p (ix & Hix & Hp).
    apply elem_of_enumerate in Hix as (i & Hi & _).
    exists ix.2. split; [by eapply list_elem_of_lookup_2 | done].
Qed.

(** ** Sample clients and texts *)

Lemma encodable_ascii s : encodable (lit s).
Proof.
  unfold encodable, lit. apply Forall_forall. intros c Hc.
  apply list_elem_of_In, in_map_iff in Hc as (a & <- & _).
  pose proof (Ascii.nat_ascii_bounded a) as Ha.
  destruct (N.leb_spec 55296 (N.of_nat (Ascii.nat_of_ascii a))); [lia | done].
Qed.

Lemma first_window_only_well_behaved :
  client_well_behaved Sample.first_window_only.
Proof. intros idx txt. unfold Sample.first_window_only. by destruct (idx =? 1). Qed.

(** ** Sample runs *)

(** C1 (the code departs from it on the oracle path): in the window
    [0, 100) an item reported at [{start: 120, end: 130}] is emitted with
    the span [(120, 100)]: its start lies past the end of the window and
    its end before its start. *)
Theorem oracle_span_leaves_window :
  chunk_for_llm Sample.hundred_a WINDOW OVERLAP = Ok [Chunk 0 100]
  /\ Sample.summaries
       (llm_cut_and_label_with_params (H := Ref.runtime) Sample.overshooting
          Sample.hundred_a TARGET_MIN WINDOW OVERLAP)
     = Ok [(lit "c0001", lit "abc", (120, 100))]
  /\ ~ span_in_window (Chunk 0 100) (120, 100).
Proof.
  split; [vm_compute; reflexivity|]. split; [vm_compute; reflexivity|].
  unfold span_in_window. simpl. lia.
Qed.

(** C2 (the code departs from it): with an oracle that answers every
    request with [AuthenticationError], the run over two windows returns
    the fallback cuts of both, and raises nothing. *)
Theorem authentication_error_is_swallowed :
  chunk_for_llm Sample.hello_world 8 2 = Ok [Chunk 0 8; Chunk 6 12]
  /\ Sample.summaries
       (llm_cut_and_label_with_params (H := Ref.runtime) Sample.unauthorized
          Sample.hello_world TARGET_MIN 8 2)
     = Ok [(lit "c0001", lit "hello wo", (0, 8));
           (lit "c0002", lit "world!", (6, 12))]
  /\ llm_cut_and_label_with_params (H := Ref.runtime) Sample.unauthorized
       Sample.hello_world TARGET_MIN 8 2 <> Raise AuthenticationError.
Proof.
  split; [vm_compute; reflexivity|]. split; [vm_compute; reflexivity|].
  vm_compute. discriminate.
Qed.

(** C3 (the code departs from it): on the text "a\r\nb" with the oracle
    down, the only cut is "a" at [(0, 1)]; the character "b", at offset 3,
    lies in no span. *)
Theorem crlf_text_loses_its_tail :
  Sample.summaries
    (llm_cut_and_label_with_params (H := Ref.runtime) Sample.unreachable
       Sample.crlf_text TARGET_MIN WINDOW OVERLAP)
  = Ok [(lit "c0001", lit "a", (0, 1))]
  /\ forall ps,
       llm_cut_and_label_with_params (H := Ref.runtime) Sample.unreachable
         Sample.crlf_text TARGET_MIN WINDOW OVERLAP = Ok ps ->
       ~ covers_text Sample.crlf_text ps.
Proof.
  split; [vm_compute; reflexivity|].
  intros ps Hps Hcov.
  assert (Hsum : Sample.summaries (Ok ps) = Ok [(lit "c0001", lit "a", (0, 1))]).
  { rewrite <- Hps. vm_compute. reflexivity. }
  clear Hps. injection Hsum as Hsum.
  destruct (Hcov 3 98%N) as (p & Hp & Hspan); [lia | reflexivity | reflexivity |].
  destruct ps as [|p0 [|p1 ps]]; try discriminate.
  apply list_elem_of_singleton in Hp as ->.
  injection Hsum as _ _ Hsp. rewrite Hsp in Hspan. simpl in Hspan. lia.
Qed.

(** The coverage theorem at work: the oracle down, the text "hello
    world!" in windows of 8 with an overlap of 2. *)
Example fallback_run_covers_hello_world :
  exists chunks ps,
    chunk_for_llm Sample.hello_world 8 2 = Ok chunks
    /\ llm_cut_and_label_with_params (H := Ref.runtime) Sample.unreachable
         Sample.hello_world TARGET_MIN 8 2 = Ok ps
    /\ covers_text Sample.hello_world ps
    /\ Forall (fun p => exists ch, ch ∈ chunks
                                   /\ cut_of_window Sample.hello_world ch p) ps.
Proof.
  apply (fallback_run_covers_text (H := Ref.runtime));
    [| | | lia | lia | reflexivity | reflexivity].
  - by intros idx txt.
  - unfold no_carriage_return. by repeat constructor.
  - apply encodable_ascii.
Qed.

(** ** Witnesses *)

Lemma cut_ids_consecutive_witness :
  @loads_well_behaved Ref.runtime
  /\ client_well_behaved Sample.first_window_only
  /\ encodable Sample.hello_world
  /\ TARGET_MIN < 2 ^ 1020 /\ - 2 ^ 1020 < 8 < 2 ^ 1020
  /\ exists ps,
       llm_cut_and_label_with_params (H := Ref.runtime)
         Sample.first_window_only Sample.hello_world TARGET_MIN 8 2 = Ok ps
       /\ map panel_id ps = consecutive_ids (length ps)
       /\ NoDup (map panel_id ps).
Proof.
  split; [exact ref_loads_well_behaved|].
  split; [exact first_window_only_well_behaved|].
  split; [apply encodable_ascii|].
  split; [reflexivity|]. split; [split; reflexivity|].
  apply (cut_ids_consecutive (H := Ref.runtime) Sample.first_window_only
           Sample.hello_world TARGET_MIN 8 2
           ref_loads_well_behaved first_window_only_well_behaved
           (encodable_ascii _)); [reflexivity | split; reflexivity].
Defined.

Example first_window_only_run :
  Sample.summaries
    (llm_cut_and_label_with_params (H := Ref.runtime)
       Sample.first_window_only Sample.hello_world TARGET_MIN 8 2)
  = Ok [(lit "c0001", lit "hello", (0, 5));
        (lit "c0002", lit "wo", (0, 1));
        (lit "c0003", lit "world!", (6, 12))].
Proof. vm_compute. reflexivity. Qed.

Lemma split_fallback_chunk_terminates_witness :
  1 <= 5
  /\ exists spans, _split_fallback_chunk Sample.hello_world 2 5 = Ok spans.
Proof.
  split; [lia|].
  apply (split_fallback_chunk_terminates Sample.hello_world 2 5). lia.
Defined.

Example split_fallback_chunk_sample :
  _split_fallback_chunk Sample.hello_world 2 5
  = Ok [(0, 5, lit "hello"); (6, 10, lit "worl"); (10, 12, lit "d!")].
Proof. vm_compute. reflexivity. Qed.

(** With [cut_max = 0] the cursor never moves: the loop does not end. *)
Example split_fallback_chunk_stuck fuel :
  fallback_loop fuel (lit "ab") 0 0 0 [] = Diverges.
Proof. induction fuel as [|fuel IH]; [reflexivity | exact IH]. Qed.

Lemma chunk_for_llm_snap_every_window_witness :
  0 < 6 /\ 6 < 2 ^ 53
  /\ exists chunks,
       chunk_for_llm Sample.paragraph_text 6 1 = Ok chunks
       /\ Forall (snapped_end (normalize_newlines Sample.paragraph_text) 6)
            chunks.
Proof.
  split; [lia|]. split; [lia|].
  apply (chunk_for_llm_snap_every_window Sample.paragraph_text 6 1); lia.
Defined.

(* ===================================================================== *)
(** * Part VII. Further properties of the module and of its callers       *)
(* ===================================================================== *)

(** ** Tools *)

Lemma in_order_nil {A} (R : A -> A -> Prop) : in_order R [].
Proof. intros i j x y _ Hx. destruct i; discriminate Hx. Qed.

Lemma in_order_snoc {A} (R : A -> A -> Prop) (l : list A) (x : A) :
  in_order R l -> Forall (fun y => R y x) l -> in_order R (l ++ [x]).
Proof.
  intros Hl Hx i j a b Hij Ha Hb.
  pose proof (lookup_lt_Some _ _ _ Hb) as Hj.
  rewrite length_app in Hj. simpl in Hj.
  destruct (decide (j < length l)%nat) as [Hlt|Hge].
  - rewrite lookup_app_l in Ha, Hb by lia. exact (Hl i j a b Hij Ha Hb).
  - assert (j = length l) as -> by lia.
    rewrite lookup_app_l in Ha by lia.
    rewrite lookup_app_r, Nat.sub_diag in Hb by lia. injection Hb as <-.
    eapply Forall_forall in Hx; [exact Hx|]. by eapply list_elem_of_lookup_2.
Qed.

Lemma strip_idempotent s : strip (strip s) = strip s.
Proof.
  destruct (strip_decompose s)
    as [(_ & -> & _) | (ws1 & core & ws2 & _ & _ & _ & _ & -> & _ & _ & Hcore)];
    done.
Qed.

Lemma sha1_of_utf8_digest `{Runtime} s d :
  sha1_of_utf8 s = Ok d -> d = sha1_hexdigest s.
Proof. unfold sha1_of_utf8. destruct (forallb _ s); [by intros [= <-] | done]. Qed.

Ltac bind_ok H x E :=
  match type of H with
  | mbind _ ?o = Ok _ =>
      destruct o as [x| |] eqn:E;
      [cbn [mbind outcome_bind obind] in H | discriminate H..]
  end.

(** ** More on the length policy *)

(** [int(z * c)] does not decrease when [z] grows: the conversion, the
    rounded product and the truncation are each monotone. *)
Lemma int_of_product_mono z1 z2 cn ce g1 g2 :
  0 <= z1 <= z2 -> 0 <= cn -> -1074 <= ce <= 0 ->
  int_of_product z1 (Finite cn ce) = Ok g1 ->
  int_of_product z2 (Finite cn ce) = Ok g2 ->
  g1 <= g2.
Proof.
  intros Hz Hcn Hce H1 H2.
  apply int_of_product_nonneg in H1; [|lia..].
  apply int_of_product_nonneg in H2; [|lia..]. subst g1 g2.
  apply Z.div_le_mono; [apply Z.pow_pos_nonneg; lia|].
  pose proof (round53_mono z1 z2 ltac:(lia)).
  pose proof (round53_nonneg z1 ltac:(lia)).
  apply round53_mono. nia.
Qed.

(** [int(z * c) >= int(z0 * c)] read at a constant [z0]. *)
Lemma int_of_product_lower z0 z cn ce g :
  0 <= z0 <= z -> 0 <= cn -> -1074 <= ce <= 0 ->
  int_of_product z (Finite cn ce) = Ok g ->
  round53 (round53 z0 * cn) / 2 ^ (- ce) <= g.
Proof.
  intros Hz Hcn Hce Hg.
  apply int_of_product_nonneg in Hg; [|lia..]. subst g.
  apply Z.div_le_mono; [apply Z.pow_pos_nonneg; lia|].
  pose proof (round53_mono z0 z ltac:(lia)).
  pose proof (round53_nonneg z0 ltac:(lia)).
  apply round53_mono. nia.
Qed.

Lemma derive_cut_parameters_inv target cut_min cut_max target_min target_max :
  derive_cut_parameters target = Ok (cut_min, cut_max, target_min, target_max) ->
  exists a b c d,
    int_of_product (Z.max 80 target) float_0_75 = Ok a
    /\ int_of_product (Z.max 80 target) float_1_25 = Ok b
    /\ int_of_product (Z.max 80 target) float_0_6 = Ok c
    /\ int_of_product (Z.max 80 target) float_1_6 = Ok d
    /\ target_min = Z.max 50 a
    /\ target_max = Z.max (target_min + 30) b
    /\ cut_min = Z.max 40 c
    /\ cut_max = Z.max (cut_min + 50) d.
Proof.
  unfold derive_cut_parameters.
  destruct (int_of_product _ float_0_75) as [a| |]; [|done..].
  destruct (int_of_product _ float_1_25) as [b| |]; [|done..].
  destruct (int_of_product _ float_0_6) as [c| |]; [|done..].
  destruct (int_of_product _ float_1_6) as [d| |]; [|done..].
  cbn [mbind outcome_bind obind]. intros [= <- <- <- <-].
  by exists a, b, c, d.
Qed.

(** X1: The four bounds nest for every target for which the function
    returns: hard-min <= ideal-min, ideal-min + 30 <= ideal-max <=
    hard-max, and hard-min + 50 <= hard-max; none is below the bounds of
    the smallest target the code works from (80): 48, 128, 60 and 100. *)
Theorem derive_cut_parameters_nested
    (target cut_min cut_max target_min target_max : Z) :
  derive_cut_parameters target = Ok (cut_min, cut_max, target_min, target_max) ->
  48 <= cut_min /\ cut_min <= target_min
  /\ 60 <= target_min /\ target_min + 30 <= target_max
  /\ 100 <= target_max /\ target_max <= cut_max
  /\ 128 <= cut_max /\ cut_min + 50 <= cut_max.
Proof.
  intros Hd.
  apply derive_cut_parameters_inv in Hd
    as (a & b & c & d & Ha & Hb & Hc & Hd & -> & -> & -> & ->).
  set (t := Z.max 80 target) in *.
  assert (Ht : 0 <= 80 <= t) by (unfold t; lia).
  (* the bounds at the target 80 *)
  pose proof (int_of_product_lower 80 t 3 (-2) a Ht ltac:(lia) ltac:(lia) Ha)
    as La.
  pose proof (int_of_product_lower 80 t 5 (-2) b Ht ltac:(lia) ltac:(lia) Hb)
    as Lb.
  pose proof (int_of_product_lower 80 t 5404319552844595 (-53) c Ht
                ltac:(lia) ltac:(lia) Hc) as Lc.
  pose proof (int_of_product_lower 80 t 7205759403792794 (-52) d Ht
                ltac:(lia) ltac:(lia) Hd) as Ld.
  replace (round53 (round53 80 * 3) / 2 ^ (- -2)) with 60 in La
    by (vm_compute; reflexivity).
  replace (round53 (round53 80 * 5) / 2 ^ (- -2)) with 100 in Lb
    by (vm_compute; reflexivity).
  replace (round53 (round53 80 * 5404319552844595) / 2 ^ (- -53)) with 48 in Lc
    by (vm_compute; reflexivity).
  replace (round53 (round53 80 * 7205759403792794) / 2 ^ (- -52)) with 128 in Ld
    by (vm_compute; reflexivity).
  (* the products, as roundings of integers *)
  apply int_of_product_nonneg in Ha; [|lia..].
  apply int_of_product_nonneg in Hb; [|lia..].
  apply int_of_product_nonneg in Hc; [|lia..].
  apply int_of_product_nonneg in Hd; [|lia..].
  change (2 ^ (- -2)) with 4 in Ha, Hb.
  change (2 ^ (- -53)) with (2 ^ 53) in Hc.
  change (2 ^ (- -52)) with (2 ^ 52) in Hd.
  set (A := round53 t) in *.
  assert (HA : 80 <= A).
  { pose proof (round53_mono 80 t ltac:(lia)) as H80.
    by rewrite (round53_small 80) in H80 by lia. }
  (* hard-min <= ideal-min: 0.6 is below 0.75 *)
  assert (Hca : c <= a).
  { subst c a.
    replace (round53 (A * 3) / 4) with (round53 (A * 3 * 2 ^ 51) / 2 ^ 53).
    - apply Z.div_le_mono; [lia|]. apply round53_mono. lia.
    - rewrite round53_scale by lia. change (2 ^ 53) with (4 * 2 ^ 51).
      apply Z.div_mul_cancel_r; lia. }
  (* ideal-max <= hard-max: 1.25 is below 1.6, and 0.75 t + 30 as well *)
  assert (Hbd : b <= d).
  { subst b d.
    replace (round53 (A * 5) / 4) with (round53 (A * 5 * 2 ^ 50) / 2 ^ 52).
    - apply Z.div_le_mono; [lia|]. apply round53_mono. lia.
    - rewrite round53_scale by lia. change (2 ^ 52) with (4 * 2 ^ 50).
      apply Z.div_mul_cancel_r; lia. }
  assert (Had : a + 30 <= d).
  { subst d. apply Z.div_le_lower_bound; [lia|].
    pose proof (round53_error (A * 3) ltac:(lia)) as Ea.
    pose proof (round53_error (A * 7205759403792794) ltac:(lia)) as Ed.
    pose proof (Z.mul_div_le (round53 (A * 3)) 4 ltac:(lia)) as Hdiv.
    rewrite <- Ha in Hdiv. lia. }
  lia.
Qed.

Lemma derive_cut_parameters_nested_witness :
  derive_cut_parameters 150 = Ok (90, 240, 112, 187)
  /\ (48 <= 90 /\ 90 <= 112 /\ 60 <= 112 /\ 112 + 30 <= 187
      /\ 100 <= 187 /\ 187 <= 240 /\ 128 <= 240 /\ 90 + 50 <= 240).
Proof.
  split; [reflexivity|].
  apply (derive_cut_parameters_nested 150 90 240 112 187). reflexivity.
Defined.

(** X2: Raising the target lowers none of the four bounds. *)
Theorem derive_cut_parameters_monotone
    (t1 t2 cut_min1 cut_max1 target_min1 target_max1
       cut_min2 cut_max2 target_min2 target_max2 : Z) :
  t1 <= t2 ->
  derive_cut_parameters t1
    = Ok (cut_min1, cut_max1, target_min1, target_max1) ->
  derive_cut_parameters t2
    = Ok (cut_min2, cut_max2, target_min2, target_max2) ->
  cut_min1 <= cut_min2 /\ cut_max1 <= cut_max2
  /\ target_min1 <= target_min2 /\ target_max1 <= target_max2.
Proof.
  intros Ht H1 H2.
  apply derive_cut_parameters_inv in H1
    as (a1 & b1 & c1 & d1 & Ha1 & Hb1 & Hc1 & Hd1 & -> & -> & -> & ->).
  apply derive_cut_parameters_inv in H2
    as (a2 & b2 & c2 & d2 & Ha2 & Hb2 & Hc2 & Hd2 & -> & -> & -> & ->).
  assert (Hab : 0 <= Z.max 80 t1 <= Z.max 80 t2) by lia.
  pose proof (int_of_product_mono _ _ 3 (-2) _ _ Hab ltac:(lia) ltac:(lia)
                Ha1 Ha2).
  pose proof (int_of_product_mono _ _ 5 (-2) _ _ Hab ltac:(lia) ltac:(lia)
                Hb1 Hb2).
  pose proof (int_of_product_mono _ _ 5404319552844595 (-53) _ _ Hab
                ltac:(lia) ltac:(lia) Hc1 Hc2).
  pose proof (int_of_product_mono _ _ 7205759403792794 (-52) _ _ Hab
                ltac:(lia) ltac:(lia) Hd1 Hd2).
  lia.
Qed.

Lemma derive_cut_parameters_monotone_witness :
  100 <= 200
  /\ derive_cut_parameters 100 = Ok (60, 160, 75, 125)
  /\ derive_cut_parameters 200 = Ok (120, 320, 150, 250)
  /\ (60 <= 120 /\ 160 <= 320 /\ 75 <= 150 /\ 125 <= 250).
Proof.
  split; [lia|]. split; [reflexivity|]. split; [reflexivity|].
  apply (derive_cut_parameters_monotone 100 200 60 160 75 125 120 320 150 250);
    [lia | reflexivity | reflexivity].
Defined.

(** ** More on the offset reconciler *)

(** X3: When the span of an oracle cut lies in its window: exactly when
    the start the reconciler detects is not past the window end.  The
    start is never before the window and the end never after it; what the
    clamps do not repair is a start that lands beyond the end. *)
Theorem oracle_span_in_window_iff
    (ls le start_idx end_idx text_len gs : Z) (sp : Z * Z) :
  start_idx <= end_idx ->
  _detect_global_span ls start_idx end_idx (end_idx - start_idx) = Ok gs ->
  reconcile_span ls le start_idx end_idx (end_idx - start_idx) text_len
    = Ok sp ->
  span_in_window (Chunk start_idx end_idx) sp <-> gs <= end_idx.
Proof.
  intros Hse Hgs. unfold span_in_window, reconcile_span. rewrite Hgs.
  destruct (_detect_global_span le _ _ _) as [ge| |]; [|done..].
  cbn [mbind outcome_bind obind]. cbv zeta. intros [= <-]. simpl.
  repeat match goal with
         | |- context [if ?a <? ?b then _ else _] => destruct (Z.ltb_spec a b)
         | |- context [if ?a <=? ?b then _ else _] => destruct (Z.leb_spec a b)
         end; lia.
Qed.

Lemma oracle_span_in_window_iff_witness :
  0 <= 100
  /\ _detect_global_span 120 0 100 (100 - 0) = Ok 120
  /\ reconcile_span 120 130 0 100 (100 - 0) 3 = Ok (120, 100)
  /\ (span_in_window (Chunk 0 100) (120, 100) <-> 120 <= 100).
Proof.
  split; [lia|]. split; [reflexivity|]. split; [reflexivity|].
  apply (oracle_span_in_window_iff 120 130 0 100 3 120 (120, 100));
    [lia | reflexivity | reflexivity].
Defined.

(** X4: A span the oracle reports in the coordinates of its window, with
    [0 <= start < end <= size], is shifted by the window start and nothing
    else: the cut gets the absolute span of exactly those characters.
    (The size is below [2^1023]: it has a finite double.) *)
Theorem reconcile_span_of_local_span
    (ls le start_idx chunk_size text_len : Z) :
  0 <= ls -> ls < le -> le <= chunk_size -> chunk_size < 2 ^ 1023 ->
  reconcile_span ls le start_idx (start_idx + chunk_size) chunk_size text_len
  = Ok (start_idx + ls, start_idx + le).
Proof.
  intros Hls Hle Hsize Hbound.
  assert (Hdetect : forall v, 0 <= v <= chunk_size ->
            _detect_global_span v start_idx (start_idx + chunk_size) chunk_size
            = Ok (start_idx + v)).
  { intros v Hv.
    destruct (detect_global_span_returns v start_idx (start_idx + chunk_size)
                chunk_size) as [r Hr].
    { assert (0 < 2 ^ 1023) by (apply Z.pow_pos_nonneg; lia). lia. }
    rewrite Hr. f_equal. by eapply detect_global_span_local. }
  unfold reconcile_span. rewrite !Hdetect by lia.
  cbn [mbind outcome_bind obind]. cbv zeta.
  destruct (Z.leb_spec (start_idx + le) (start_idx + ls)); [lia|].
  destruct (Z.ltb_spec (start_idx + ls) start_idx); [lia|].
  destruct (Z.ltb_spec (start_idx + le) (start_idx + ls)); [lia|].
  destruct (Z.ltb_spec (start_idx + chunk_size) (start_idx + le)); [lia|].
  done.
Qed.

Lemma reconcile_span_of_local_span_witness :
  0 <= 10 /\ 10 < 40 /\ 40 <= 300 /\ 300 < 2 ^ 1023
  /\ reconcile_span 10 40 1000 (1000 + 300) 300 5
     = Ok (1000 + 10, 1000 + 40).
Proof.
  split; [lia|]. split; [lia|]. split; [lia|]. split; [reflexivity|].
  apply (reconcile_span_of_local_span 10 40 1000 300 5);
    [lia | lia | lia | reflexivity].
Defined.

(** ** More on newline normalisation *)

Lemma replace_go_length old new skip s :
  (length new <= length old)%nat ->
  (length (replace_go old new skip s) <= length s - Nat.min skip (length s))%nat.
Proof.
  intros Hnew. revert skip. induction s as [|c s IH]; intros skip; simpl; [lia|].
  destruct skip as [|k].
  - destruct (startswith old (c :: s)) eqn:Hst.
    + apply startswith_length in Hst. simpl in Hst.
      rewrite length_app. specialize (IH (Nat.pred (length old))). lia.
    + simpl. specialize (IH O). lia.
  - specialize (IH k). lia.
Qed.

Lemma replace_go_no_carriage_return skip s :
  no_carriage_return (replace_go [CR] [LF] skip s).
Proof.
  revert skip.
  induction s as [|c s IH]; intros skip; cbn [replace_go]; [constructor|].
  destruct skip as [|k]; [|apply IH].
  destruct (startswith [CR] (c :: s)) eqn:Hst.
  - constructor; [done | apply IH].
  - constructor; [|apply IH]. intros ->. discriminate Hst.
Qed.

(** X5: Newline normalisation, which the windowing and the fallback
    splitter both apply: the result holds no carriage return and is never
    longer than the text; a text without a carriage return is left as it
    is, and so is a text that was normalised before. *)
Theorem normalize_newlines_spec (text : str) :
  no_carriage_return (normalize_newlines text)
  /\ len (normalize_newlines text) <= len text
  /\ (no_carriage_return text -> normalize_newlines text = text)
  /\ normalize_newlines (normalize_newlines text) = normalize_newlines text.
Proof.
  assert (Hno : no_carriage_return (normalize_newlines text))
    by apply replace_go_no_carriage_return.
  split; [done|]. split; [|split].
  - unfold normalize_newlines, replace, len.
    pose proof (replace_go_length [CR; LF] [LF] O text ltac:(simpl; lia)).
    pose proof (replace_go_length [CR] [LF] O
                  (replace_go [CR; LF] [LF] O text) ltac:(simpl; lia)).
    lia.
  - apply normalize_no_carriage_return.
  - by apply normalize_no_carriage_return.
Qed.

(** ** More on windowing *)

Lemma chunk_loop_starts fuel t window overlap i cuts out :
  0 <= i ->
  Forall (fun c => 0 <= chunk_start c < i /\ chunk_start c < len t) cuts ->
  in_order Z.lt (map chunk_start cuts) ->
  (i = 0 /\ cuts = []) \/ (exists c rest, cuts = c :: rest /\ chunk_start c = 0) ->
  chunk_loop fuel t window overlap i cuts = Ok out ->
  Forall (fun c => 0 <= chunk_start c < len t) out
  /\ in_order Z.lt (map chunk_start out)
  /\ ((len t = 0 /\ out = [])
      \/ (exists c rest, out = c :: rest /\ chunk_start c = 0)).
Proof.
  revert i cuts.
  induction fuel as [|fuel IH]; intros i cuts Hi Hcuts Hsorted Hhead;
    cbn [chunk_loop].
  all: assert (Hdone : ~ i < len t ->
         Forall (fun c => 0 <= chunk_start c < len t) cuts
         /\ in_order Z.lt (map chunk_start cuts)
         /\ ((len t = 0 /\ cuts = [])
             \/ (exists c rest, cuts = c :: rest /\ chunk_start c = 0))).
  1,3: intros Hn; split; [eapply Forall_impl; [exact Hcuts|]; simpl; lia|];
       split; [done|]; destruct Hhead as [[-> ->]|Hh]; [left | by right];
       pose proof (len_nonneg t); split; [lia | done].
  - destruct (Z.ltb_spec i (len t)); [done|]. intros [= <-]. apply Hdone. lia.
  - destruct (Z.ltb_spec i (len t)); [|intros [= <-]; apply Hdone; lia].
    destruct (chunk_body t window overlap i cuts) as [[cuts' next]| |] eqn:Hb;
      [|done..].
    cbn [mbind outcome_bind obind].
    pose proof Hb as Hinv.
    apply chunk_body_inv in Hinv as (threshold & _ & Hcuts0 & _).
    cbv zeta in Hcuts0.
    match type of Hcuts0 with _ = cuts ++ [Chunk i ?x] => set (e := x) in * end.
    subst cuts'.
    assert (Hcuts' : forall j, i < j ->
              Forall (fun c => 0 <= chunk_start c < j /\ chunk_start c < len t)
                (cuts ++ [Chunk i e])).
    { intros j Hj. apply Forall_app. split.
      - eapply Forall_impl; [exact Hcuts|]. simpl. lia.
      - constructor; [simpl; lia | constructor]. }
    assert (Hsorted' : in_order Z.lt (map chunk_start (cuts ++ [Chunk i e]))).
    { rewrite map_app. apply in_order_snoc; [done|].
      apply Forall_fmap. eapply Forall_impl; [exact Hcuts|]. simpl. lia. }
    assert (Hhead' : exists c rest, cuts ++ [Chunk i e] = c :: rest
                                    /\ chunk_start c = 0).
    { destruct Hhead as [[-> ->]|(c & rest & -> & Hc)].
      - by exists (Chunk 0 e), [].
      - by exists c, (rest ++ [Chunk i e]). }
    destruct next as [next|].
    + apply chunk_body_next in Hb.
      apply IH; [lia | apply Hcuts'; lia | done | by right].
    + intros [= <-]. split.
      { eapply Forall_impl; [apply (Hcuts' (i + 1)); lia|]. simpl. lia. }
      split; [done | by right].
Qed.

(** X6: [chunk_for_llm] returns for every text and overlap and every size
    below [2^1020] in magnitude, negative ones included (a size that has
    no finite double makes [int(window * 0.5)] raise).  It gives no window
    for the empty text only; the first window starts at offset 0, and the
    starts increase strictly and stay below the length of the
    (normalised) text, so there are never more windows than characters. *)
Theorem chunk_for_llm_starts (text : str) (window overlap : Z) :
  - 2 ^ 1020 < window < 2 ^ 1020 ->
  exists chunks,
    chunk_for_llm text window overlap = Ok chunks
    /\ (chunks = [] <-> normalize_newlines text = [])
    /\ (forall c, head chunks = Some c -> chunk_start c = 0)
    /\ Forall (fun c => 0 <= chunk_start c < len (normalize_newlines text))
         chunks
    /\ in_order Z.lt (map chunk_start chunks).
Proof.
  intros Hw.
  destruct (chunk_for_llm_returns text window overlap Hw) as [chunks Hc].
  exists chunks. split; [done|]. unfold chunk_for_llm in Hc.
  apply chunk_loop_starts in Hc as (Hall & Hsorted & Hhead);
    [|lia | constructor | apply in_order_nil | by left].
  split; [|split; [|done]].
  - destruct Hhead as [[Hlen ->]|(c & rest & -> & Hc0)].
    + split; [|done]. intros _.
      destruct (normalize_newlines text); [done|]. unfold len in Hlen.
      simpl in Hlen. lia.
    + split; [done|]. intros Hnil. rewrite Hnil in Hall.
      inversion Hall as [|? ? Hc1 _]; subst. unfold len in Hc1. simpl in Hc1. lia.
  - intros c Hc1. destruct Hhead as [[_ ->]|(c' & rest & -> & Hc0)]; [done|].
    simpl in Hc1. by injection Hc1 as <-.
Qed.

Lemma chunk_for_llm_starts_witness :
  - 2 ^ 1020 < -3 < 2 ^ 1020
  /\ exists chunks,
       chunk_for_llm Sample.hello_world (-3) 2 = Ok chunks
       /\ (chunks = [] <-> normalize_newlines Sample.hello_world = [])
       /\ (forall c, head chunks = Some c -> chunk_start c = 0)
       /\ Forall (fun c => 0 <= chunk_start c
                             < len (normalize_newlines Sample.hello_world))
            chunks
       /\ in_order Z.lt (map chunk_start chunks).
Proof.
  split; [split; reflexivity|].
  apply (chunk_for_llm_starts Sample.hello_world (-3) 2). split; reflexivity.
Defined.

Lemma chunk_loop_sizes fuel t window overlap i cuts out :
  0 < window -> 0 <= overlap -> 0 <= i ->
  Forall (fun c => chunk_end c - chunk_start c <= window) cuts ->
  chunk_loop fuel t window overlap i cuts = Ok out ->
  Forall (fun c => chunk_end c - chunk_start c <= window) out.
Proof.
  intros Hw Ho. revert i cuts.
  induction fuel as [|fuel IH]; intros i cuts Hi Hcuts; cbn [chunk_loop].
  - destruct (i <? len t); [done|]. by intros [= <-].
  - destruct (Z.ltb_spec i (len t)); [|by intros [= <-]].
    destruct (chunk_body t window overlap i cuts) as [[cuts' next]| |] eqn:Hb;
      [|done..].
    destruct (chunk_body_spec t window overlap i cuts cuts' next Hw Ho
                ltac:(lia) Hb) as (e & He & Hsize & -> & Hnext).
    cbn [mbind outcome_bind obind].
    assert (Forall (fun c => chunk_end c - chunk_start c <= window)
              (cuts ++ [Chunk i e])).
    { apply Forall_app. split; [done|]. constructor; [simpl; lia | constructor]. }
    destruct next as [next|]; [apply IH; [lia | done] | by intros [= <-]].
Qed.

Lemma chunk_loop_last fuel t window overlap i cuts out :
  0 < window -> 0 <= overlap -> 0 <= i < len t ->
  chunk_loop fuel t window overlap i cuts = Ok out ->
  exists c, last out = Some c /\ chunk_end c = len t.
Proof.
  intros Hw Ho. revert i cuts.
  induction fuel as [|fuel IH]; intros i cuts Hi; cbn [chunk_loop].
  - destruct (Z.ltb_spec i (len t)); [done | lia].
  - destruct (Z.ltb_spec i (len t)); [|lia].
    destruct (chunk_body t window overlap i cuts) as [[cuts' next]| |] eqn:Hb;
      [|done..].
    destruct (chunk_body_spec t window overlap i cuts cuts' next Hw Ho Hi Hb)
      as (e & He & _ & -> & Hnext).
    cbn [mbind outcome_bind obind].
    destruct next as [next|]; [apply IH; lia|].
    intros [= <-]. exists (Chunk i e). by rewrite last_snoc.
Qed.

(** X7: With a positive size and an overlap that is not negative, every
    window is non-empty, lies in the (normalised) text and is at most
    [window] characters long; every offset of the text lies in some
    window; and the last window ends where the text ends. *)
Theorem chunk_for_llm_windows (text : str) (window overlap : Z)
    (chunks : list chunk) :
  0 < window -> 0 <= overlap ->
  chunk_for_llm text window overlap = Ok chunks ->
  Forall (fun c => 0 <= chunk_start c < chunk_end c
                   /\ chunk_end c <= len (normalize_newlines text)
                   /\ chunk_end c - chunk_start c <= window) chunks
  /\ (forall k, 0 <= k < len (normalize_newlines text) ->
        exists c, c ∈ chunks /\ chunk_start c <= k < chunk_end c)
  /\ (normalize_newlines text <> [] ->
      exists c, last chunks = Some c
                /\ chunk_end c = len (normalize_newlines text)).
Proof.
  intros Hw Ho Hc.
  destruct (chunk_for_llm_covers text window overlap chunks Hw Ho Hc)
    as [Hok Hcov].
  unfold chunk_for_llm in Hc.
  pose proof (chunk_loop_sizes _ _ _ _ 0 [] _ Hw Ho ltac:(lia)
                ltac:(constructor) Hc) as Hsz.
  split; [|split; [exact Hcov|]].
  - apply Forall_forall. intros c Hin.
    eapply Forall_forall in Hok; [|exact Hin].
    eapply Forall_forall in Hsz; [|exact Hin].
    unfold chunk_ok in Hok. lia.
  - intros Hne. eapply chunk_loop_last; [done | done | | exact Hc].
    split; [lia|]. destruct (normalize_newlines text) as [|c0 rest]; [done|].
    rewrite len_cons. pose proof (len_nonneg rest). lia.
Qed.

Lemma chunk_for_llm_windows_witness :
  0 < 8 /\ 0 <= 2
  /\ chunk_for_llm Sample.hello_world 8 2 = Ok [Chunk 0 8; Chunk 6 12]
  /\ (forall k, 0 <= k < len (normalize_newlines Sample.hello_world) ->
        exists c, c ∈ [Chunk 0 8; Chunk 6 12]
                  /\ chunk_start c <= k < chunk_end c).
Proof.
  split; [lia|]. split; [lia|]. split; [reflexivity|].
  apply (chunk_for_llm_windows Sample.hello_world 8 2 [Chunk 0 8; Chunk 6 12]);
    [lia | lia | reflexivity].
Defined.

(** ** More on the fallback splitter *)

Lemma len_lstrip_le s : len (lstrip s) <= len s.
Proof.
  destruct (lstrip_suffix s) as [ws Hws]. rewrite Hws at 2.
  rewrite len_app. pose proof (len_nonneg ws). lia.
Qed.

Lemma len_rstrip_le s : len (rstrip s) <= len s.
Proof.
  unfold rstrip, len. rewrite length_rev.
  pose proof (len_lstrip_le (rev s)) as H. unfold len in H.
  rewrite length_rev in H. exact H.
Qed.

Lemma fallback_body_position normalized cut_min cut_max cursor spans :
  1 <= cut_max -> 0 <= cursor < len normalized ->
  (fallback_body normalized cut_min cut_max cursor spans).2 = spans
  \/ exists sp : span3,
       (fallback_body normalized cut_min cut_max cursor spans).2 = spans ++ [sp]
       /\ cursor <= sp.1.1
       /\ sp.1.2 <= (fallback_body normalized cut_min cut_max cursor spans).1
       /\ sp.1.2 - sp.1.1 <= cut_max.
Proof.
  intros Hmax Hc.
  destruct (fallback_body_unfold normalized cut_min cut_max cursor spans
              Hmax Hc) as (sp & Hsp & _ & ->).
  cbv zeta. simpl fst. simpl snd.
  set (raw := slice normalized cursor sp).
  assert (Hraw : len raw = sp - cursor) by (apply len_slice; lia).
  destruct (strip raw) as [|c0 core]; [by left|].
  right. eexists. split; [reflexivity|]. simpl.
  pose proof (len_lstrip_le raw). pose proof (len_rstrip_le raw).
  pose proof (len_nonneg (rstrip raw)).
  destruct (Z.ltb_spec cursor sp); lia.
Qed.

Lemma fallback_loop_order fuel normalized cut_min cut_max cursor spans out :
  1 <= cut_max -> 0 <= cursor ->
  Forall (fun sp : span3 => sp.1.2 <= cursor /\ sp.1.2 - sp.1.1 <= cut_max)
    spans ->
  in_order (fun a b : span3 => a.1.2 <= b.1.1) spans ->
  fallback_loop fuel normalized cut_min cut_max cursor spans = Ok out ->
  Forall (fun sp : span3 => sp.1.2 - sp.1.1 <= cut_max) out
  /\ in_order (fun a b : span3 => a.1.2 <= b.1.1) out.
Proof.
  intros Hmax. revert cursor spans.
  induction fuel as [|fuel IH]; intros cursor spans Hc Hspans Hord;
    cbn [fallback_loop].
  all: assert (Hdone : Forall (fun sp : span3 => sp.1.2 - sp.1.1 <= cut_max)
                         spans)
         by (eapply Forall_impl; [exact Hspans|]; simpl; tauto).
  - destruct (cursor <? len normalized); [done|]. by intros [= <-].
  - destruct (Z.ltb_spec cursor (len normalized)); [|by intros [= <-]].
    pose proof (fallback_body_progress normalized cut_min cut_max cursor spans
                  Hmax ltac:(lia)) as Hp.
    destruct (fallback_body_position normalized cut_min cut_max cursor spans
                Hmax ltac:(lia)) as [Hsame | (sp & Hnew & Hpos)].
    + destruct (fallback_body _ _ _ _ _) as [c' s']. simpl in *. subst s'.
      apply IH; [lia | | done].
      eapply Forall_impl; [exact Hspans|]. simpl. lia.
    + destruct (fallback_body _ _ _ _ _) as [c' s']. simpl in *. subst s'.
      apply IH; [lia | |].
      * apply Forall_app. split.
        -- eapply Forall_impl; [exact Hspans|]. simpl. lia.
        -- constructor; [lia | constructor].
      * apply in_order_snoc; [done|].
        eapply Forall_impl; [exact Hspans|]. simpl. lia.
Qed.

Lemma split_fallback_chunk_order text cut_min cut_max spans :
  1 <= cut_max ->
  _split_fallback_chunk text cut_min cut_max = Ok spans ->
  Forall (fun sp : span3 => sp.1.2 - sp.1.1 <= cut_max) spans
  /\ in_order (fun a b : span3 => a.1.2 <= b.1.1) spans.
Proof.
  intros Hmax Hrun. unfold _split_fallback_chunk in Hrun.
  apply fallback_loop_order in Hrun;
    [done | done | lia | constructor | apply in_order_nil].
Qed.

(** X8: Every span of the fallback splitter is a stripped, non-empty slice
    of the normalised text at the offsets it reports, at most [cut_max]
    characters long; the spans come in text order and do not overlap; and
    with [cut_min >= 1] every character that is not whitespace lies in one
    of them. *)
Theorem split_fallback_chunk_spans (text : str) (cut_min cut_max : Z)
    (spans : list span3) :
  1 <= cut_max ->
  _split_fallback_chunk text cut_min cut_max = Ok spans ->
  Forall (fun sp : span3 =>
            span_ok (normalize_newlines text) sp
            /\ sp.1.2 - sp.1.1 <= cut_max) spans
  /\ in_order (fun a b : span3 => a.1.2 <= b.1.1) spans
  /\ (1 <= cut_min ->
      forall k, nonspace_at (normalize_newlines text) k ->
                span_covers spans k).
Proof.
  intros Hmax Hrun.
  destruct (split_fallback_chunk_spec text cut_min cut_max spans Hmax Hrun)
    as [Hok Hcov].
  destruct (split_fallback_chunk_order text cut_min cut_max spans Hmax Hrun)
    as [Hlen Hord].
  split; [|by split].
  apply Forall_forall. intros sp Hin. split.
  - by eapply Forall_forall in Hok.
  - by eapply Forall_forall in Hlen.
Qed.

Lemma split_fallback_chunk_spans_witness :
  1 <= 5
  /\ _split_fallback_chunk Sample.hello_world 2 5
     = Ok [(0, 5, lit "hello"); (6, 10, lit "worl"); (10, 12, lit "d!")]
  /\ in_order (fun a b : span3 => a.1.2 <= b.1.1)
       [(0, 5, lit "hello"); (6, 10, lit "worl"); (10, 12, lit "d!")].
Proof.
  split; [lia|]. split; [reflexivity|].
  apply (split_fallback_chunk_spans Sample.hello_world 2 5
           [(0, 5, lit "hello"); (6, 10, lit "worl"); (10, 12, lit "d!")]);
    [lia | reflexivity].
Defined.

Lemma startswith_take old s :
  startswith old s = true -> take (length old) s = old.
Proof.
  intros H. apply startswith_spec in H as [post ->].
  by rewrite take_app_length.
Qed.

Lemma spaces_replace_go old new skip s :
  old <> [] -> spaces old -> spaces (take skip s) ->
  spaces (replace_go old new skip s) -> spaces s.
Proof.
  intros Hne Hold. revert skip.
  induction s as [|c s IH]; intros skip Hskip Hout; [constructor|].
  destruct skip as [|k]; simpl in *.
  - destruct (startswith old (c :: s)) eqn:Hst.
    + apply Forall_app in Hout as [_ Hout].
      pose proof (startswith_take _ _ Hst) as Htake.
      destruct old as [|o old']; [done|]. simpl in *.
      injection Htake as -> Htake. inversion Hold; subst.
      constructor; [done|]. apply (IH (length old')); [|done].
      by rewrite Htake.
    + inversion Hout; subst. constructor; [done|].
      apply (IH O); [constructor | done].
  - inversion Hskip; subst. constructor; [done|]. by apply (IH k).
Qed.

Lemma spaces_normalize_newlines text :
  spaces (normalize_newlines text) -> spaces text.
Proof.
  unfold normalize_newlines, replace. intros H.
  apply spaces_replace_go in H; [| done | by repeat constructor | constructor].
  apply spaces_replace_go in H; [done | done | by repeat constructor | constructor].
Qed.

Lemma split_fallback_chunk_blank text cut_min cut_max :
  1 <= cut_min -> 1 <= cut_max ->
  _split_fallback_chunk text cut_min cut_max = Ok [] ->
  strip text = [].
Proof.
  intros Hmin Hmax Hrun.
  destruct (split_fallback_chunk_spec text cut_min cut_max [] Hmax Hrun)
    as [_ Hcov].
  apply strip_spaces, spaces_normalize_newlines, spaces_of_no_nonspace.
  intros k Hk. destruct (Hcov Hmin k Hk) as (sp & Hin & _).
  by apply elem_of_nil in Hin.
Qed.

(** X9: The handler's single-segment branch is dead.  With [cut_min >= 1]
    and [cut_max >= 1] the splitter returns no span only for a window that
    is whitespace throughout, for which [chunk_text.strip()] is empty; so
    the segments the handler emits are exactly the spans of the splitter. *)
Theorem fallback_path_emits_splitter_spans `{Runtime} (chunk_text : str)
    (start_idx chunk_size cut_min cut_max : Z) (ex : exn)
    (spans : list span3) (s : state) :
  1 <= cut_min -> 1 <= cut_max -> is_Exception ex = true ->
  _split_fallback_chunk chunk_text cut_min cut_max = Ok spans ->
  (spans = [] -> strip chunk_text = [])
  /\ fallback_path chunk_text start_idx chunk_size cut_min cut_max ex s
     = for_each spans (emit_fallback start_idx chunk_size) s.
Proof.
  intros Hmin Hmax Hex Hspans.
  assert (Hblank : spans = [] -> strip chunk_text = []).
  { intros ->. exact (split_fallback_chunk_blank _ _ _ Hmin Hmax Hspans). }
  split; [done|].
  unfold fallback_path. unfold bind at 1. rewrite reraise_is_caught by done.
  unfold bind at 1, lift at 1. rewrite Hspans.
  destruct spans as [|sp spans']; [by rewrite Hblank | done].
Qed.

Lemma fallback_path_emits_splitter_spans_witness :
  1 <= 2 /\ 1 <= 5 /\ is_Exception APIError = true
  /\ _split_fallback_chunk [32%N; CR; LF; 9%N] 2 5 = Ok []
  /\ fallback_path (H := Ref.runtime) [32%N; CR; LF; 9%N] 0 4 2 5 APIError
       (State [] 1)
     = (Ok tt, State [] 1).
Proof.
  split; [lia|]. split; [lia|]. split; [reflexivity|]. split; [reflexivity|].
  apply (fallback_path_emits_splitter_spans (H := Ref.runtime)
           [32%N; CR; LF; 9%N] 0 4 2 5 APIError [] (State [] 1));
    [lia | lia | reflexivity | reflexivity].
Defined.

(** ** What every cut of a run satisfies *)

Lemma item_panel_well_formed `{Runtime} start_idx end_idx cut_max n item p :
  1 <= cut_max ->
  item_panel start_idx end_idx (end_idx - start_idx) cut_max n item
    = Ok (Some p) ->
  cut_well_formed cut_max (Chunk start_idx end_idx) p.
Proof.
  intros Hmax Hp. unfold item_panel in Hp.
  bind_ok Hp t Et. bind_ok Hp txt0 Es.
  destruct txt0 as [|c tl']; [discriminate|].
  set (text := if cut_max <? len (c :: tl') then _ else _) in Hp.
  assert (Htext : text <> [] /\ len text <= cut_max).
  { unfold text. destruct (Z.ltb_spec cut_max (len (c :: tl'))); [|split; [done | lia]].
    split.
    - intros Hnil. apply (f_equal len) in Hnil.
      rewrite len_slice in Hnil by lia. unfold len in Hnil. simpl in Hnil. lia.
    - rewrite len_slice by lia. lia. }
  clearbody text.
  bind_ok Hp loc Eloc. bind_ok Hp ls Els. bind_ok Hp le0 Ele.
  bind_ok Hp span Espan.
  apply reconcile_span_bounds in Espan as Hb.
  destruct span as [gs ge]. simpl in Hb.
  bind_ok Hp sp Esp. destruct sp as [speakers_clean primary].
  bind_ok Hp type_ E1. bind_ok Hp time E2. bind_ok Hp scene0 E3.
  bind_ok Hp location E4. bind_ok Hp location0 E5. bind_ok Hp scene E6.
  bind_ok Hp tone E7. bind_ok Hp emotion E8. bind_ok Hp action E9.
  bind_ok Hp entities E10. bind_ok Hp digest E11.
  injection Hp as <-. unfold cut_well_formed.
  cbn [panel_text panel_source_span panel_checksum chunk_start chunk_end fst snd].
  apply sha1_of_utf8_digest in E11 as ->.
  repeat split; try tauto; lia.
Qed.

Lemma fallback_panel_well_formed `{Runtime} normalized start_idx end_idx
    cut_max n sp p :
  span_ok normalized sp -> sp.1.2 - sp.1.1 <= cut_max ->
  fallback_panel start_idx (end_idx - start_idx) n sp = Ok (Some p) ->
  cut_well_formed cut_max (Chunk start_idx end_idx) p.
Proof.
  destruct sp as [[a b] seg]. intros (Ha & Hab & Hb & Hseg & Hstrip) Hlen.
  simpl in *. unfold fallback_panel. rewrite Hstrip.
  assert (Hl : len seg = b - a) by (rewrite Hseg; apply len_slice; lia).
  destruct seg as [|c seg'] eqn:Es; [unfold len in Hl; simpl in Hl; lia|].
  rewrite <- Es in *. intros Hp. bind_ok Hp digest Ed.
  injection Hp as <-. unfold cut_well_formed.
  cbn [panel_text panel_source_span panel_checksum chunk_start chunk_end fst snd].
  apply sha1_of_utf8_digest in Ed as ->.
  repeat split; try lia. by rewrite Es.
Qed.

Lemma preserves_for_each_in {A} I (l : list A) body :
  Forall (fun x => preserves I (body x)) l -> preserves I (for_each l body).
Proof.
  induction 1 as [|x l Hx _ IH]; simpl.
  - apply preserves_ret.
  - apply preserves_bind; [exact Hx | intros _; exact IH].
Qed.

Lemma preserves_bind_lift {A B} I (o : outcome A) (k : A -> M B) :
  (forall a, o = Ok a -> preserves I (k a)) -> preserves I (bind (lift o) k).
Proof.
  intros Hk s Hs. unfold bind, lift. destruct o as [a|e|]; simpl; [|done..].
  by apply Hk.
Qed.

Section run_invariant.
Context `{Runtime}.
Variables (chunks : list chunk) (cut_min cut_max : Z).
Variable Q : chunk -> Panel -> Prop.
Hypothesis Hmin : 1 <= cut_min.
Hypothesis Hmax : 1 <= cut_max.
Hypothesis Q_item : forall ch n item p,
  item_panel (chunk_start ch) (chunk_end ch)
    (chunk_end ch - chunk_start ch) cut_max n item = Ok (Some p) ->
  Q ch p.
Hypothesis Q_fallback : forall normalized ch n sp p,
  span_ok normalized sp -> sp.1.2 - sp.1.1 <= cut_max ->
  fallback_panel (chunk_start ch) (chunk_end ch - chunk_start ch) n sp
    = Ok (Some p) ->
  Q ch p.

Let I (s : state) : Prop :=
  Forall (fun p => exists ch, ch ∈ chunks /\ Q ch p) (panels s).

Lemma invariant_emit ch p : ch ∈ chunks -> Q ch p -> preserves I (emit p).
Proof.
  intros Hch Hp s Hs. unfold I, emit. simpl. apply Forall_app.
  split; [exact Hs|]. constructor; [eauto | constructor].
Qed.

Lemma invariant_process_item ch item :
  ch ∈ chunks ->
  preserves I (process_item (chunk_start ch) (chunk_end ch)
                 (chunk_end ch - chunk_start ch) cut_max item).
Proof.
  intros Hch s Hs. unfold process_item, bind, read_counter, lift. simpl.
  destruct (item_panel _ _ _ _ _ item) as [[p|]| |] eqn:Hp; simpl; try done.
  apply (invariant_emit ch p); [done | | done]. by eapply Q_item.
Qed.

Lemma invariant_emit_fallback normalized ch sp :
  ch ∈ chunks -> span_ok normalized sp -> sp.1.2 - sp.1.1 <= cut_max ->
  preserves I (emit_fallback (chunk_start ch)
                 (chunk_end ch - chunk_start ch) sp).
Proof.
  intros Hch Hsp Hlen s Hs.
  unfold emit_fallback, bind, read_counter, lift. simpl.
  destruct (fallback_panel _ _ _ sp) as [[p|]| |] eqn:Hp; simpl; try done.
  apply (invariant_emit ch p); [done | | done]. by eapply Q_fallback.
Qed.

Lemma invariant_process_chunk client full_text idx ch :
  ch ∈ chunks ->
  preserves I (process_chunk client full_text cut_min cut_max (idx, ch)).
Proof.
  intros Hch. unfold process_chunk. apply preserves_try.
  - unfold oracle_path. apply preserves_bind; [apply preserves_lift|].
    intros raw. apply preserves_bind; [apply preserves_lift|].
    intros [[|item items]|]; try apply preserves_lift.
    apply preserves_for_each. intros x. by apply invariant_process_item.
  - intros e. unfold fallback_path. apply preserves_bind.
    { apply preserves_try; [|intros; apply preserves_ret].
      destruct (is_AuthenticationError e);
        [apply preserves_lift | apply preserves_ret]. }
    intros _. apply preserves_bind_lift. intros segs Hsegs.
    destruct (split_fallback_chunk_spec _ cut_min cut_max segs Hmax Hsegs)
      as [Hok _].
    destruct (split_fallback_chunk_order _ cut_min cut_max segs Hmax Hsegs)
      as [Hlen _].
    destruct segs as [|sg segs'].
    + rewrite (split_fallback_chunk_blank _ cut_min cut_max Hmin Hmax Hsegs).
      apply preserves_ret.
    + apply preserves_for_each_in. apply Forall_forall. intros sp Hin.
      eapply invariant_emit_fallback; [done | |].
      * eapply Forall_forall in Hok; [exact Hok | done].
      * eapply Forall_forall in Hlen; [exact Hlen | done].
Qed.

Lemma invariant_run client full_text ichs s :
  Forall (fun ich : Z * chunk => ich.2 ∈ chunks) ichs ->
  I s ->
  I (for_each ichs (process_chunk client full_text cut_min cut_max) s).2.
Proof.
  intros Hin. apply preserves_for_each_in.
  eapply Forall_impl; [exact Hin|]. intros [idx ch] Hch.
  by apply invariant_process_chunk.
Qed.
End run_invariant.

(** A property of cuts that both paths establish for the window they work
    on holds of every cut of a run that returns. *)
Lemma run_invariant `{Runtime} (Q : Z -> chunk -> Panel -> Prop) client
    full_text chunk_target window overlap chunks ps :
  (forall cut_max ch n item p,
     1 <= cut_max ->
     item_panel (chunk_start ch) (chunk_end ch)
       (chunk_end ch - chunk_start ch) cut_max n item = Ok (Some p) ->
     Q cut_max ch p) ->
  (forall cut_max normalized ch n sp p,
     span_ok normalized sp -> sp.1.2 - sp.1.1 <= cut_max ->
     fallback_panel (chunk_start ch) (chunk_end ch - chunk_start ch) n sp
       = Ok (Some p) ->
     Q cut_max ch p) ->
  chunk_for_llm full_text window overlap = Ok chunks ->
  llm_cut_and_label_with_params client full_text chunk_target window overlap
    = Ok ps ->
  exists params,
    derive_cut_parameters chunk_target = Ok params
    /\ Forall (fun p => exists ch, ch ∈ chunks /\ Q params.1.1.2 ch p) ps.
Proof.
  intros Hitem Hfb Hchunks. unfold llm_cut_and_label_with_params.
  destruct (derive_cut_parameters chunk_target)
    as [[[[cmin cmax] tmin] tmax]| |] eqn:Hd; [|done..].
  intros Hrun. exists (cmin, cmax, tmin, tmax). split; [done|]. revert Hrun.
  apply derive_cut_parameters_bounds in Hd. rewrite Hchunks. simpl.
  pose proof (invariant_run chunks cmin cmax (Q cmax) ltac:(lia) ltac:(lia)
                (fun ch n item p => Hitem cmax ch n item p ltac:(lia))
                (Hfb cmax) client full_text (enumerate 1 chunks) (State [] 1))
    as Hinv.
  destruct (for_each _ _ _) as [r s]. simpl in Hinv.
  destruct r; simpl; try discriminate. intros [= <-]. apply Hinv.
  - apply Forall_forall. intros [idx ch] Hin.
    apply elem_of_enumerate in Hin as (i & Hi & _). simpl.
    by eapply list_elem_of_lookup_2.
  - constructor.
Qed.


(** X10: Whatever the oracle answers, every cut of a run that returns was
    made for one of the windows of the text, and for that window: its text
    is not empty and no longer than the hard maximum [cut_max] that
    [derive_cut_parameters] gives for the target; its span starts at or
    after the window start and ends at or before the window end; and its
    checksum is the SHA-1 digest of its text. *)
Theorem run_cuts_well_formed `{Runtime} (client : Client) (full_text : str)
    (chunk_target window overlap : Z) (chunks : list chunk)
    (ps : list Panel) :
  chunk_for_llm full_text window overlap = Ok chunks ->
  llm_cut_and_label_with_params client full_text chunk_target window overlap
    = Ok ps ->
  exists params,
    derive_cut_parameters chunk_target = Ok params
    /\ Forall (fun p => exists ch,
                 ch ∈ chunks /\ cut_well_formed params.1.1.2 ch p) ps.
Proof.
  apply (run_invariant (fun cut_max => cut_well_formed cut_max)).
  - intros cut_max ch n item p Hmax Hp.
    apply item_panel_well_formed in Hp; [|done]. by destruct ch.
  - intros cut_max normalized ch n sp p Hsp Hlen Hp.
    eapply fallback_panel_well_formed in Hp; [|done..]. by destruct ch.
Qed.

Lemma run_cuts_well_formed_witness :
  chunk_for_llm Sample.hello_world 8 2 = Ok [Chunk 0 8; Chunk 6 12]
  /\ derive_cut_parameters TARGET_MIN = Ok (90, 240, 112, 187)
  /\ exists ps,
       llm_cut_and_label_with_params (H := Ref.runtime)
         Sample.first_window_only Sample.hello_world TARGET_MIN 8 2 = Ok ps
       /\ exists params,
            derive_cut_parameters TARGET_MIN = Ok params
            /\ Forall (fun p => exists ch,
                         ch ∈ [Chunk 0 8; Chunk 6 12]
                         /\ cut_well_formed (H := Ref.runtime) params.1.1.2
                              ch p) ps.
Proof.
  split; [reflexivity|]. split; [reflexivity|].
  destruct (llm_cut_and_label_with_params (H := Ref.runtime)
              Sample.first_window_only Sample.hello_world TARGET_MIN 8 2)
    as [ps| |] eqn:Hps; [|vm_compute in Hps; discriminate..].
  exists ps. split; [reflexivity|].
  exact (run_cuts_well_formed (H := Ref.runtime) Sample.first_window_only
           Sample.hello_world TARGET_MIN 8 2 [Chunk 0 8; Chunk 6 12] ps
           eq_refl Hps).
Defined.

Lemma py_or_truthy a b : truthy b = true -> truthy (py_or a b) = true.
Proof. intros Hb. unfold py_or. by destruct (truthy a) eqn:Ha. Qed.

Lemma item_speakers_spec `{Runtime} item clean primary :
  item_speakers item = Ok (clean, primary) ->
  Forall (fun s => s <> [] /\ strip s = s) clean
  /\ match clean with
     | first :: _ => primary = JStr first
     | [] => truthy primary = true
     end.
Proof.
  unfold item_speakers. intros Hs.
  bind_ok Hs raw0 E0. bind_ok Hs raw1 E1. bind_ok Hs elems E2.
  set (clean0 := filter (fun s => s <> []) (map (fun v => strip (to_str v)) elems))
    in Hs.
  assert (Hclean : Forall (fun s => s <> [] /\ strip s = s) clean0).
  { apply Forall_forall. intros s Hin.
    apply list_elem_of_filter in Hin as [Hne Hin]. split; [done|].
    apply list_elem_of_fmap in Hin as (v & -> & _). apply strip_idempotent. }
  destruct clean0 as [|first rest] eqn:Hc.
  - bind_ok Hs sp E3. injection Hs as <- <-. split; [done|].
    by apply py_or_truthy.
  - injection Hs as <- <-. by split.
Qed.

Lemma item_panel_labels `{Runtime} start_idx end_idx chunk_size cut_max n
    item p :
  item_panel start_idx end_idx chunk_size cut_max n item = Ok (Some p) ->
  labels_well_formed p.
Proof.
  intros Hp. unfold item_panel in Hp.
  bind_ok Hp t Et. bind_ok Hp txt0 Es.
  destruct txt0 as [|c tl']; [discriminate|].
  bind_ok Hp loc Eloc. bind_ok Hp ls Els. bind_ok Hp le0 Ele.
  bind_ok Hp span Espan. destruct span as [gs ge].
  bind_ok Hp sp Esp. destruct sp as [speakers_clean primary].
  apply item_speakers_spec in Esp as [Hclean Hprimary].
  bind_ok Hp type_ E1. bind_ok Hp time E2. bind_ok Hp scene0 E3.
  bind_ok Hp location E4. bind_ok Hp location0 E5. bind_ok Hp scene E6.
  bind_ok Hp tone E7. bind_ok Hp emotion E8. bind_ok Hp action E9.
  bind_ok Hp entities E10. bind_ok Hp digest E11.
  injection Hp as <-. unfold labels_well_formed.
  cbn [panel_speakers panel_speaker panel_entities]. split.
  - destruct speakers_clean as [|first rest]; [done|]. by exists first, rest.
  - unfold py_or. destruct (truthy entities) eqn:He; [by left | by right].
Qed.

Lemma fallback_panel_labels `{Runtime} start_idx chunk_size n sp p :
  fallback_panel start_idx chunk_size n sp = Ok (Some p) ->
  labels_well_formed p.
Proof.
  unfold fallback_panel. destruct sp as [[a b] seg].
  destruct (strip seg) as [|c seg']; [discriminate|]. intros Hp.
  bind_ok Hp digest Ed. injection Hp as <-. split; [reflexivity | by right].
Qed.

(** A run that returns has its windows. *)
Lemma run_windows `{Runtime} client full_text chunk_target window overlap ps :
  llm_cut_and_label_with_params client full_text chunk_target window overlap
    = Ok ps ->
  exists chunks, chunk_for_llm full_text window overlap = Ok chunks.
Proof.
  unfold llm_cut_and_label_with_params.
  destruct (derive_cut_parameters chunk_target)
    as [[[[cmin cmax] tmin] tmax]| |]; [|done..].
  cbn [mbind outcome_bind obind].
  destruct (chunk_for_llm full_text window overlap); [eauto | done..].
Qed.

(** X11: Whatever the oracle answers, the speaker labels of every cut of a
    run that returns are well formed: never an empty list of speakers, no
    empty or unstripped speaker in it, the primary speaker its first
    element; and the entities are never a false value other than the empty
    list. *)
Theorem run_labels_well_formed `{Runtime} (client : Client) (full_text : str)
    (chunk_target window overlap : Z) (ps : list Panel) :
  llm_cut_and_label_with_params client full_text chunk_target window overlap
    = Ok ps ->
  Forall labels_well_formed ps.
Proof.
  intros Hps.
  destruct (run_windows _ _ _ _ _ _ Hps) as [chunks Hc].
  destruct (run_invariant (fun _ _ => labels_well_formed) client full_text
              chunk_target window overlap chunks ps) as (params & _ & Hinv);
    [| | done | done |].
  - intros cut_max ch n item p _. apply item_panel_labels.
  - intros cut_max normalized ch n sp p _ _. apply fallback_panel_labels.
  - eapply Forall_impl; [exact Hinv|]. intros p (ch & _ & Hp). exact Hp.
Qed.

Lemma run_labels_well_formed_witness :
  exists ps,
    llm_cut_and_label_with_params (H := Ref.runtime)
      Sample.first_window_only Sample.hello_world TARGET_MIN 8 2 = Ok ps
    /\ Forall labels_well_formed ps.
Proof.
  destruct (llm_cut_and_label_with_params (H := Ref.runtime)
              Sample.first_window_only Sample.hello_world TARGET_MIN 8 2)
    as [ps| |] eqn:Hps; [|vm_compute in Hps; discriminate..].
  exists ps. split; [reflexivity|].
  exact (run_labels_well_formed (H := Ref.runtime) Sample.first_window_only
           Sample.hello_world TARGET_MIN 8 2 ps Hps).
Defined.

Lemma process_chunk_unusable `{Runtime} client1 client2 full_text cut_min
    cut_max ich s :
  oracle_unusable client1 -> oracle_unusable client2 ->
  process_chunk client1 full_text cut_min cut_max ich s
  = process_chunk client2 full_text cut_min cut_max ich s.
Proof.
  intros H1 H2. destruct ich as [idx ch]. unfold process_chunk, try_except_stmt.
  set (chunk_text := slice full_text (chunk_start ch) (chunk_end ch)).
  destruct (oracle_path_unusable client1 idx chunk_text (chunk_start ch)
              (chunk_end ch) (chunk_end ch - chunk_start ch) cut_max s H1)
    as (e1 & Hex1 & ->).
  destruct (oracle_path_unusable client2 idx chunk_text (chunk_start ch)
              (chunk_end ch) (chunk_end ch - chunk_start ch) cut_max s H2)
    as (e2 & Hex2 & ->).
  rewrite Hex1, Hex2. unfold fallback_path.
  unfold bind at 1 3. by rewrite !reraise_is_caught.
Qed.

Lemma for_each_ext {A} (l : list A) (f g : A -> M unit) s :
  (forall x s, f x s = g x s) -> for_each l f s = for_each l g s.
Proof.
  intros Hfg. revert s. induction l as [|x l IH]; intros s; simpl; [done|].
  unfold bind. rewrite Hfg. destruct (g x s) as [[[]| |] s']; by rewrite ?IH.
Qed.

(** X12: The cuts of the fallback are a function of the text and the
    parameters alone: two oracles that are both unusable for every window,
    whether they raise [AuthenticationError], raise anything else or
    answer without an array, give the same run. *)
Theorem fallback_run_independent_of_oracle `{Runtime}
    (client1 client2 : Client) (full_text : str)
    (chunk_target window overlap : Z) :
  oracle_unusable client1 -> oracle_unusable client2 ->
  llm_cut_and_label_with_params client1 full_text chunk_target window overlap
  = llm_cut_and_label_with_params client2 full_text chunk_target window
      overlap.
Proof.
  intros H1 H2. unfold llm_cut_and_label_with_params.
  destruct (derive_cut_parameters chunk_target)
    as [[[[cmin cmax] tmin] tmax]| |]; [|done..].
  destruct (chunk_for_llm full_text window overlap) as [chunks| |]; simpl;
    [|done..].
  rewrite (for_each_ext _ _ (process_chunk client2 full_text cmin cmax));
    [done|].
  intros x s. by apply process_chunk_unusable.
Qed.

Lemma fallback_run_independent_of_oracle_witness :
  oracle_unusable (H := Ref.runtime) Sample.unauthorized
  /\ oracle_unusable (H := Ref.runtime) Sample.unreachable
  /\ llm_cut_and_label_with_params (H := Ref.runtime) Sample.unauthorized
       Sample.hello_world TARGET_MIN 8 2
     = llm_cut_and_label_with_params (H := Ref.runtime) Sample.unreachable
         Sample.hello_world TARGET_MIN 8 2.
Proof.
  assert (H1 : oracle_unusable (H := Ref.runtime) Sample.unauthorized)
    by (by intros idx txt).
  assert (H2 : oracle_unusable (H := Ref.runtime) Sample.unreachable)
    by (by intros idx txt).
  split; [exact H1|]. split; [exact H2|].
  exact (fallback_run_independent_of_oracle (H := Ref.runtime)
           Sample.unauthorized Sample.unreachable Sample.hello_world
           TARGET_MIN 8 2 H1 H2).
Defined.

(** ** More on the parsers *)

Lemma strip_nonspace_ends (c d : N) (mid : str) :
  isspace c = false -> isspace d = false ->
  strip (c :: mid ++ [d]) = c :: mid ++ [d].
Proof.
  intros Hc Hd. unfold strip, rstrip.
  replace (rev (c :: mid ++ [d])) with (d :: rev (c :: mid))
    by (by rewrite app_comm_cons, rev_app_distr).
  rewrite lstrip_nonspace by done.
  replace (rev (d :: rev (c :: mid))) with (c :: mid ++ [d])
    by (simpl; rewrite rev_app_distr, rev_involutive; done).
  by apply lstrip_nonspace.
Qed.

(** X13: A fenced answer parses like its body: for a body that is stripped
    and does not itself open with a fence, wrapping it in [```letters\n
    ... \n```] changes the result of neither parser. *)
Theorem safe_json_parsers_ignore_fence `{Runtime} (letters body : str) :
  Forall (fun x => isalpha_ascii x = true) letters ->
  strip body = body ->
  startswith [BACKTICK; BACKTICK; BACKTICK] body = false ->
  _safe_json_loads ([BACKTICK; BACKTICK; BACKTICK] ++ letters ++ [LF] ++ body
                    ++ [LF; BACKTICK; BACKTICK; BACKTICK])
  = _safe_json_loads body
  /\ _safe_json_object ([BACKTICK; BACKTICK; BACKTICK] ++ letters ++ [LF]
                        ++ body ++ [LF; BACKTICK; BACKTICK; BACKTICK])
     = _safe_json_object body.
Proof.
  intros Hl Hbody Hplain.
  set (fenced := [BACKTICK; BACKTICK; BACKTICK] ++ letters ++ [LF] ++ body
                 ++ [LF; BACKTICK; BACKTICK; BACKTICK]).
  assert (Hstrip : strip fenced = fenced).
  { unfold fenced.
    replace ([BACKTICK; BACKTICK; BACKTICK] ++ letters ++ [LF] ++ body
             ++ [LF; BACKTICK; BACKTICK; BACKTICK])
      with (BACKTICK :: ([BACKTICK; BACKTICK] ++ letters ++ [LF] ++ body
                         ++ [LF; BACKTICK; BACKTICK]) ++ [BACKTICK]).
    { by apply strip_nonspace_ends. }
    simpl. do 2 f_equal. rewrite <- !app_assoc. simpl. do 2 f_equal.
    by rewrite <- !app_assoc. }
  assert (Hfence : strip_fence (strip fenced) = strip_fence (strip body)).
  { rewrite Hstrip, Hbody, (strip_fence_plain body Hplain).
    by apply strip_fence_fenced. }
  unfold _safe_json_loads, _safe_json_object. cbv zeta.
  by rewrite Hfence.
Qed.

Lemma safe_json_parsers_ignore_fence_witness :
  Forall (fun x => isalpha_ascii x = true) (lit "json")
  /\ strip (Sample.quoted "[{'a': 1}]") = Sample.quoted "[{'a': 1}]"
  /\ startswith [BACKTICK; BACKTICK; BACKTICK] (Sample.quoted "[{'a': 1}]")
     = false
  /\ _safe_json_loads (H := Ref.runtime)
       ([BACKTICK; BACKTICK; BACKTICK] ++ lit "json" ++ [LF]
        ++ Sample.quoted "[{'a': 1}]" ++ [LF; BACKTICK; BACKTICK; BACKTICK])
     = _safe_json_loads (H := Ref.runtime) (Sample.quoted "[{'a': 1}]").
Proof.
  assert (Hl : Forall (fun x => isalpha_ascii x = true) (lit "json"))
    by (by repeat constructor).
  split; [exact Hl|]. split; [reflexivity|]. split; [reflexivity|].
  apply (safe_json_parsers_ignore_fence (H := Ref.runtime) (lit "json")
           (Sample.quoted "[{'a': 1}]") Hl eq_refl eq_refl).
Defined.

(** ** What the relationship reducer keeps *)

Lemma stripped_field_stripped d key s :
  stripped_field d key = Ok s -> strip s = s.
Proof.
  unfold stripped_field. destruct (get d key JNull) as [v| |]; simpl; [|done..].
  unfold strip_method. destruct (py_or v (JStr [])); try done.
  intros [= <-]. apply strip_idempotent.
Qed.

Lemma fold_outcome_invariant {A B} (P : A -> Prop) (f : A -> B -> outcome A)
    a l a' :
  (forall a x a1, P a -> f a x = Ok a1 -> P a1) ->
  P a -> fold_outcome f a l = Ok a' -> P a'.
Proof.
  intros Hf. revert a. induction l as [|x l IH]; intros a Ha; simpl.
  - by intros [= <-].
  - destruct (f a x) as [a1| |] eqn:Hstep; simpl; try discriminate.
    apply IH. by eapply Hf.
Qed.

Lemma well_formed_character_step `{Runtime} g char g' :
  graph_well_formed g -> character_step g char = Ok g' -> graph_well_formed g'.
Proof.
  intros [Hn He]. unfold character_step.
  destruct (stripped_field char (lit "name")) as [name| |] eqn:Hname; simpl;
    try discriminate.
  destruct name as [|c name']; [by intros [= <-]|].
  destruct (stripped_field char (lit "description")) as [desc| |] eqn:Hdesc;
    simpl; try discriminate.
  intros [= <-]. split; [|exact He]. simpl. intros n d.
  rewrite node_update_lookup. case_bool_decide as Hcase.
  - subst n. apply stripped_field_stripped in Hname, Hdesc.
    destruct (nodes g !! (c :: name')) as [[|c1 old]|] eqn:Hold.
    + by intros [= <-].
    + intros [= <-]. by apply Hn in Hold as (_ & _ & Hold).
    + by intros [= <-].
  - apply Hn.
Qed.

Lemma DEFAULT_LABEL_stripped : strip DEFAULT_LABEL = DEFAULT_LABEL.
Proof. reflexivity. Qed.

Lemma well_formed_relationship_step `{Runtime} g rel g' :
  graph_well_formed g -> relationship_step g rel = Ok g' ->
  graph_well_formed g'.
Proof.
  intros [Hn He]. unfold relationship_step.
  destruct (stripped_field rel (lit "source")) as [src| |] eqn:Hsrc; simpl;
    try discriminate.
  destruct (stripped_field rel (lit "target")) as [tgt| |] eqn:Htgt; simpl;
    try discriminate.
  destruct (stripped_field rel (lit "label")) as [label| |] eqn:Hlabel; simpl;
    try discriminate.
  apply stripped_field_stripped in Hsrc, Htgt, Hlabel.
  set (label' := match label with [] => DEFAULT_LABEL | _ :: _ => label end).
  assert (Hl' : label' <> [] /\ strip label' = label').
  { unfold label'. destruct label; [by split | by split]. }
  case_bool_decide as Hskip; intros [= <-]; [by split|].
  split; [exact Hn|]. simpl. intros s t labels.
  destruct (decide ((src, tgt) = (s, t))) as [[= <- <-]|Hne].
  - rewrite lookup_insert_eq. intros [= <-].
    split; [tauto|]. split; [tauto|]. split; [done|]. split; [done|].
    split; [tauto|]. split.
    + intros Hempty.
      assert (Hin : label' ∈ (∅ : gset str))
        by (rewrite <- Hempty; apply elem_of_union; right;
            by apply elem_of_singleton).
      by apply not_elem_of_empty in Hin.
    + intros l Hin. apply elem_of_union in Hin as [Hin | Hin].
      * destruct (edges g !! (src, tgt)) as [old|] eqn:Hold; simpl in Hin.
        -- apply He in Hold as (_ & _ & _ & _ & _ & _ & Hlab). by apply Hlab.
        -- by apply not_elem_of_empty in Hin.
      * apply elem_of_singleton in Hin as ->. exact Hl'.
  - rewrite lookup_insert_ne by done. apply He.
Qed.

Lemma well_formed_graph_chunk_step `{Runtime} client full_text g ich g' :
  graph_well_formed g -> graph_chunk_step client full_text g ich = Ok g' ->
  graph_well_formed g'.
Proof.
  intros Hg. unfold graph_chunk_step. destruct ich as [idx ch].
  destruct (_call_graph_chunk _ _ _) as [[[|m members]|]| |]; simpl;
    try discriminate; try (by intros [= <-]).
  match goal with
  | |- iterate ?v ≫= _ = _ -> _ => destruct (iterate v) as [chars| |]
  end; simpl; try discriminate.
  destruct (fold_outcome character_step g chars) as [g1| |] eqn:Hc; simpl;
    try discriminate.
  match goal with
  | |- iterate ?v ≫= _ = _ -> _ => destruct (iterate v) as [rels| |]
  end; simpl; try discriminate.
  apply fold_outcome_invariant.
  - intros a x a1 Ha Hstep. by eapply well_formed_relationship_step.
  - eapply fold_outcome_invariant; [|exact Hg | exact Hc].
    intros a x a1 Ha Hstep. by eapply well_formed_character_step.
Qed.

Lemma empty_graph_well_formed `{Runtime} : graph_well_formed (Graph ∅ ∅).
Proof.
  split; [intros name desc Hl | intros src tgt labels Hl];
    simpl in Hl; by rewrite lookup_empty in Hl.
Qed.

Lemma well_formed_graph_fold `{Runtime} client full_text g ichs g' :
  graph_well_formed g ->
  fold_outcome (graph_chunk_step client full_text) g ichs = Ok g' ->
  graph_well_formed g'.
Proof.
  intros Hg. apply fold_outcome_invariant; [|exact Hg].
  intros a x a1 Ha Hstep. by eapply well_formed_graph_chunk_step.
Qed.

(** X14: Whatever the oracle answers, the dictionaries the reducer has
    built when it returns are well formed: no empty or unstripped name, no
    edge from a name to itself (case ignored), no edge without a label and
    no empty label. *)
Theorem graph_of_text_well_formed `{Runtime} (client : Client)
    (full_text : str) (g : graph) :
  graph_of_text client full_text = Ok g -> graph_well_formed g.
Proof.
  unfold graph_of_text.
  destruct (chunk_for_llm full_text WINDOW OVERLAP) as [chunks| |]; simpl;
    try discriminate.
  apply well_formed_graph_fold, empty_graph_well_formed.
Qed.

Lemma graph_of_text_well_formed_witness :
  exists g,
    graph_of_text (H := Ref.runtime) Sample.three_mentions Sample.hello_world
      = Ok g
    /\ graph_well_formed (H := Ref.runtime) g.
Proof.
  destruct (graph_of_text (H := Ref.runtime) Sample.three_mentions
              Sample.hello_world) as [g| |] eqn:Hg;
    [|vm_compute in Hg; discriminate..].
  exists g. split; [reflexivity|].
  exact (graph_of_text_well_formed (H := Ref.runtime) Sample.three_mentions
           Sample.hello_world g Hg).
Defined.

Lemma chunk_for_llm_first text window overlap :
  - 2 ^ 1020 < window < 2 ^ 1020 ->
  normalize_newlines text <> [] ->
  exists c rest,
    chunk_for_llm text window overlap = Ok (c :: rest) /\ chunk_start c = 0.
Proof.
  intros Hw Hne.
  destruct (chunk_for_llm_returns text window overlap Hw) as [chunks Hc].
  rewrite Hc. unfold chunk_for_llm in Hc.
  apply chunk_loop_starts in Hc as (_ & _ & Hhead);
    [|lia | constructor | apply in_order_nil | by left].
  destruct Hhead as [[Hlen _]|(c & rest & -> & Hc0)]; [|by eauto].
  destruct (normalize_newlines text); [done|].
  unfold len in Hlen. simpl in Hlen. lia.
Qed.

Lemma normalize_newlines_nonempty text :
  strip text <> [] -> normalize_newlines text <> [].
Proof.
  intros Hne Hnil. apply Hne, strip_spaces, spaces_normalize_newlines.
  rewrite Hnil. constructor.
Qed.

Lemma elem_of_endpoints (E : gset (str * str)) (name : str) :
  name ∈ set_fold (fun (k : str * str) (acc : gset str) =>
                     {[k.1]} ∪ {[k.2]} ∪ acc) ∅ E
  <-> exists k, k ∈ E /\ (name = k.1 \/ name = k.2).
Proof.
  apply (set_fold_ind_L
           (fun (r : gset str) (X : gset (str * str)) =>
              name ∈ r <-> exists k, k ∈ X /\ (name = k.1 \/ name = k.2))).
  - split; [intros Hin; by apply not_elem_of_empty in Hin|].
    intros (k & Hk & _). by apply not_elem_of_empty in Hk.
  - intros x X r Hx IH. rewrite !elem_of_union, !elem_of_singleton, IH. split.
    + intros [[-> | ->] | (k & Hk & Hn)].
      * exists x. split; [|by left].
        apply elem_of_union. left. by apply elem_of_singleton.
      * exists x. split; [|by right].
        apply elem_of_union. left. by apply elem_of_singleton.
      * exists k. split; [apply elem_of_union; by right | done].
    + intros (k & Hk & Hn). apply elem_of_union in Hk as [Hk | Hk].
      * apply elem_of_singleton in Hk as ->. by left.
      * right. by exists k.
Qed.

(** X15: What [generate_character_graph_dot] returns, whatever the oracle
    answers: the description dictionary has exactly the node names as
    keys, and every node name, whether it comes from a character record or
    only from a relationship, is a non-empty, stripped string.  A name
    known only from relationships has the empty description. *)
Theorem character_graph_nodes `{Runtime} (client : Client) (full_text : str)
    (node_names : gset str) (descriptions : gmap str str) :
  generate_character_graph_dot client full_text
    = Ok (node_names, descriptions) ->
  dom descriptions = node_names
  /\ (forall name, name ∈ node_names -> name <> [] /\ strip name = name)
  /\ (forall g, graph_of_text client full_text = Ok g ->
        strip full_text <> [] ->
        forall name,
          (name ∈ node_names
           <-> is_Some (nodes g !! name)
               \/ exists k, is_Some (edges g !! k)
                            /\ (name = k.1 \/ name = k.2))
          /\ (name ∈ node_names ->
              descriptions !! name = Some (default [] (nodes g !! name)))).
Proof.
  unfold generate_character_graph_dot.
  destruct (strip full_text) as [|c0 rest0] eqn:Hstrip.
  { intros [= <- <-]. split; [by rewrite dom_empty_L|].
    split; [intros name Hin; by apply not_elem_of_empty in Hin|].
    intros g _ Hne. done. }
  destruct (graph_of_text client full_text) as [g| |] eqn:Hg; simpl;
    try discriminate.
  assert (Hwf : graph_well_formed g).
  { unfold graph_of_text in Hg.
    destruct (chunk_for_llm full_text WINDOW OVERLAP) as [chunks| |];
      simpl in Hg; try discriminate.
    eapply well_formed_graph_fold; [apply empty_graph_well_formed | exact Hg]. }
  destruct Hwf as [Hn He].
  set (names := dom (nodes g) ∪ _). intros [= <- <-].
  assert (Hnames : forall name,
            name ∈ names
            <-> is_Some (nodes g !! name)
                \/ exists k, is_Some (edges g !! k)
                             /\ (name = k.1 \/ name = k.2)).
  { intros name. unfold names.
    rewrite elem_of_union, elem_of_dom, elem_of_endpoints.
    split; (intros [Hl | (k & Hk & Hnk)]; [by left | right; exists k]);
      (split; [|done]); by apply elem_of_dom. }
  assert (Hlookup : forall name d,
            (set_to_map (fun name : str =>
                           (name, default [] (nodes g !! name))) names
               : gmap str str) !! name = Some d
            <-> name ∈ names /\ d = default [] (nodes g !! name)).
  { intros name d. rewrite lookup_set_to_map by (by intros y y' _ _ [= ->]).
    split.
    - intros (y & Hy & [= -> ->]). done.
    - intros [Hin ->]. by exists name. }
  split; [|split].
  - apply set_eq. intros name. rewrite elem_of_dom. split.
    + intros [d Hd]. by apply Hlookup in Hd as [Hin _].
    + intros Hin. eexists. by apply Hlookup.
  - intros name Hin. apply Hnames in Hin as [[d Hd] | (k & [L HL] & Hnk)].
    + by apply Hn in Hd as (? & ? & _).
    + destruct k as [s t]. apply He in HL as (? & ? & ? & ? & _).
      simpl in Hnk. by destruct Hnk as [-> | ->].
  - intros g' [= <-] _ name. split; [apply Hnames|].
    intros Hin. by apply Hlookup.
Qed.

Lemma character_graph_nodes_witness :
  exists node_names descriptions,
    generate_character_graph_dot (H := Ref.runtime) Sample.three_mentions
      Sample.hello_world = Ok (node_names, descriptions)
    /\ dom descriptions = node_names.
Proof.
  destruct (generate_character_graph_dot (H := Ref.runtime)
              Sample.three_mentions Sample.hello_world)
    as [[node_names descriptions]| |] eqn:Hg;
    [|vm_compute in Hg; discriminate..].
  exists node_names, descriptions. split; [reflexivity|].
  apply (character_graph_nodes (H := Ref.runtime) Sample.three_mentions
           Sample.hello_world node_names descriptions Hg).
Defined.

(** X16: The reducer has no fallback: for a text that is not blank, an
    exception of the first request is raised to the caller, whatever its
    class; and a blank text is answered without any request. *)
Theorem character_graph_raises_on_oracle_error `{Runtime} (client : Client)
    (full_text : str) (e : exn) :
  (forall chunk_text, client 1 chunk_text = Raise e) ->
  generate_character_graph_dot client full_text
  = match strip full_text with
    | [] => Ok (∅, ∅)
    | _ :: _ => Raise e
    end.
Proof.
  intros Hclient. unfold generate_character_graph_dot.
  destruct (strip full_text) as [|c0 rest0] eqn:Hstrip; [done|].
  assert (Hne : normalize_newlines full_text <> [])
    by (apply normalize_newlines_nonempty; by rewrite Hstrip).
  destruct (chunk_for_llm_first full_text WINDOW OVERLAP
              ltac:(split; reflexivity) Hne)
    as (c & rest & Hc & _).
  unfold graph_of_text. rewrite Hc. simpl.
  unfold _call_graph_chunk. by rewrite Hclient.
Qed.

Lemma character_graph_raises_on_oracle_error_witness :
  (forall chunk_text, Sample.unauthorized 1 chunk_text = Raise AuthenticationError)
  /\ generate_character_graph_dot (H := Ref.runtime) Sample.unauthorized
       Sample.hello_world = Raise AuthenticationError.
Proof.
  split; [reflexivity|].
  apply (character_graph_raises_on_oracle_error (H := Ref.runtime)
           Sample.unauthorized Sample.hello_world AuthenticationError).
  reflexivity.
Defined.

(** ** Previews *)

(** X17: The preview of a text.  For [n >= 0] it has [min(len t, n + 1)]
    characters and agrees with the text on the first [n]: the text itself
    when it fits, its first [n] characters and an ellipsis otherwise.  A
    negative [n] cuts [-n] characters off the end and appends the
    ellipsis, even to the empty text. *)
Theorem text_preview_length (t : str) (n : Z) :
  (0 <= n ->
   len (text_preview t n) = Z.min (len t) (n + 1)
   /\ slice (text_preview t n) 0 n = slice t 0 n)
  /\ (n < 0 -> len (text_preview t n) = Z.max 0 (len t + n) + 1).
Proof.
  pose proof (len_nonneg t) as Ht. unfold text_preview. split.
  - intros Hn. destruct (Z.leb_spec (len t) n) as [Hle|Hgt].
    + split; [lia | done].
    + assert (Hl : len (slice t 0 n) = n) by (rewrite len_slice; lia).
      split; [rewrite len_app, Hl; change (len [ELLIPSIS]) with 1; lia|].
      rewrite !slice_inside
        by (rewrite ?len_app, ?Hl; change (len [ELLIPSIS]) with 1; lia).
      rewrite !drop_0, Z.sub_0_r.
      rewrite take_app_le by (rewrite length_take; unfold len in Hgt; lia).
      by rewrite take_take, Nat.min_id.
  - intros Hn. destruct (Z.leb_spec (len t) n) as [Hle|Hgt]; [lia|].
    assert (Hl : len (slice t 0 n) = Z.max 0 (len t + n)).
    { unfold slice, clamp_index. destruct (Z.ltb_spec n 0); [|lia]. simpl.
      unfold len. rewrite length_take, length_drop. lia. }
    rewrite len_app, Hl. change (len [ELLIPSIS]) with 1. lia.
Qed.

(** ** Rewriting proposals *)

Lemma map_outcome_length {A B} (f : A -> outcome B) l out :
  map_outcome f l = Ok out -> length out = length l.
Proof.
  revert out. induction l as [|x l IH]; intros out; simpl.
  - by intros [= <-].
  - destruct (f x) as [y| |]; simpl; try discriminate.
    destruct (map_outcome f l) as [ys| |]; simpl; try discriminate.
    intros [= <-]. simpl. f_equal. by apply IH.
Qed.

Lemma map_outcome_Forall {A B} (P : B -> Prop) (f : A -> outcome B) l out :
  (forall x y, f x = Ok y -> P y) ->
  map_outcome f l = Ok out -> Forall P out.
Proof.
  intros Hf. revert out. induction l as [|x l IH]; intros out; simpl.
  - intros [= <-]. constructor.
  - destruct (f x) as [y| |] eqn:Hy; simpl; try discriminate.
    destruct (map_outcome f l) as [ys| |]; simpl; try discriminate.
    intros [= <-]. constructor; [by eapply Hf | by apply IH].
Qed.

Lemma plot_item_variant selected_text item v :
  plot_item selected_text item = Ok v ->
  variant_text v = selected_text
  \/ (variant_text v <> [] /\ strip (variant_text v) = variant_text v).
Proof.
  unfold plot_item. intros Hv.
  bind_ok Hv a Ea. bind_ok Hv b Eb. bind_ok Hv c Ec. bind_ok Hv d Ed.
  injection Hv as <-. simpl. destruct b as [|x b']; [by left|]. right.
  split; [done|]. unfold strip_method in Eb.
  destruct (py_or a (JStr [])); try discriminate.
  injection Eb as Eb. rewrite <- Eb. apply strip_idempotent.
Qed.

(** X18: What [llm_plot_variants] returns when it returns: the three
    proposals of the fallback, which repeat the selected text, when the
    answer holds no non-empty array, whatever [n] is; and otherwise
    exactly [n] proposals (none for a negative [n]).  Each proposal is the
    selected text itself or a non-empty, stripped string, so no proposal
    is empty unless the selected text is. *)
Theorem llm_plot_variants_shape `{Runtime} (client : Client)
    (selected_text : str) (n : Z) (out : list variant) :
  llm_plot_variants client selected_text n = Ok out ->
  (out = replicate 3 (Variant selected_text FALLBACK_NOTE)
   \/ len out = Z.max 0 n)
  /\ Forall (fun v => variant_text v = selected_text
                      \/ (variant_text v <> []
                          /\ strip (variant_text v) = variant_text v)) out.
Proof.
  unfold llm_plot_variants. intros Hrun.
  bind_ok Hrun content Ec. bind_ok Hrun data Ed.
  destruct data as [[|item items]|]; try (injection Hrun as <-; split;
    [by left | repeat constructor; by left]).
  bind_ok Hrun vs Ev. injection Hrun as <-.
  pose proof (map_outcome_length _ _ _ Ev) as Hlen.
  rewrite length_take in Hlen. split.
  - right. rewrite len_app. unfold len in *. rewrite length_replicate. lia.
  - apply Forall_app. split.
    + eapply map_outcome_Forall; [|exact Ev]. apply plot_item_variant.
    + apply Forall_replicate. by left.
Qed.

Lemma llm_plot_variants_shape_witness :
  llm_plot_variants (H := Ref.runtime) Sample2.single_proposal
    Sample.hello_world 2
  = Ok [Variant (lit "hi there") (lit "short");
        Variant Sample.hello_world PAD_NOTE]
  /\ Forall (fun v => variant_text v = Sample.hello_world
                      \/ (variant_text v <> []
                          /\ strip (variant_text v) = variant_text v))
       [Variant (lit "hi there") (lit "short");
        Variant Sample.hello_world PAD_NOTE].
Proof.
  split; [reflexivity|].
  apply (llm_plot_variants_shape (H := Ref.runtime) Sample2.single_proposal
           Sample.hello_world 2). reflexivity.
Defined.

(** ** The character brief *)

Lemma in_order_cons {A} (R : A -> A -> Prop) x l :
  in_order R (x :: l) <-> Forall (R x) l /\ in_order R l.
Proof.
  split.
  - intros H. split.
    + apply Forall_lookup. intros i y Hy. by apply (H O (S i) x y); [lia | |].
    + intros i j a b Hij Ha Hb. by apply (H (S i) (S j) a b); [lia | |].
  - intros [Hx Hl] i j a b Hij Ha Hb. destruct j as [|j]; [lia|].
    destruct i as [|i].
    + injection Ha as <-. eapply Forall_lookup in Hx; [exact Hx | exact Hb].
    + apply (Hl i j a b); [lia | done | done].
Qed.

Lemma in_order_take {A} (R : A -> A -> Prop) k l :
  in_order R l -> in_order R (take k l).
Proof.
  intros H i j a b Hij Ha Hb.
  apply lookup_take_Some in Ha as [Ha _]. apply lookup_take_Some in Hb as [Hb _].
  by apply (H i j a b).
Qed.

Lemma NoDup_take {A} k (l : list A) : NoDup l -> NoDup (take k l).
Proof.
  intros H. rewrite <- (take_drop k l) in H. by apply NoDup_app in H as [? _].
Qed.

Lemma insert_by_start_perm p l : insert_by_start p l ≡ₚ p :: l.
Proof.
  induction l as [|q l IH]; simpl; [done|].
  destruct (_ <=? _); [done|]. rewrite IH. apply Permutation_swap.
Qed.

Lemma sort_by_start_perm l : sort_by_start l ≡ₚ l.
Proof.
  induction l as [|p l IH]; simpl; [done|].
  rewrite insert_by_start_perm. by rewrite IH.
Qed.

Lemma insert_by_start_sorted p l :
  in_order (fun a b => (panel_source_span a).1 <= (panel_source_span b).1) l ->
  in_order (fun a b => (panel_source_span a).1 <= (panel_source_span b).1)
    (insert_by_start p l).
Proof.
  induction l as [|q l IH]; simpl; intros Hl.
  - apply in_order_cons. split; [constructor | apply in_order_nil].
  - apply in_order_cons in Hl as [Hq Hl].
    destruct (Z.leb_spec (panel_source_span p).1 (panel_source_span q).1).
    + apply in_order_cons. split.
      * constructor; [done|]. eapply Forall_impl; [exact Hq|]. simpl. lia.
      * apply in_order_cons. by split.
    + apply in_order_cons. split; [|by apply IH].
      rewrite insert_by_start_perm. constructor; [lia | done].
Qed.

Lemma sort_by_start_sorted l :
  in_order (fun a b => (panel_source_span a).1 <= (panel_source_span b).1)
    (sort_by_start l).
Proof.
  induction l as [|p l IH]; simpl; [apply in_order_nil|].
  by apply insert_by_start_sorted.
Qed.

Lemma filter_outcome_spec {A} (f : A -> outcome bool) l hits :
  filter_outcome f l = Ok hits ->
  (forall x, x ∈ hits <-> x ∈ l /\ f x = Ok true)
  /\ (length hits <= length l)%nat.
Proof.
  revert hits. induction l as [|y l IH]; intros hits; simpl.
  - intros [= <-]. split; [|done]. intros x. split.
    + intros Hx. by apply elem_of_nil in Hx.
    + intros [Hx _]. by apply elem_of_nil in Hx.
  - destruct (f y) as [b| |] eqn:Hy; simpl; try discriminate.
    destruct (filter_outcome f l) as [r| |]; simpl; try discriminate.
    intros [= <-]. destruct (IH r eq_refl) as [Hr Hlen].
    destruct b; simpl; (split; [|lia]); intros x;
      rewrite ?elem_of_cons, Hr; split.
    + intros [-> | [Hx Hfx]]; [split; [by left | done] | split; [by right | done]].
    + intros [[-> | Hx] Hfx]; [by left | right; by split].
    + intros [Hx Hfx]. split; [by right | done].
    + intros [[-> | Hx] Hfx]; [congruence | by split].
Qed.

Lemma uniq_by_id_spec seen hits :
  NoDup (map panel_id (uniq_by_id seen hits))
  /\ (forall p, p ∈ uniq_by_id seen hits -> p ∈ hits /\ panel_id p ∉ seen)
  /\ (forall p, p ∈ hits -> panel_id p ∉ seen ->
        panel_id p ∈ map panel_id (uniq_by_id seen hits))
  /\ (length (uniq_by_id seen hits) <= length hits)%nat.
Proof.
  revert seen. induction hits as [|q hits IH]; intros seen; simpl.
  - split; [constructor|]. split; [intros p Hp; by apply elem_of_nil in Hp|].
    split; [intros p Hp; by apply elem_of_nil in Hp | done].
  - case_bool_decide as Hq.
    + destruct (IH seen) as (Hnd & Hsub & Hall & Hlen).
      split; [done|]. split; [|split; [|lia]].
      * intros p Hp. apply Hsub in Hp as [Hp Hs]. split; [by right | done].
      * intros p Hp Hs. apply elem_of_cons in Hp as [-> | Hp]; [done|].
        by apply Hall.
    + destruct (IH ({[panel_id q]} ∪ seen)) as (Hnd & Hsub & Hall & Hlen).
      split; [|split; [|split; [|simpl; lia]]].
      * simpl. constructor; [|done]. intros Hin.
        apply list_elem_of_fmap in Hin as (p & Hid & Hp).
        apply Hsub in Hp as [_ Hs]. apply Hs. rewrite Hid.
        apply elem_of_union. left. by apply elem_of_singleton.
      * intros p Hp. apply elem_of_cons in Hp as [-> | Hp]; [split; [by left | done]|].
        apply Hsub in Hp as [Hp Hs]. split; [by right|].
        intros Hin. apply Hs. apply elem_of_union. by right.
      * intros p Hp Hs. simpl.
        destruct (decide (panel_id p = panel_id q)) as [-> | Hne]; [by left|].
        right. apply elem_of_cons in Hp as [-> | Hp]; [done|].
        apply Hall; [done|]. intros Hin.
        apply elem_of_union in Hin as [Hin | Hin]; [|done].
        by apply elem_of_singleton in Hin.
Qed.

Lemma slice_prefix {A} (s : list A) (b : Z) :
  slice s 0 b = take (Z.to_nat (clamp_index (len s) b)) s.
Proof.
  unfold slice. pose proof (len_nonneg s).
  replace (clamp_index (len s) 0) with 0
    by (unfold clamp_index; destruct (Z.ltb_spec 0 0); lia).
  by rewrite Z.sub_0_r.
Qed.

(** X19: What [build_character_brief] returns when it returns: panels of
    the input that match the name, no two with the same id, in the order
    of their span starts.  [count] is taken before [limit] is applied: it
    is at most the number of input panels and at least the number of
    panels returned, which is [min(count, limit)] for [limit >= 0]; and
    when [limit] reaches [count] every matching panel has its id among
    the panels returned. *)
Theorem build_character_brief_spec `{Runtime} (name : str)
    (panels : list Panel) (limit count : Z) (out : list Panel) :
  build_character_brief name panels limit = Ok (count, out) ->
  NoDup (map panel_id out)
  /\ in_order (fun a b => (panel_source_span a).1 <= (panel_source_span b).1)
       out
  /\ Forall (fun p => p ∈ panels /\ is_hit (lower name) p = Ok true) out
  /\ len out <= count <= len panels
  /\ (0 <= limit -> len out = Z.min count limit)
  /\ (count <= limit ->
      forall p, p ∈ panels -> is_hit (lower name) p = Ok true ->
                panel_id p ∈ map panel_id out).
Proof.
  unfold build_character_brief. intros Hrun. bind_ok Hrun hits Ehits.
  injection Hrun as <- <-.
  destruct (filter_outcome_spec _ _ _ Ehits) as [Hhits Hlen].
  destruct (uniq_by_id_spec ∅ hits) as (Hnd & Hsub & Hall & Hlen').
  set (uniq := sort_by_start (uniq_by_id ∅ hits)).
  assert (Hperm : uniq ≡ₚ uniq_by_id ∅ hits) by apply sort_by_start_perm.
  assert (Hlu : length uniq = length (uniq_by_id ∅ hits))
    by (by rewrite Hperm).
  rewrite slice_prefix. set (k := Z.to_nat (clamp_index (len uniq) limit)).
  split; [|split; [|split; [|split; [|split]]]].
  - rewrite <- firstn_map. apply NoDup_take. by rewrite Hperm.
  - apply in_order_take, sort_by_start_sorted.
  - apply Forall_take, Forall_forall. intros p Hp.
    rewrite Hperm in Hp. apply Hsub in Hp as [Hp _]. by apply Hhits.
  - unfold len. rewrite length_take. lia.
  - intros Hl. unfold len. rewrite length_take. unfold k, clamp_index.
    destruct (Z.ltb_spec limit 0); [lia|]. unfold len. lia.
  - intros Hl p Hp Hhit.
    assert (Hk : take k uniq = uniq).
    { apply take_ge. unfold k, clamp_index.
      pose proof (len_nonneg uniq).
      destruct (Z.ltb_spec limit 0); [lia|]. unfold len in *. lia. }
    rewrite Hk, Hperm. apply Hall; [by apply Hhits|].
    apply not_elem_of_empty.
Qed.

Lemma build_character_brief_spec_witness :
  build_character_brief (H := Ref.runtime) (lit "WO") Sample2.two_cuts 1
  = Ok (2, [Sample2.narration (lit "c0001") (lit "hello wo") (0, 8)])
  /\ len [Sample2.narration (lit "c0001") (lit "hello wo") (0, 8)] <= 2
     <= len Sample2.two_cuts.
Proof.
  split; [reflexivity|].
  pose proof (build_character_brief_spec (H := Ref.runtime) (lit "WO")
                Sample2.two_cuts 1 2
                [Sample2.narration (lit "c0001") (lit "hello wo") (0, 8)]
                eq_refl) as (_ & _ & _ & Hlen & _).
  exact Hlen.
Defined.

(** ** Entries made from cuts *)

Lemma map_outcome_Forall2 {A B} (f : A -> outcome B) l out :
  map_outcome f l = Ok out -> Forall2 (fun x y => f x = Ok y) l out.
Proof.
  revert out. induction l as [|x l IH]; intros out; simpl.
  - intros [= <-]. constructor.
  - destruct (f x) as [y| |] eqn:Hy; simpl; try discriminate.
    destruct (map_outcome f l) as [ys| |]; simpl; try discriminate.
    intros [= <-]. constructor; [done | by apply IH].
Qed.

Lemma Forall2_map_eq {A B C} (f : A -> C) (g : B -> C) l1 l2 :
  Forall2 (fun x y => g y = f x) l1 l2 -> map g l2 = map f l1.
Proof. induction 1; simpl; congruence. Qed.

Lemma enumerate_cons {A} (start : Z) (x : A) l :
  enumerate start (x :: l) = (start, x) :: enumerate (start + 1) l.
Proof.
  unfold enumerate. simpl. rewrite Z.add_0_r. f_equal.
  apply imap_ext. intros i y _. simpl. f_equal. lia.
Qed.

Lemma enumerate_fst {A} (start : nat) (l : list A) :
  map fst (enumerate (Z.of_nat start) l)
  = map Z.of_nat (seq start (length l)).
Proof.
  revert start. induction l as [|x l IH]; intros start; [done|].
  rewrite enumerate_cons. simpl. f_equal.
  replace (Z.of_nat start + 1) with (Z.of_nat (S start)) by lia. apply IH.
Qed.

Lemma enumerate_snd {A} (start : Z) (l : list A) :
  map snd (enumerate start l) = l.
Proof.
  revert start. induction l as [|x l IH]; intros start; [done|].
  rewrite enumerate_cons. simpl. f_equal. apply IH.
Qed.

Lemma speaker_step_distinct `{Runtime} name_map c speakers seen :
  NoDup (map lower speakers) ->
  Forall (fun s => s <> [] /\ lower s ∈ seen) speakers ->
  NoDup (map lower (speaker_step name_map (speakers, seen) c).1)
  /\ Forall (fun s => s <> []
                      /\ lower s ∈ (speaker_step name_map (speakers, seen) c).2)
       (speaker_step name_map (speakers, seen) c).1.
Proof.
  intros Hnd Hall. unfold speaker_step.
  destruct (strip (to_str (py_or c (JStr [])))) as [|x name']; [done|].
  destruct (_normalize_speaker (x :: name') name_map) as [|y norm'] eqn:Hn;
    [done|].
  case_bool_decide as Hseen; [done|]. simpl. split.
  - rewrite map_app. simpl. apply NoDup_app. split; [done|]. split.
    + intros k Hk Hk'. apply list_elem_of_singleton in Hk' as ->.
      apply list_elem_of_fmap in Hk as (s & Hs & Hin).
      eapply Forall_forall in Hall; [|exact Hin].
      apply Hseen. rewrite Hs. tauto.
    + apply NoDup_singleton.
  - apply Forall_app. split.
    + eapply Forall_impl; [exact Hall|]. simpl. intros s [? ?].
      split; [done|]. apply elem_of_union. by right.
    + constructor; [|constructor]. split; [done|].
      apply elem_of_union. left. by apply elem_of_singleton.
Qed.

Lemma speaker_loop_distinct `{Runtime} name_map candidates speakers seen :
  NoDup (map lower speakers) ->
  Forall (fun s => s <> [] /\ lower s ∈ seen) speakers ->
  NoDup (map lower
           (foldl (speaker_step name_map) (speakers, seen) candidates).1)
  /\ Forall (fun s => s <> [])
       (foldl (speaker_step name_map) (speakers, seen) candidates).1.
Proof.
  revert speakers seen.
  induction candidates as [|c candidates IH]; intros speakers seen Hnd Hall.
  - simpl. split; [done|]. eapply Forall_impl; [exact Hall|]. simpl. tauto.
  - cbn [foldl].
    destruct (speaker_step_distinct name_map c speakers seen Hnd Hall)
      as [Hnd' Hall'].
    destruct (speaker_step name_map (speakers, seen) c) as [sp' seen'].
    by apply IH.
Qed.

Lemma entry_of_panel_spec `{Runtime} name_map idx p e :
  entry_of_panel name_map (idx, p) = Ok e ->
  entry_id e = idx /\ entry_text e = panel_text p
  /\ entry_source_span e = panel_source_span p
  /\ NoDup (map lower (entry_speakers e))
  /\ Forall (fun s => s <> []) (entry_speakers e).
Proof.
  unfold entry_of_panel. intros He. bind_ok He entities Ee.
  injection He as <-. cbn [entry_id entry_text entry_source_span entry_speakers].
  split; [done|]. split; [done|]. split; [done|].
  apply speaker_loop_distinct; constructor.
Qed.

Lemma panels_to_entries_pairs `{Runtime} panels canonical_names entries :
  panels_to_entries panels canonical_names = Ok entries ->
  Forall2 (fun (ip : Z * Panel) e =>
             entry_id e = ip.1 /\ entry_text e = panel_text ip.2
             /\ entry_source_span e = panel_source_span ip.2
             /\ NoDup (map lower (entry_speakers e))
             /\ Forall (fun s => s <> []) (entry_speakers e))
    (enumerate 1 panels) entries.
Proof.
  unfold panels_to_entries. intros Hrun.
  apply map_outcome_Forall2 in Hrun.
  eapply Forall2_impl; [exact Hrun|]. intros [idx p] e He.
  by apply entry_of_panel_spec in He.
Qed.

Lemma panels_to_entries_ids `{Runtime} panels canonical_names entries :
  panels_to_entries panels canonical_names = Ok entries ->
  map entry_id entries = map Z.of_nat (seq 1 (length panels)).
Proof.
  intros Hspec%panels_to_entries_pairs.
  rewrite <- (enumerate_fst 1 panels).
  apply (Forall2_map_eq fst entry_id).
  eapply Forall2_impl; [exact Hspec|]. simpl. tauto.
Qed.

(** X20: [panels_to_entries] makes one entry per cut, in order: the
    entries are numbered 1, 2, ... whatever the ids of the cuts, and carry
    the text and the span of their cut unchanged; the speakers of an entry
    are not empty and differ pairwise even when case is ignored. *)
Theorem panels_to_entries_spec `{Runtime} (panels : list Panel)
    (canonical_names : list str) (entries : list EntryRecord) :
  panels_to_entries panels canonical_names = Ok entries ->
  map entry_id entries = map Z.of_nat (seq 1 (length panels))
  /\ map entry_text entries = map panel_text panels
  /\ map entry_source_span entries = map panel_source_span panels
  /\ Forall (fun e => NoDup (map lower (entry_speakers e))
                      /\ Forall (fun s => s <> []) (entry_speakers e))
       entries.
Proof.
  intros Hrun. pose proof (panels_to_entries_pairs _ _ _ Hrun) as Hspec.
  split; [by eapply panels_to_entries_ids|]. split; [|split].
  - rewrite <- (enumerate_snd 1 panels) at 1. rewrite map_map.
    apply (Forall2_map_eq (fun ip : Z * Panel => panel_text ip.2) entry_text).
    eapply Forall2_impl; [exact Hspec|]. simpl. tauto.
  - rewrite <- (enumerate_snd 1 panels) at 1. rewrite map_map.
    apply (Forall2_map_eq (fun ip : Z * Panel => panel_source_span ip.2)
             entry_source_span).
    eapply Forall2_impl; [exact Hspec|]. simpl. tauto.
  - eapply Forall2_Forall_r; [exact Hspec|].
    apply Forall_forall. intros ip _ e He. tauto.
Qed.

Lemma panels_to_entries_spec_witness :
  exists entries,
    panels_to_entries (H := Ref.runtime) Sample2.two_cuts [lit "Unknown"]
      = Ok entries
    /\ map entry_id entries = [1; 2]
    /\ map entry_speakers entries = [[lit "Unknown"]; [lit "Unknown"]].
Proof.
  destruct (panels_to_entries (H := Ref.runtime) Sample2.two_cuts
              [lit "Unknown"]) as [entries| |] eqn:He;
    [|vm_compute in He; discriminate..].
  exists entries. split; [reflexivity|]. split.
  - apply (panels_to_entries_spec (H := Ref.runtime) Sample2.two_cuts
             [lit "Unknown"] entries He).
  - vm_compute in He. injection He as <-. reflexivity.
Defined.

(** X21: The entries made from the cuts of a run follow the ids of the
    cuts: the entry numbered [k] is the one of the cut [c000k], whichever
    path made the cut. *)
Theorem run_entries_follow_cut_ids `{Runtime} (client : Client)
    (full_text : str) (chunk_target window overlap : Z)
    (canonical_names : list str) (ps : list Panel)
    (entries : list EntryRecord) :
  llm_cut_and_label_with_params client full_text chunk_target window overlap
    = Ok ps ->
  panels_to_entries ps canonical_names = Ok entries ->
  map (fun e => pid (entry_id e)) entries = map panel_id ps.
Proof.
  intros Hps He. apply run_ids in Hps. apply panels_to_entries_ids in He.
  rewrite Hps. unfold consecutive_ids.
  rewrite <- (map_map entry_id pid), He. by rewrite map_map.
Qed.

Lemma run_entries_follow_cut_ids_witness :
  exists ps entries,
    llm_cut_and_label_with_params (H := Ref.runtime)
      Sample.first_window_only Sample.hello_world TARGET_MIN 8 2 = Ok ps
    /\ panels_to_entries (H := Ref.runtime) ps [] = Ok entries
    /\ map (fun e => pid (entry_id e)) entries = map panel_id ps.
Proof.
  destruct (llm_cut_and_label_with_params (H := Ref.runtime)
              Sample.first_window_only Sample.hello_world TARGET_MIN 8 2)
    as [ps| |] eqn:Hps; [|vm_compute in Hps; discriminate..].
  destruct (panels_to_entries (H := Ref.runtime) ps []) as [entries| |] eqn:He;
    [|vm_compute in Hps; injection Hps as <-; vm_compute in He;
      discriminate..].
  exists ps, entries. split; [reflexivity|]. split; [exact He|].
  exact (run_entries_follow_cut_ids (H := Ref.runtime)
           Sample.first_window_only Sample.hello_world TARGET_MIN 8 2 []
           ps entries Hps He).
Defined.

Lemma dict_get_elem_of m k v : dict_get m k = Some v -> (k, v) ∈ m.
Proof.
  induction m as [|[k' v'] m IH]; simpl; [done|].
  case_bool_decide as Hk.
  - intros [= <-]. subst k'. by left.
  - intros Hv. right. by apply IH.
Qed.

Lemma dict_setitem_Forall (P : str * str -> Prop) m k v :
  Forall P m -> P (k, v) -> Forall P (dict_setitem m k v).
Proof.
  intros Hm Hkv. induction Hm as [|[k' v'] m Hx Hm IH]; simpl.
  - by constructor.
  - case_bool_decide; constructor; done.
Qed.

Lemma dict_get_setitem m k v k' :
  dict_get (dict_setitem m k v) k'
  = if bool_decide (k' = k) then Some v else dict_get m k'.
Proof.
  induction m as [|[k0 v0] m IH]; simpl.
  - by repeat case_bool_decide.
  - destruct (decide (k = k0)) as [<- | Hne].
    + rewrite bool_decide_eq_true_2 by done. simpl.
      by repeat case_bool_decide.
    + rewrite bool_decide_eq_false_2 by done. simpl. rewrite IH.
      repeat case_bool_decide; congruence.
Qed.

Lemma build_name_map_spec `{Runtime} (all names : list str) m0 :
  (forall name, name ∈ names -> name ∈ all) ->
  Forall (fun kv : str * str =>
            kv.2 ∈ all /\ _normalize_token kv.2 = kv.1) m0 ->
  let step := fun (mapping : list (str * str)) (name : str) =>
    match name with
    | [] => mapping
    | _ :: _ =>
        match _normalize_token name with
        | [] => mapping
        | (_ :: _) as norm => dict_setitem mapping norm name
        end
    end in
  Forall (fun kv : str * str =>
            kv.2 ∈ all /\ _normalize_token kv.2 = kv.1) (foldl step m0 names)
  /\ (forall k, is_Some (dict_get m0 k) ->
                is_Some (dict_get (foldl step m0 names) k))
  /\ (forall name, name ∈ names -> name <> [] ->
        _normalize_token name <> [] ->
        is_Some (dict_get (foldl step m0 names) (_normalize_token name))).
Proof.
  intros Hall Hm0 step. revert m0 Hm0.
  induction names as [|n names IH]; intros m0 Hm0.
  - simpl. split; [done|]. split; [done|]. intros name Hin.
    by apply elem_of_nil in Hin.
  - cbn [foldl].
    assert (Hstep : Forall (fun kv : str * str =>
                      kv.2 ∈ all /\ _normalize_token kv.2 = kv.1) (step m0 n)
                    /\ (forall k, is_Some (dict_get m0 k) ->
                                  is_Some (dict_get (step m0 n) k))
                    /\ (n <> [] -> _normalize_token n <> [] ->
                        is_Some (dict_get (step m0 n) (_normalize_token n)))).
    { unfold step. destruct n as [|c n']; [done|].
      destruct (_normalize_token (c :: n')) as [|d norm'] eqn:Hnorm; [done|].
      split; [|split].
      - apply dict_setitem_Forall; [done|]. split; [|done].
        apply Hall. by left.
      - intros k Hk. rewrite dict_get_setitem. by case_bool_decide.
      - intros _ _. rewrite dict_get_setitem.
        by rewrite bool_decide_eq_true_2. }
    destruct Hstep as (Hinv & Hmono & Hnew).
    destruct (IH (fun name Hin => Hall name (list_elem_of_further _ _ _ Hin))
                (step m0 n) Hinv) as (Hinv' & Hmono' & Hnew').
    split; [done|]. split; [by intros k Hk; apply Hmono', Hmono|].
    intros name Hin Hne Hnorm. apply elem_of_cons in Hin as [-> | Hin].
    + by apply Hmono', Hnew.
    + by apply Hnew'.
Qed.

(** X22: A speaker is rewritten to a canonical name or left as it is,
    stripped: the result of [_normalize_speaker] against the map built
    from [names] is [speaker.strip()] or one of [names].  When some
    non-empty canonical name equals the speaker up to case and whitespace,
    the result is a canonical name with that same normal form. *)
Theorem normalize_speaker_canonical `{Runtime} (names : list str)
    (speaker : str) :
  (_normalize_speaker speaker (_build_name_map names) = strip speaker
   \/ _normalize_speaker speaker (_build_name_map names) ∈ names)
  /\ (forall name,
        name ∈ names -> name <> [] ->
        _normalize_token name = _normalize_token speaker ->
        _normalize_token speaker <> [] ->
        _normalize_speaker speaker (_build_name_map names) ∈ names
        /\ _normalize_token
             (_normalize_speaker speaker (_build_name_map names))
           = _normalize_token speaker).
Proof.
  destruct (build_name_map_spec names names [] (fun _ Hin => Hin)
              ltac:(constructor)) as (Hinv & _ & Hnew).
  fold (_build_name_map names) in Hinv, Hnew.
  unfold _normalize_speaker. cbv zeta.
  set (m := _build_name_map names) in *.
  set (norm := _normalize_token speaker).
  split.
  - destruct (dict_get m norm) as [canonical|] eqn:Hget.
    + right. apply dict_get_elem_of in Hget.
      eapply Forall_forall in Hinv; [|exact Hget]. tauto.
    + destruct (find _ m) as [[k canonical]|] eqn:Hfind; [|by left].
      right. apply find_some in Hfind as [Hin _].
      apply list_elem_of_In in Hin.
      eapply Forall_forall in Hinv; [|exact Hin]. tauto.
  - intros name Hin Hne Heq Hnorm.
    destruct (Hnew name Hin Hne ltac:(by rewrite Heq)) as [canonical Hget].
    rewrite Heq in Hget. fold norm in Hget. rewrite Hget.
    apply dict_get_elem_of in Hget.
    eapply Forall_forall in Hinv; [|exact Hget]. simpl in Hinv. tauto.
Qed.

